(** * Gort (cog2): command parsing, rule evaluation and the in-memory store

    A shallow embedding of
      - [command/command.go]      (package [command]),
      - [rules/rule.go]           (package [rules]),
      - the in-memory role access (package [memory], [RoleCreate] ...
        [RolePermissionList]),
      - [dataaccess/memory/token-access.go] (package [memory], tokens),
    followed by the properties established about them.

    Go strings are byte strings: they are modelled by [string] (a list of
    [ascii], one per byte).  Go maps are [gmap]s.  A Go function returning
    [(T, error)] returns a pair whose second component is [option error]
    ([None] is [nil]); the first component is kept even on the error paths,
    as the source returns it. *)

From Stdlib Require Import ZArith Ascii String.
From stdpp Require Import base option list gmap strings pretty sorting.

#[local] Set Warnings "-register-all".

Local Open Scope string_scope.
Local Open Scope list_scope.

(* ===================================================================== *)
(** * Package [types]: values *)
(* ===================================================================== *)

Module types.

(** Modelled from the spec: the variants of [types.Value] (the package is
    imported by [command.go]; its type declarations are given by the data
    model: String, Int, Float, Bool, Regex, List, Map, Null).  A float
    keeps the literal it was read from, a regular expression its source
    text. *)
Inductive Value : Type :=
| StringValue (V : string)
| IntValue (V : Z)
| FloatValue (literal : string)
| BoolValue (V : bool)
| RegexValue (source : string)
| ListValue (V : list Value)
| MapValue (V : list (string * Value))
| NullValue.

End types.

(* ===================================================================== *)
(** * Package [rules] *)
(* ===================================================================== *)

Module rules.

(** The join between two consecutive conditions or permissions.  The zero
    value is [Undefined]; [rules.Parse] assigns [And] after an "and"
    token and [Or] after an "or" token. *)
Inductive LogicalOperator : Type := Undefined | And | Or.

(** The seven operators recognised by [ParseExpression]. *)
Inductive Operator : Type :=
| Equals | NotEquals | LessThan | LessThanOrEqualTo
| GreaterThan | GreaterThanOrEqualTo | In.

(** The modifiers produced by [ParseExpression]. *)
Inductive CollectionOperationModifier : Type := CollOne | CollAny | CollAll.

Record Expression : Type := {
  Expression_A : types.Value;
  Expression_B : types.Value;
  Expression_Operator : Operator;
  Expression_Modifier : CollectionOperationModifier;
  Expression_Condition : LogicalOperator
}.

Record Permission : Type := {
  Permission_Name : string;
  Permission_Condition : LogicalOperator
}.

Record Rule : Type := {
  Rule_Command : string;
  Rule_Conditions : list Expression;
  Rule_Permissions : list Permission
}.

(** ** Instrumented evaluation

    [Rule.Matches] calls [Expression.Evaluate] and [Rule.Allowed] calls
    [hasPermission] behind Go's short-circuiting [&&] and [||].  To speak
    about which calls happen, a computation threads the log of the
    indices (positions in the rule's sequence) that were evaluated. *)

Definition Eval (A : Type) : Type := list nat -> A * list nat.

Definition ret {A} (a : A) : Eval A := fun log => (a, log).

Definition bind {A B} (m : Eval A) (k : A -> Eval B) : Eval B :=
  fun log => let '(a, log') := m log in k a log'.

Notation "x <- m ;; k" := (bind m (fun x => k))
  (at level 100, m at next level, right associativity).

(** The call of the element at position [i], whose value is [v]. *)
Definition call (i : nat) (v : bool) : Eval bool :=
  fun log => (v, log ++ [i]).

(** Go's [a && f()]: [f] runs only when [a] is true. *)
Definition and_then (a : bool) (f : Eval bool) : Eval bool :=
  if a then f else ret false.

(** Go's [a || f()]: [f] runs only when [a] is false. *)
Definition or_else (a : bool) (f : Eval bool) : Eval bool :=
  if a then ret true else f.

Definition value_of {A} (m : Eval A) : A := fst (m []).
Definition calls_of {A} (m : Eval A) : list nat := snd (m []).

(** [hasPermission]: a linear search of the user's permissions. *)
Fixpoint hasPermission (required : Permission) (permissions : list string) : bool :=
  match permissions with
  | [] => false
  | p :: permissions' =>
      if String.eqb p (Permission_Name required) then true
      else hasPermission required permissions'
  end.

Section Allowed.
Variable permissions : list string.

(** The loop [for i := 1; i < len(r.Permissions); i++] of [Allowed],
    entered at index [i] with the remaining elements [ps]. *)
Fixpoint AllowedLoop (result : bool) (i : nat) (ps : list Permission) : Eval bool :=
  match ps with
  | [] => ret result
  | p :: ps' =>
      match Permission_Condition p with
      | And =>
          result' <- and_then result (call i (hasPermission p permissions)) ;;
          AllowedLoop result' (S i) ps'
      | Or =>
          result' <- or_else result (call i (hasPermission p permissions)) ;;
          AllowedLoop result' (S i) ps'
      | Undefined => AllowedLoop result (S i) ps'
      end
  end.

Definition AllowedM (r : Rule) : Eval bool :=
  match Rule_Permissions r with
  | [] => ret true
  | p0 :: ps =>
      result <- call 0 (hasPermission p0 permissions) ;;
      AllowedLoop result 1 ps
  end.

Definition Allowed (r : Rule) : bool := value_of (AllowedM r).
End Allowed.

Section Matches.
(** [EvaluationEnvironment] and [Expression.Evaluate] belong to the
    expression evaluator of the package; [Matches] only calls them, so
    they are parameters here. *)
Variable EvaluationEnvironment : Type.
Variable Evaluate : Expression -> EvaluationEnvironment -> bool.
Variable env : EvaluationEnvironment.

(** The loop [for i := 1; i < len(r.Conditions); i++] of [Matches]. *)
Fixpoint MatchesLoop (result : bool) (i : nat) (cs : list Expression) : Eval bool :=
  match cs with
  | [] => ret result
  | c :: cs' =>
      match Expression_Condition c with
      | And =>
          result' <- and_then result (call i (Evaluate c env)) ;;
          MatchesLoop result' (S i) cs'
      | Or =>
          result' <- or_else result (call i (Evaluate c env)) ;;
          MatchesLoop result' (S i) cs'
      | Undefined => MatchesLoop result (S i) cs'
      end
  end.

Definition MatchesM (r : Rule) : Eval bool :=
  match Rule_Conditions r with
  | [] => ret true
  | c0 :: cs =>
      result <- call 0 (Evaluate c0 env) ;;
      MatchesLoop result 1 cs
  end.

Definition Matches (r : Rule) : bool := value_of (MatchesM r).
End Matches.

(** The left fold the rule evaluator is specified by: one step joins the
    accumulator with the value of the next element. *)
Definition join (acc : bool) (j : LogicalOperator) (v : bool) : bool :=
  match j with
  | And => acc && v
  | Or => acc || v
  | Undefined => acc
  end.

(** [joined j e] is [e] with its join condition set to [j], as
    [rules.Parse] builds the element that follows an "and"/"or" token. *)
Definition joined (j : LogicalOperator) (e : Expression) : Expression :=
  {| Expression_A := Expression_A e;
     Expression_B := Expression_B e;
     Expression_Operator := Expression_Operator e;
     Expression_Modifier := Expression_Modifier e;
     Expression_Condition := j |}.

Definition requires (j : LogicalOperator) (name : string) : Permission :=
  {| Permission_Name := name; Permission_Condition := j |}.

Definition when (cs : list Expression) : Rule :=
  {| Rule_Command := ""; Rule_Conditions := cs; Rule_Permissions := [] |}.

Definition must_have (ps : list Permission) : Rule :=
  {| Rule_Command := ""; Rule_Conditions := []; Rule_Permissions := ps |}.

(** *** The scenario [false and (arg[99] == 1)]

    [literally b] is a condition comparing two boolean literals, true
    exactly when [b] is; [arg99_is_1] is [arg[99] == 1].
    [literalEvaluate] is a stand-in for [Expression.Evaluate] on such
    conditions: it decides the comparison of two boolean literals and
    answers true on everything else. *)
Definition literally (b : bool) : Expression :=
  {| Expression_A := types.BoolValue b;
     Expression_B := types.BoolValue true;
     Expression_Operator := Equals;
     Expression_Modifier := CollOne;
     Expression_Condition := Undefined |}.

Definition arg99_is_1 : Expression :=
  {| Expression_A := types.StringValue "arg[99]";
     Expression_B := types.IntValue 1;
     Expression_Operator := Equals;
     Expression_Modifier := CollOne;
     Expression_Condition := Undefined |}.

Definition literalEvaluate (e : Expression) (_ : unit) : bool :=
  match Expression_A e, Expression_B e with
  | types.BoolValue a, types.BoolValue b => Bool.eqb a b
  | _, _ => true
  end.

(** Both loops are the same loop over different element types; the
    proofs go through this common form. *)
Section JoinLoop.
Context {T : Type}.
Variable cond : T -> LogicalOperator.
Variable val : T -> bool.

Fixpoint joinLoop (result : bool) (i : nat) (xs : list T) : Eval bool :=
  match xs with
  | [] => ret result
  | x :: xs' =>
      match cond x with
      | And =>
          result' <- and_then result (call i (val x)) ;;
          joinLoop result' (S i) xs'
      | Or =>
          result' <- or_else result (call i (val x)) ;;
          joinLoop result' (S i) xs'
      | Undefined => joinLoop result (S i) xs'
      end
  end.

Definition joinStep (acc : bool) (x : T) : bool := join acc (cond x) (val x).

Definition joinAll (xs : list T) : Eval bool :=
  match xs with
  | [] => ret true
  | x0 :: xs' =>
      result <- call 0 (val x0) ;;
      joinLoop result 1 xs'
  end.

(** An element is skipped when its join is [Undefined], or when the
    accumulator already decides the join. *)
Definition skips (acc : bool) (x : T) : bool :=
  match cond x with
  | Undefined => true
  | And => negb acc
  | Or => acc
  end.
End JoinLoop.

End rules.

(* ===================================================================== *)
(** * Go errors and strings *)
(* ===================================================================== *)

(** The [error] values the modelled functions return: the sentinel errors
    of packages [command] and [errs], and the errors built by [fmt.Errorf]
    with and without a wrapped error. *)
Inductive error : Type :=
| ErrInvalidBundleCommandPair
| ErrEmptyRoleName
| ErrRoleExists
| ErrNoSuchRole
| ErrNoSuchGroup
| ErrNoSuchUser
| ErrNoSuchToken
| TokenizeUnterminatedQuote
| Errorf (msg : string)
| Errorf_w (msg : string) (err : error).

Module gostrings.

(** [s[n:]] *)
Fixpoint from (n : nat) (s : string) : string :=
  match n, s with
  | S n', String _ s' => from n' s'
  | _, _ => s
  end.

(** [strings.Split(s, sep)] for a one-byte separator: the pieces between
    the occurrences of [sep]; one more piece than there are separators. *)
Fixpoint Split (s : string) (sep : ascii) : list string :=
  match s with
  | "" => [""]
  | String ch s' =>
      if Ascii.eqb ch sep then "" :: Split s' sep
      else match Split s' sep with
           | piece :: pieces => String ch piece :: pieces
           | [] => [String ch ""]
           end
  end.

(** [strings.Join(pieces, sep)] for a one-byte separator. *)
Fixpoint Join (pieces : list string) (sep : ascii) : string :=
  match pieces with
  | [] => ""
  | [piece] => piece
  | piece :: pieces' => piece ++ String sep (Join pieces' sep)
  end.

(** [strings.ContainsRune(s, c)] for a one-byte [c]. *)
Fixpoint Contains (s : string) (c : ascii) : bool :=
  match s with
  | "" => false
  | String ch s' => Ascii.eqb ch c || Contains s' c
  end.

(** *** Runes

    [for _, ch := range s] decodes UTF-8: [runeLen s] is the width of
    the well-formed encoding at the head of [s], or 0 when the head byte
    starts none, in which case the loop yields [utf8.RuneError] and
    advances by one byte. *)
Definition byte_in (lo hi b : N) : bool := (lo <=? b)%N && (b <=? hi)%N.
Definition cont (b : N) : bool := byte_in 128 191 b.

Definition runeLen (s : string) : nat :=
  match map N_of_ascii (list_ascii_of_string s) with
  | [] => 0
  | b0 :: tl =>
      if (b0 <? 128)%N then 1
      else if byte_in 194 223 b0 then
        match tl with b1 :: _ => if cont b1 then 2 else 0 | _ => 0 end
      else if byte_in 224 239 b0 then
        match tl with
        | b1 :: b2 :: _ =>
            let lo := if (b0 =? 224)%N then 160%N else 128%N in
            let hi := if (b0 =? 237)%N then 159%N else 191%N in
            if byte_in lo hi b1 && cont b2 then 3 else 0
        | _ => 0
        end
      else if byte_in 240 244 b0 then
        match tl with
        | b1 :: b2 :: b3 :: _ =>
            let lo := if (b0 =? 240)%N then 144%N else 128%N in
            let hi := if (b0 =? 244)%N then 143%N else 191%N in
            if byte_in lo hi b1 && cont b2 && cont b3 then 4 else 0
        | _ => 0
        end
      else 0
  end.

(** [string(utf8.RuneError)], the encoding of U+FFFD. *)
Definition RuneError : string :=
  String (ascii_of_N 239) (String (ascii_of_N 191) (String (ascii_of_N 189) "")).

(** The sequence of [string(ch)] for [ch] ranging over [s]; [skip] bytes
    of the rune being read are still to be passed. *)
Fixpoint runesFrom (skip : nat) (s : string) : list string :=
  match s with
  | "" => []
  | String _ s' =>
      match skip with
      | S k => runesFrom k s'
      | O =>
          match runeLen s with
          | O => RuneError :: runesFrom 0 s'
          | S k => substring 0 (S k) s :: runesFrom k s'
          end
      end
  end.

Definition runes (s : string) : list string := runesFrom 0 s.

(** [strings.Count(s, sep)] for a one-byte separator. *)
Fixpoint Count (s : string) (sep : ascii) : nat :=
  match s with
  | "" => 0
  | String ch s' => (if Ascii.eqb ch sep then 1 else 0) + Count s' sep
  end.

End gostrings.

(* ===================================================================== *)
(** * Package [types]: inference *)
(* ===================================================================== *)

Module infer.
Import types.

Definition isDigit (c : ascii) : bool :=
  gostrings.byte_in 48 57 (N_of_ascii c).

Definition isSpace (c : ascii) : bool :=
  let n := N_of_ascii c in (n =? 32)%N || gostrings.byte_in 9 13 n.

Definition lower (c : ascii) : ascii :=
  let n := N_of_ascii c in
  if gostrings.byte_in 65 90 n then ascii_of_N (n + 32) else c.

Fixpoint toLower (s : string) : string :=
  match s with
  | "" => ""
  | String c s' => String (lower c) (toLower s')
  end.

Fixpoint allDigits (s : string) : bool :=
  match s with
  | "" => true
  | String c s' => isDigit c && allDigits s'
  end.

(** [\d+] *)
Definition digits1 (s : string) : bool :=
  match s with "" => false | _ => allDigits s end.

Definition dropMinus (s : string) : string :=
  match s with
  | String "-" s' => s'
  | _ => s
  end.

Definition dropSign (s : string) : string :=
  match s with
  | String "-" s' => s'
  | String "+" s' => s'
  | _ => s
  end.

(** [^-?\d+$] *)
Definition isInt (s : string) : bool := digits1 (dropMinus s).

(** [\d+\.\d+] *)
Definition isDecimal (s : string) : bool :=
  match gostrings.Split s "." with
  | [a; b] => digits1 a && digits1 b
  | _ => false
  end.

(** The text before the first [e] or [E], and the text after it. *)
Fixpoint splitExponent (s : string) : option (string * string) :=
  match s with
  | "" => None
  | String c s' =>
      if Ascii.eqb (lower c) "e" then Some ("", s')
      else match splitExponent s' with
           | Some (m, e) => Some (String c m, e)
           | None => None
           end
  end.

(** [^-?\d+\.\d+$] or [^-?\d+(\.\d+)?[eE][+-]?\d+$] *)
Definition isFloat (s : string) : bool :=
  let u := dropMinus s in
  isDecimal u
  || match splitExponent u with
     | Some (m, e) => (digits1 m || isDecimal m) && digits1 (dropSign e)
     | None => false
     end.

Fixpoint digitsValue (acc : Z) (s : string) : Z :=
  match s with
  | "" => acc
  | String c s' => digitsValue (10 * acc + (Z.of_N (N_of_ascii c) - 48)) s'
  end.

Definition intValue (s : string) : Z :=
  match s with
  | String "-" s' => - digitsValue 0 s'
  | _ => digitsValue 0 s
  end.

Definition last_char (s : string) : option ascii :=
  match String.length s with
  | O => None
  | S n => String.get n s
  end.

(** [s] is at least two bytes long and starts and ends with [q]. *)
Definition enclosed (q : ascii) (s : string) : bool :=
  match s with
  | String c (String _ _) =>
      Ascii.eqb c q
      && match last_char s with Some l => Ascii.eqb l q | None => false end
  | _ => false
  end.

Definition inner (s : string) : string :=
  substring 1 (String.length s - 2) s.

Definition backslash : ascii := ascii_of_N 92.
Definition doubleQuote : ascii := ascii_of_N 34.
Definition singleQuote : ascii := ascii_of_N 39.

Definition escapeOf (c : ascii) : option ascii :=
  if Ascii.eqb c backslash then Some backslash
  else if Ascii.eqb c "n" then Some (ascii_of_N 10)
  else if Ascii.eqb c "t" then Some (ascii_of_N 9)
  else if Ascii.eqb c doubleQuote then Some doubleQuote
  else if Ascii.eqb c singleQuote then Some singleQuote
  else None.

(** The standard escape sequences (backslash followed by a backslash,
    [n], [t], or a quote) replaced by what they stand for; [None] on any
    other use of a backslash. *)
Fixpoint unescape (s : string) : option string :=
  match s with
  | "" => Some ""
  | String c s' =>
      if Ascii.eqb c backslash then
        match s' with
        | "" => None
        | String e s'' =>
            match escapeOf e, unescape s'' with
            | Some x, Some u => Some (String x u)
            | _, _ => None
            end
        end
      else
        match unescape s' with
        | Some u => Some (String c u)
        | None => None
        end
  end.

Section Inferrer.
(** Whether [regexp.Compile] accepts a pattern. *)
Variable regexpCompiles : string -> bool.

(** Modelled from the spec: [types.Inferrer.Infer] as configured by
    the command parser, [ComplexTypes(false).StrictStrings(false)]
    (package [types] is imported by [command.go]; its inferrer is
    described in prose only).  First match wins: a token enclosed in
    slashes is a regular expression (an error if it does not compile);
    [^-?\d+$] is an [Int]; the two float patterns give a [Float];
    [true] and [false] in any case give a [Bool]; a token wrapped in
    matching quotes with standard escapes is the string inside; any
    other token is a bare string.  An integer literal outside the
    signed 64-bit range is reported as an error. *)
Definition Infer (str : string) : Value * option error :=
  if enclosed "/" str then
    if regexpCompiles (inner str) then (RegexValue (inner str), None)
    else (NullValue, Some (Errorf "invalid regular expression"))
  else if isInt str then
    let z := intValue str in
    if ((- 2 ^ 63 <=? z) && (z <? 2 ^ 63))%Z then (IntValue z, None)
    else (NullValue, Some (Errorf "value out of range"))
  else if isFloat str then (FloatValue str, None)
  else if String.eqb (toLower str) "true" then (BoolValue true, None)
  else if String.eqb (toLower str) "false" then (BoolValue false, None)
  else if enclosed doubleQuote str || enclosed singleQuote str then
    match unescape (inner str) with
    | Some u => (StringValue u, None)
    | None => (StringValue str, None)
    end
  else (StringValue str, None).
End Inferrer.

(** Modelled from the spec: the string form [fmt.Sprintf("%v", v)] of a
    value produced by the command parser is the canonical text of the
    value: the content of a string, the decimal digits of an integer,
    the literal of a float, [true] or [false], a regular expression
    between slashes. *)
Definition String (v : Value) : string :=
  match v with
  | StringValue s => s
  | IntValue z => pretty z
  | FloatValue lit => lit
  | BoolValue b => if b then "true" else "false"
  | RegexValue src => "/" ++ src ++ "/"
  | ListValue _ => "[]"
  | MapValue _ => "{}"
  | NullValue => ""
  end.
End infer.

(* ===================================================================== *)
(** * Package [command] *)
(* ===================================================================== *)

Module command.
Import types.

Record CommandOption : Type := {
  CommandOption_Name : string;
  CommandOption_Value : Value
}.

Definition CommandParameters : Type := list Value.

(** [Options] is a [map[string]CommandOption]; the [nil] map and the nil
    slice of the zero [Command{}] are the empty map and the empty list. *)
Record Command : Type := {
  Command_Bundle : string;
  Command_Command : string;
  Command_Options : gmap string CommandOption;
  Command_Parameters : CommandParameters
}.

Definition Command_zero : Command :=
  {| Command_Bundle := ""; Command_Command := "";
     Command_Options := ∅; Command_Parameters := [] |}.

Record parseOptions : Type := {
  agnosticDashes : bool;
  assumeOptionArguments : bool;
  aliases : gmap string string;
  hasArg : gmap string bool
}.

Definition ParseOption : Type := parseOptions -> parseOptions.

Definition ParseAgnosticDashes (agnostic : bool) : ParseOption :=
  fun po =>
    {| agnosticDashes := agnostic;
       assumeOptionArguments := assumeOptionArguments po;
       aliases := aliases po; hasArg := hasArg po |}.

Definition ParseAssumeOptionArguments (assume : bool) : ParseOption :=
  fun po =>
    {| agnosticDashes := agnosticDashes po;
       assumeOptionArguments := assume;
       aliases := aliases po; hasArg := hasArg po |}.

Definition ParseOptionHasArgument (option : string) (has : bool) : ParseOption :=
  fun po =>
    {| agnosticDashes := agnosticDashes po;
       assumeOptionArguments := assumeOptionArguments po;
       aliases := aliases po; hasArg := <[option := has]> (hasArg po) |}.

Definition ParseOptionAlias (alias name : string) : ParseOption :=
  fun po =>
    {| agnosticDashes := agnosticDashes po;
       assumeOptionArguments := assumeOptionArguments po;
       aliases := <[alias := name]> (aliases po); hasArg := hasArg po |}.

(** [SplitCommand]: the switch on [len(split)]. *)
Definition SplitCommand (name : string) : string * string * option error :=
  match gostrings.Split name ":" with
  | [command] => ("", command, None)
  | [bundle; command] => (bundle, command, None)
  | _ => ("", "", Some ErrInvalidBundleCommandPair)
  end.

Definition buildOption (name : string) (po : parseOptions) : CommandOption :=
  let name := match aliases po !! name with Some n => n | None => name end in
  {| CommandOption_Name := name; CommandOption_Value := BoolValue true |}.

(** [dashCount]: the number of leading dashes. *)
Fixpoint dashCount (str : string) : nat :=
  match str with
  | String ch str' => if Ascii.eqb ch "-" then S (dashCount str') else 0
  | "" => 0
  end.

Definition setOption (o : CommandOption) (cmd : Command) : Command :=
  {| Command_Bundle := Command_Bundle cmd;
     Command_Command := Command_Command cmd;
     Command_Options := <[CommandOption_Name o := o]> (Command_Options cmd);
     Command_Parameters := Command_Parameters cmd |}.

Definition setParameters (ps : CommandParameters) (cmd : Command) : Command :=
  {| Command_Bundle := Command_Bundle cmd;
     Command_Command := Command_Command cmd;
     Command_Options := Command_Options cmd;
     Command_Parameters := ps |}.

Section Parse.
(** The inferrer [types.Inferrer{}.ComplexTypes(false).StrictStrings(false)]. *)
Variable Infer : string -> Value * option error.

(** Modelled from the spec: [Inferrer.InferAll] infers every token in
    turn ("positional parameter values are inferred"), and stops at the
    first error, which it returns with no values. *)
Fixpoint InferAll (strs : list string) : list Value * option error :=
  match strs with
  | [] => ([], None)
  | s :: strs' =>
      match Infer s with
      | (_, Some err) => ([], Some err)
      | (v, None) =>
          match InferAll strs' with
          | (_, Some err) => ([], Some err)
          | (vs, None) => (v :: vs, None)
          end
      end
  end.

(** The loop [for _, ch := range t[1:]] over short options: the state
    is the command and [lastOption]. *)
Fixpoint shortOptions (po : parseOptions) (chs : list string)
    (st : Command * option CommandOption) : Command * option CommandOption :=
  match chs with
  | [] => st
  | ch :: chs' =>
      let lastOption := buildOption ch po in
      shortOptions po chs' (setOption lastOption (fst st), Some lastOption)
  end.

(** The statements closing both parameter branches:
    [cmd.Parameters, err = infer.InferAll(...)], then return. *)
Definition parameters (cmd : Command) (strs : list string) : Command * option error :=
  (setParameters (fst (InferAll strs)) cmd, snd (InferAll strs)).

(** The loop [for i, t := range tokens] of [Parse], entered with the
    tokens from position [i] on: [t :: rest] is [tokens[i:]] and
    [rest] is [tokens[i+1:]]. *)
Fixpoint ParseLoop (po : parseOptions) (cmd : Command)
    (lastOption : option CommandOption) (tokens : list string)
    : Command * option error :=
  match tokens with
  | [] => (cmd, None)
  | t :: rest =>
      if String.eqb t "--" then parameters cmd rest
      else if (2 <=? String.length t)%nat && (dashCount t =? 2)%nat then
        let o := buildOption (gostrings.from 2 t) po in
        ParseLoop po (setOption o cmd) (Some o) rest
      else if (1 <=? String.length t)%nat && (dashCount t =? 1)%nat then
        if agnosticDashes po then
          let o := buildOption (gostrings.from 1 t) po in
          ParseLoop po (setOption o cmd) (Some o) rest
        else
          let '(cmd', lastOption') :=
            shortOptions po (gostrings.runes (gostrings.from 1 t)) (cmd, lastOption) in
          ParseLoop po cmd' lastOption' rest
      else
        match lastOption with
        | Some o =>
            let ok := bool_decide (is_Some (hasArg po !! CommandOption_Name o)) in
            let explicitHas := default false (hasArg po !! CommandOption_Name o) in
            let hasArgument :=
              (ok && explicitHas) || (negb ok && assumeOptionArguments po) in
            if hasArgument then
              match Infer t with
              | (_, Some err) => (cmd, Some err)
              | (term, None) =>
                  let o' := {| CommandOption_Name := CommandOption_Name o;
                               CommandOption_Value := term |} in
                  ParseLoop po (setOption o' cmd) None rest
              end
            else parameters cmd (t :: rest)
        | None => parameters cmd (t :: rest)
        end
  end.

Definition Parse (tokens : list string) (options : list ParseOption)
    : Command * option error :=
  let po := fold_left (fun po o => o po) options
              {| agnosticDashes := false; assumeOptionArguments := false;
                 aliases := ∅; hasArg := ∅ |} in
  match tokens with
  | [] => (Command_zero, Some (Errorf "empty tokens list"))
  | name :: tokens' =>
      match SplitCommand name with
      | (_, _, Some err) =>
          (Command_zero, Some (Errorf_w "command parse failure" err))
      | (bundleName, commandName, None) =>
          ParseLoop po
            {| Command_Bundle := bundleName; Command_Command := commandName;
               Command_Options := ∅; Command_Parameters := [] |}
            None tokens'
      end
  end.
End Parse.

Section String.
(** [fmt.Sprintf("%v", v)] *)
Variable format : Value -> string.

(** The loop [for i := 0; i < len(c); i++] of [CommandParameters.String],
    over the elements from position [i] on. *)
Fixpoint StringLoop (b : string) (c : list Value) : string :=
  match c with
  | [] => b
  | ci :: c' => StringLoop (b ++ " " ++ format ci) c'
  end.

Definition CommandParameters_String (c : CommandParameters) : string :=
  match c with
  | [] => ""
  | c0 :: _ => StringLoop (format c0) c
  end.
End String.

(** ** Tokenizer *)

Record tokenizer : Type := {
  tokens_rev : list string;      (* the tokens emitted, last first *)
  current : string;              (* the token being read, reversed *)
  quote : option ascii;          (* the quote that is open *)
  escaped : bool                 (* the previous byte was a backslash *)
}.

Definition emit (tk : tokenizer) : list string :=
  match current tk with
  | "" => tokens_rev tk
  | cur => String.rev cur :: tokens_rev tk
  end.

Definition tokenizeStep (tk : tokenizer) (ch : ascii) : tokenizer :=
  let keep q e := {| tokens_rev := tokens_rev tk;
                     current := String ch (current tk);
                     quote := q; escaped := e |} in
  if escaped tk then keep (quote tk) false
  else if Ascii.eqb ch infer.backslash then keep (quote tk) true
  else match quote tk with
       | Some q => if Ascii.eqb ch q then keep None false else keep (Some q) false
       | None =>
           if Ascii.eqb ch infer.doubleQuote || Ascii.eqb ch infer.singleQuote
           then keep (Some ch) false
           else if infer.isSpace ch
           then {| tokens_rev := emit tk; current := "";
                   quote := None; escaped := false |}
           else keep None false
       end.

(** Modelled from the spec: [Tokenize] (called by [TokenizeAndParse];
    defined in the tokenizer file of the package) splits on unescaped
    whitespace; quotes stay in the token, for the inferrer to strip; a
    backslash escapes the next byte inside or outside quotes and stays
    in the token with it; [--] is an ordinary token; a quote left open
    is the error [TokenizeUnterminatedQuote]. *)
Definition Tokenize (input : string) : list string * option error :=
  let tk := fold_left tokenizeStep (list_ascii_of_string input)
              {| tokens_rev := []; current := ""; quote := None; escaped := false |} in
  match quote tk with
  | Some _ => ([], Some TokenizeUnterminatedQuote)
  | None => (rev (emit tk), None)
  end.

(** *** The scenario [foo:bar -abc --flag=42 -- raw value] *)

Definition scenario1_line : string := "foo:bar -abc --flag=42 -- raw value".

Definition scenario1_tokens : list string :=
  ["foo:bar"; "-abc"; "--flag=42"; "--"; "raw"; "value"].

Definition flag (name : string) (v : Value) : CommandOption :=
  {| CommandOption_Name := name; CommandOption_Value := v |}.

(** The command the scenario names as its result. *)
Definition scenario1_stated : Command :=
  {| Command_Bundle := "foo"; Command_Command := "bar";
     Command_Options :=
       <["a" := flag "a" (BoolValue true)]>
       (<["b" := flag "b" (BoolValue true)]>
       (<["c" := flag "c" (BoolValue true)]>
       (<["flag" := flag "flag" (IntValue 42)]> ∅)));
     Command_Parameters := [StringValue "raw"; StringValue "value"] |}.

(** The command [Parse] returns. *)
Definition scenario1_parsed : Command :=
  {| Command_Bundle := "foo"; Command_Command := "bar";
     Command_Options :=
       <["a" := flag "a" (BoolValue true)]>
       (<["b" := flag "b" (BoolValue true)]>
       (<["c" := flag "c" (BoolValue true)]>
       (<["flag=42" := flag "flag=42" (BoolValue true)]> ∅)));
     Command_Parameters := [StringValue "raw"; StringValue "value"] |}.

(** Modelled from the spec: the canonical form of a command that has no
    options, used by the round trip: its [bundle:command] followed by
    the string form of its positional parameters.  (The package has no
    serializer of a whole [Command]; [CommandParameters.String] is the
    part of it that exists.) *)
Definition canonical (format : Value -> string) (cmd : Command) : string :=
  Command_Bundle cmd ++ ":" ++ Command_Command cmd ++ " "
  ++ CommandParameters_String format (Command_Parameters cmd).

Definition TokenizeAndParse (Infer : string -> Value * option error)
    (str : string) (options : list ParseOption) : Command * option error :=
  match Tokenize str with
  | (_, Some err) => (Command_zero, Some err)
  | (t, None) => Parse Infer t options
  end.

(** ** Reading a parsed command *)

(** The parse options [Parse] works with: the zero options changed by
    each [ParseOption] in turn. *)
Definition parseOptionsOf (options : list ParseOption) : parseOptions :=
  fold_left (fun po o => o po) options
    {| agnosticDashes := false; assumeOptionArguments := false;
       aliases := ∅; hasArg := ∅ |}.

(** The loop of [OptionsValues], [for _, o := range c.Options], when the
    map is traversed in the order [os]. *)
Definition OptionsValuesIn (os : list CommandOption) : gmap string Value :=
  fold_left (fun m o => <[CommandOption_Name o := CommandOption_Value o]> m) os ∅.

(** The orders in which a [range] may traverse a map: the enumerations of
    its entries. *)
Definition traversal (m : gmap string CommandOption) (os : list CommandOption) : Prop :=
  os ≡ₚ (map_to_list m).*2.

(** A token that [Parse] reads as one or several options. *)
Definition isOptionToken (t : string) : bool :=
  negb (String.eqb t "--") && ((dashCount t =? 1)%nat || (dashCount t =? 2)%nat).

(** The option tokens that open a token list. *)
Fixpoint leadingOptions (tokens : list string) : list string :=
  match tokens with
  | t :: tokens' => if isOptionToken t then t :: leadingOptions tokens' else []
  | [] => []
  end.

(** What follows them, without the [--] that may close the options. *)
Fixpoint afterOptions (tokens : list string) : list string :=
  match tokens with
  | t :: tokens' =>
      if isOptionToken t then afterOptions tokens'
      else if String.eqb t "--" then tokens' else t :: tokens'
  | [] => []
  end.

(** The option names an option token stands for, before aliases. *)
Definition optionNames (po : parseOptions) (t : string) : list string :=
  if (dashCount t =? 2)%nat then [gostrings.from 2 t]
  else if agnosticDashes po then [gostrings.from 1 t]
  else gostrings.runes (gostrings.from 1 t).

(** The options [Parse] builds for the option tokens that open [tokens]. *)
Definition optionsOf (po : parseOptions) (tokens : list string) : list CommandOption :=
  map (fun name => buildOption name po)
    (concat (map (optionNames po) (leadingOptions tokens))).

(** Every option sits in the map under its own name. *)
Definition keyed (m : gmap string CommandOption) : Prop :=
  forall k o, m !! k = Some o -> CommandOption_Name o = k.

End command.

(* ===================================================================== *)
(** * Go slices *)
(* ===================================================================== *)

Module goslice.

(** ** Slices

    A Go slice is a view [ptr, len, cap] of a backing array.  Copying a
    slice (assigning it, returning it, copying the struct that holds it)
    copies the view and shares the array.  Arrays live in a heap indexed
    by locations; the nil slice and the empty literal [[]T{}] have no
    array. *)

Definition loc : Type := positive.

Record slice : Type := {
  arr : option loc;
  len : nat;
  cap : nat
}.

Definition empty : slice := {| arr := None; len := 0; cap := 0 |}.

Section Slice.
Context {A : Type}.

(** The value of unused capacity. *)
Variable zero : A.

(** [runtime.growslice]: the capacity chosen when [needed] elements do not
    fit in [oldcap]. *)
Variable growslice : nat -> nat -> nat.

(** [sort.Slice(s, less)] for the [less] of the caller, as a function of
    the elements [s[0:len(s)]]. *)
Variable sortSlice : list A -> list A.

Definition array (h : gmap loc (list A)) (s : slice) : list A :=
  match arr s with
  | Some l => default [] (h !! l)
  | None => []
  end.

(** [s[0], ..., s[len(s)-1]] *)
Definition elements (h : gmap loc (list A)) (s : slice) : list A :=
  take (len s) (array h s).

(** [append(s, x)]: in place when there is room, else into a new array. *)
Definition append (h : gmap loc (list A)) (s : slice) (x : A)
    : gmap loc (list A) * slice :=
  match arr s with
  | Some l =>
      if (len s <? cap s)%nat then
        (<[l := <[len s := x]> (array h s)]> h,
         {| arr := Some l; len := S (len s); cap := cap s |})
      else
        let newcap := growslice (cap s) (S (len s)) in
        let l' := fresh (dom h) in
        (<[l' := elements h s ++ x :: replicate (newcap - S (len s)) zero]> h,
         {| arr := Some l'; len := S (len s); cap := newcap |})
  | None =>
      let newcap := growslice 0 1 in
      let l' := fresh (dom h) in
      (<[l' := x :: replicate (newcap - 1) zero]> h,
       {| arr := Some l'; len := 1; cap := newcap |})
  end.

(** [s[i] = x]; [None] is the index-out-of-range panic. *)
Definition store (h : gmap loc (list A)) (s : slice) (i : nat) (x : A)
    : option (gmap loc (list A)) :=
  match arr s with
  | Some l =>
      if (i <? len s)%nat then Some (<[l := <[i := x]> (array h s)]> h) else None
  | None => None
  end.

(** [sort.Slice(s, less)]: the elements are rearranged in the array. *)
Definition sort_Slice (h : gmap loc (list A)) (s : slice) : gmap loc (list A) :=
  match arr s with
  | Some l => <[l := sortSlice (elements h s) ++ drop (len s) (array h s)]> h
  | None => h
  end.

(** The slice is a view of an allocated array that is as long as its
    capacity. *)
Definition wf (h : gmap loc (list A)) (s : slice) : Prop :=
  match arr s with
  | Some l => exists a, h !! l = Some a /\ length a = cap s /\ len s <= cap s
  | None => len s = 0 /\ cap s = 0
  end.

End Slice.
End goslice.

(* ===================================================================== *)
(** * Package [rest]: the records of the store *)
(* ===================================================================== *)

Module rest.
Import goslice.

Record RolePermission : Type := {
  BundleName : string;
  Permission : string
}.

(** Modelled from the spec: [RolePermission.String] (package [rest]) is
    the fully-qualified ["bundle:permission"], the form the permission
    lists are sorted by. *)
Definition RolePermission_String (p : RolePermission) : string :=
  BundleName p ++ ":" ++ Permission p.

Definition RolePermission_zero : RolePermission :=
  {| BundleName := ""; Permission := "" |}.

(** [rest.Group], of which the role access reads the name only. *)
Record Group : Type := {
  Group_Name : string
}.

(** [rest.Role]: [Permissions] is a [[]RolePermission], [Groups] a
    [[]Group]. *)
Record Role : Type := {
  Role_Name : string;
  Role_Permissions : slice;
  Role_Groups : slice
}.

Definition Role_zero : Role :=
  {| Role_Name := ""; Role_Permissions := empty; Role_Groups := empty |}.

(** Times are instants in nanoseconds, durations are nanoseconds. *)
Record Token : Type := {
  Token_Duration : Z;
  Token_Token : string;
  Token_User : string;
  Token_ValidFrom : Z;
  Token_ValidUntil : Z
}.

Definition Token_zero : Token :=
  {| Token_Duration := 0; Token_Token := ""; Token_User := "";
     Token_ValidFrom := 0; Token_ValidUntil := 0 |}.

End rest.

(* ===================================================================== *)
(** * Package [memory]: roles *)
(* ===================================================================== *)

Module memory.
Import goslice rest.

(** The part of [InMemoryDataAccess] the role access works on: the map
    [roles] ([map[string]*rest.Role]) and the arrays behind the slices of
    the roles.  Every pointer of [roles] is created by [RoleCreate] and
    stored under one key, so the map holds the pointed-to records, and a
    key is present exactly when its pointer is not nil. *)
Record InMemoryDataAccess : Type := {
  roles : gmap string Role;
  permissionArrays : gmap loc (list RolePermission);
  groupArrays : gmap loc (list Group)
}.

Definition setRoles (rs : gmap string Role) (da : InMemoryDataAccess) : InMemoryDataAccess :=
  {| roles := rs; permissionArrays := permissionArrays da; groupArrays := groupArrays da |}.

Definition setPermissions (rolename : string) (role : Role) (s : slice)
    (h : gmap loc (list RolePermission)) (da : InMemoryDataAccess) : InMemoryDataAccess :=
  {| roles := <[rolename := {| Role_Name := Role_Name role;
                              Role_Permissions := s;
                              Role_Groups := Role_Groups role |}]> (roles da);
     permissionArrays := h;
     groupArrays := groupArrays da |}.

(** The permissions of a stored role, in their stored order. *)
Definition permissionsOf (da : InMemoryDataAccess) (rolename : string) : list RolePermission :=
  match roles da !! rolename with
  | Some role => elements (permissionArrays da) (Role_Permissions role)
  | None => []
  end.

(** [RoleCreate] *)
Definition RoleCreate (da : InMemoryDataAccess) (name : string)
    : InMemoryDataAccess * option error :=
  if String.eqb name "" then (da, Some ErrEmptyRoleName)
  else match roles da !! name with
       | Some _ => (da, Some ErrRoleExists)
       | None =>
           (setRoles (<[name := {| Role_Name := name;
                                   Role_Permissions := empty;
                                   Role_Groups := empty |}]> (roles da)) da,
            None)
       end.

(** [RoleDelete] *)
Definition RoleDelete (da : InMemoryDataAccess) (name : string)
    : InMemoryDataAccess * option error :=
  if String.eqb name "" then (da, Some ErrEmptyRoleName)
  else match roles da !! name with
       | None => (da, Some ErrNoSuchRole)
       | Some _ => (setRoles (delete name (roles da)) da, None)
       end.

(** [RoleExists] *)
Definition RoleExists (da : InMemoryDataAccess) (name : string) : bool * option error :=
  if String.eqb name "" then (false, Some ErrEmptyRoleName)
  else (bool_decide (is_Some (roles da !! name)), None).

(** [RoleGet]: the lookup comes first, then the test of the name. *)
Definition RoleGet (da : InMemoryDataAccess) (name : string) : Role * option error :=
  let role := roles da !! name in
  if String.eqb name "" then (Role_zero, Some ErrEmptyRoleName)
  else match role with
       | None => (Role_zero, Some ErrNoSuchRole)
       | Some role => (role, None)
       end.

Section Append.
Variable growslice : nat -> nat -> nat.

(** [RoleGrantPermission] *)
Definition RoleGrantPermission (da : InMemoryDataAccess)
    (rolename bundle permission : string) : InMemoryDataAccess * option error :=
  match roles da !! rolename with
  | None => (da, Some ErrNoSuchRole)
  | Some role =>
      let '(h, s) := append RolePermission_zero growslice
                       (permissionArrays da) (Role_Permissions role)
                       {| BundleName := bundle; Permission := permission |} in
      (setPermissions rolename role s h da, None)
  end.

(** The loop of [RoleRevokePermission] over [role.Permissions]: [perms]
    collects the permissions that are kept. *)
Fixpoint revokeLoop (bundle permission : string) (ps : list RolePermission)
    (st : gmap loc (list RolePermission) * slice)
    : gmap loc (list RolePermission) * slice :=
  match ps with
  | [] => st
  | p :: ps' =>
      if String.eqb (BundleName p) bundle && String.eqb (Permission p) permission
      then revokeLoop bundle permission ps' st
      else revokeLoop bundle permission ps'
             (append RolePermission_zero growslice (fst st) (snd st) p)
  end.

(** [RoleRevokePermission] *)
Definition RoleRevokePermission (da : InMemoryDataAccess)
    (rolename bundle permission : string) : InMemoryDataAccess * option error :=
  match roles da !! rolename with
  | None => (da, Some ErrNoSuchRole)
  | Some role =>
      let '(h, perms) :=
        revokeLoop bundle permission
          (elements (permissionArrays da) (Role_Permissions role))
          (permissionArrays da, empty) in
      (setPermissions rolename role perms h da, None)
  end.

(** [RolePermissionAdd] and [RolePermissionDelete] have the bodies of
    [RoleGrantPermission] and [RoleRevokePermission]. *)
Definition RolePermissionAdd := RoleGrantPermission.
Definition RolePermissionDelete := RoleRevokePermission.
End Append.

(** [RoleGroupList]: the slice [role.Groups] itself. *)
Definition RoleGroupList (da : InMemoryDataAccess) (rolename : string)
    : slice * option error :=
  match roles da !! rolename with
  | None => (empty, Some ErrNoSuchRole)
  | Some role => (Role_Groups role, None)
  end.

Section Sort.
(** [sort.Slice] with [less(i, j) := perms[i].String() < perms[j].String()]. *)
Variable sortSlice : list RolePermission -> list RolePermission.

(** [RolePermissionList]: [RoleGet] returns a copy of the role record,
    whose [Permissions] is a view of the stored array; [sort.Slice] sorts
    that array. *)
Definition RolePermissionList (da : InMemoryDataAccess) (rolename : string)
    : InMemoryDataAccess * (slice * option error) :=
  match RoleGet da rolename with
  | (_, Some err) => (da, (empty, Some err))
  | (role, None) =>
      let perms := Role_Permissions role in
      ({| roles := roles da;
          permissionArrays := sort_Slice sortSlice (permissionArrays da) perms;
          groupArrays := groupArrays da |},
       (perms, None))
  end.

(** The loop of [RolePermissionExists] over the listed permissions. *)
Fixpoint permissionIn (bundlename permission : string) (ps : list RolePermission) : bool :=
  match ps with
  | [] => false
  | p :: ps' =>
      if String.eqb (BundleName p) bundlename && String.eqb (Permission p) permission
      then true
      else permissionIn bundlename permission ps'
  end.

(** [RolePermissionExists] *)
Definition RolePermissionExists (da : InMemoryDataAccess)
    (rolename bundlename permission : string)
    : InMemoryDataAccess * (bool * option error) :=
  match RolePermissionList da rolename with
  | (da', (_, Some err)) => (da', (false, Some err))
  | (da', (perms, None)) =>
      (da', (permissionIn bundlename permission
               (elements (permissionArrays da') perms), None))
  end.
End Sort.

(** The order of [less]: no later element is strictly below an earlier
    one. *)
Definition byString (p q : RolePermission) : Prop :=
  String.ltb (RolePermission_String q) (RolePermission_String p) = false.

(** A sort to run the store with: the merge sort of the permissions by
    their string form. *)
Definition leString (p q : RolePermission) : Prop :=
  String.leb (RolePermission_String p) (RolePermission_String q) = true.

#[global] Instance leString_dec (p q : RolePermission) : Decision (leString p q) :=
  bool_eq_dec _ true.

Definition mergeSortByString (ps : list RolePermission) : list RolePermission :=
  merge_sort leString ps.

(** Capacities double, as for small slices. *)
Definition doubling (oldcap needed : nat) : nat := Nat.max needed (2 * oldcap).

Definition newStore : InMemoryDataAccess :=
  {| roles := ∅; permissionArrays := ∅; groupArrays := ∅ |}.

(** The store after creating the role [ops] and granting it [b:z], then
    [a:y]. *)
Definition opsStore : InMemoryDataAccess :=
  let da := fst (RoleCreate newStore "ops") in
  let da := fst (RoleGrantPermission doubling da "ops" "b" "z") in
  fst (RoleGrantPermission doubling da "ops" "a" "y").

(** ** Tokens *)

(** The package variables [tokensByUser] and [tokensByValue]. *)
Record tokenMaps : Type := {
  tokensByUser : gmap string Token;
  tokensByValue : gmap string Token
}.

(** [init] *)
Definition init : tokenMaps := {| tokensByUser := ∅; tokensByValue := ∅ |}.

(** [TokenRetrieveByUser] *)
Definition TokenRetrieveByUser (tm : tokenMaps) (username : string) : Token * option error :=
  match tokensByUser tm !! username with
  | Some token => (token, None)
  | None => (Token_zero, Some ErrNoSuchToken)
  end.

(** [TokenRetrieveByToken] *)
Definition TokenRetrieveByToken (tm : tokenMaps) (tokenString : string) : Token * option error :=
  match tokensByValue tm !! tokenString with
  | Some token => (token, None)
  | None => (Token_zero, Some ErrNoSuchToken)
  end.

(** [TokenInvalidate] *)
Definition TokenInvalidate (tm : tokenMaps) (tokenString : string) : tokenMaps * option error :=
  match TokenRetrieveByToken tm tokenString with
  | (_, Some err) => (tm, Some err)
  | (token, None) =>
      ({| tokensByUser := delete (Token_User token) (tokensByUser tm);
          tokensByValue := delete (Token_Token token) (tokensByValue tm) |}, None)
  end.

(** The token maps after each of the two writes of [TokenInvalidate], in
    order: [delete(tokensByUser, token.User)], then
    [delete(tokensByValue, token.Token)].  A call that returns the error
    writes nothing. *)
Definition TokenInvalidate_writes (tm : tokenMaps) (tokenString : string) : list tokenMaps :=
  match TokenRetrieveByToken tm tokenString with
  | (_, Some _) => []
  | (token, None) =>
      let tm1 := {| tokensByUser := delete (Token_User token) (tokensByUser tm);
                    tokensByValue := tokensByValue tm |} in
      [tm1;
       {| tokensByUser := tokensByUser tm1;
          tokensByValue := delete (Token_Token token) (tokensByValue tm1) |}]
  end.

Section Tokens.
(** [da.UserExists], which reads the users of the store and writes
    nothing. *)
Variable UserExists : string -> bool * option error.

(** [rest.Token.IsExpired] at the time of the call. *)
Variable IsExpired : Token -> bool.

(** [TokenEvaluate] *)
Definition TokenEvaluate (tm : tokenMaps) (tokenString : string) : bool :=
  match TokenRetrieveByToken tm tokenString with
  | (_, Some _) => false
  | (token, None) => negb (IsExpired token)
  end.

(** [TokenGenerate].  [random] is what [data.GenerateRandomToken(64)]
    returns in this call and [now] is [time.Now().UTC()]. *)
Definition TokenGenerate (tm : tokenMaps) (username : string) (duration : Z)
    (random : string * option error) (now : Z) : tokenMaps * (Token * option error) :=
  match UserExists username with
  | (_, Some err) => (tm, (Token_zero, Some err))
  | (false, None) => (tm, (Token_zero, Some ErrNoSuchUser))
  | (true, None) =>
      let tm1 :=
        match TokenRetrieveByUser tm username with
        | (token, None) => fst (TokenInvalidate tm (Token_Token token))
        | (_, Some _) => tm
        end in
      match random with
      | (_, Some err) => (tm1, (Token_zero, Some err))
      | (tokenString, None) =>
          let validFrom := now in
          let validUntil := (validFrom + duration)%Z in
          let token := {| Token_Duration := duration;
                          Token_Token := tokenString;
                          Token_User := username;
                          Token_ValidFrom := validFrom;
                          Token_ValidUntil := validUntil |} in
          ({| tokensByUser := <[username := token]> (tokensByUser tm1);
              tokensByValue := <[tokenString := token]> (tokensByValue tm1) |},
           (token, None))
      end
  end.

(** *** Sequences of [TokenGenerate] calls *)

Record call : Type := {
  call_username : string;
  call_duration : Z;
  call_random : string * option error;
  call_now : Z
}.

Definition generate (tm : tokenMaps) (c : call) : tokenMaps * (Token * option error) :=
  TokenGenerate tm (call_username c) (call_duration c) (call_random c) (call_now c).

(** The token maps after the calls [cs], started from [tm]. *)
Definition after (tm : tokenMaps) (cs : list call) : tokenMaps :=
  fold_left (fun tm c => fst (generate tm c)) cs tm.

(** The tokens returned by the calls [cs] that succeeded, in order. *)
Fixpoint issued (tm : tokenMaps) (cs : list call) : list Token :=
  match cs with
  | [] => []
  | c :: cs' =>
      match generate tm c with
      | (tm', (token, None)) => token :: issued tm' cs'
      | (tm', (_, Some _)) => issued tm' cs'
      end
  end.

(** The token maps after each write of one [TokenGenerate], in order: the
    writes of the [TokenInvalidate] it calls, then
    [tokensByUser[username] = token], then
    [tokensByValue[tokenString] = token]. *)
Definition TokenGenerate_writes (tm : tokenMaps) (username : string) (duration : Z)
    (random : string * option error) (now : Z) : list tokenMaps :=
  match UserExists username with
  | (true, None) =>
      let invalidated :=
        match TokenRetrieveByUser tm username with
        | (token, None) => TokenInvalidate_writes tm (Token_Token token)
        | (_, Some _) => []
        end in
      let tm1 :=
        match TokenRetrieveByUser tm username with
        | (token, None) => fst (TokenInvalidate tm (Token_Token token))
        | (_, Some _) => tm
        end in
      match random with
      | (_, Some _) => invalidated
      | (tokenString, None) =>
          let token := {| Token_Duration := duration;
                          Token_Token := tokenString;
                          Token_User := username;
                          Token_ValidFrom := now;
                          Token_ValidUntil := (now + duration)%Z |} in
          let tm2 := {| tokensByUser := <[username := token]> (tokensByUser tm1);
                        tokensByValue := tokensByValue tm1 |} in
          invalidated
          ++ [tm2;
              {| tokensByUser := tokensByUser tm2;
                 tokensByValue := <[tokenString := token]> (tokensByValue tm2) |}]
      end
  | _ => []
  end.

(** The token maps after each write of the calls [cs], run one after the
    other from [tm]. *)
Fixpoint writes (tm : tokenMaps) (cs : list call) : list tokenMaps :=
  match cs with
  | [] => []
  | c :: cs' =>
      TokenGenerate_writes tm (call_username c) (call_duration c) (call_random c) (call_now c)
      ++ writes (fst (generate tm c)) cs'
  end.

(** [TokenGenerate] in two parts, for a call that another call
    interrupts: the statements up to the invalidation of the user's
    former token, and the statements from [data.GenerateRandomToken]
    on. *)
Definition TokenGenerate_begin (tm : tokenMaps) (username : string)
    : tokenMaps * option error :=
  match UserExists username with
  | (_, Some err) => (tm, Some err)
  | (false, None) => (tm, Some ErrNoSuchUser)
  | (true, None) =>
      (match TokenRetrieveByUser tm username with
       | (token, None) => fst (TokenInvalidate tm (Token_Token token))
       | (_, Some _) => tm
       end, None)
  end.

Definition TokenGenerate_finish (tm1 : tokenMaps) (username : string) (duration : Z)
    (random : string * option error) (now : Z) : tokenMaps * (Token * option error) :=
  match random with
  | (_, Some err) => (tm1, (Token_zero, Some err))
  | (tokenString, None) =>
      let validFrom := now in
      let validUntil := (validFrom + duration)%Z in
      let token := {| Token_Duration := duration;
                      Token_Token := tokenString;
                      Token_User := username;
                      Token_ValidFrom := validFrom;
                      Token_ValidUntil := validUntil |} in
      ({| tokensByUser := <[username := token]> (tokensByUser tm1);
          tokensByValue := <[tokenString := token]> (tokensByValue tm1) |},
       (token, None))
  end.
End Tokens.

(** The token maps hold at most one token of [username]: two entries of
    [tokensByValue] for the user are the same entry, and an entry of
    [tokensByValue] for the user is the user's entry of [tokensByUser]. *)
Definition atMostOneToken (tm : tokenMaps) (username : string) : Prop :=
  (forall s1 s2 t1 t2,
     tokensByValue tm !! s1 = Some t1 -> tokensByValue tm !! s2 = Some t2 ->
     Token_User t1 = username -> Token_User t2 = username ->
     s1 = s2 /\ t1 = t2)
  /\ (forall s t t',
     tokensByValue tm !! s = Some t -> Token_User t = username ->
     tokensByUser tm !! username = Some t' ->
     t = t').

(** The two indexes describe the same tokens. *)
Definition consistent (tm : tokenMaps) : Prop :=
  (forall u t, tokensByUser tm !! u = Some t ->
     Token_User t = u /\ tokensByValue tm !! Token_Token t = Some t)
  /\ (forall s t, tokensByValue tm !! s = Some t ->
     Token_Token t = s /\ tokensByUser tm !! Token_User t = Some t).

(** Every token held by value is held under its own value and is its
    user's token. *)
Definition indexed (tm : tokenMaps) : Prop :=
  forall s t, tokensByValue tm !! s = Some t ->
    Token_Token t = s /\ tokensByUser tm !! Token_User t = Some t.

(** The test of the revoke and exists loops:
    [p.BundleName == bundle && p.Permission == permission]. *)
Definition isPermission (bundle permission : string) (p : RolePermission) : bool :=
  String.eqb (BundleName p) bundle && String.eqb (Permission p) permission.

(** *** Sequences of store operations *)

(** A call of the role access. *)
Inductive roleCall : Type :=
| CallRoleCreate (name : string)
| CallRoleDelete (name : string)
| CallRoleGrantPermission (rolename bundle permission : string)
| CallRoleRevokePermission (rolename bundle permission : string)
| CallRolePermissionList (rolename : string)
| CallRolePermissionExists (rolename bundle permission : string).

(** The store after a call. *)
Definition performed (growslice : nat -> nat -> nat)
    (sortSlice : list RolePermission -> list RolePermission)
    (da : InMemoryDataAccess) (c : roleCall) : InMemoryDataAccess :=
  match c with
  | CallRoleCreate name => fst (RoleCreate da name)
  | CallRoleDelete name => fst (RoleDelete da name)
  | CallRoleGrantPermission r b p => fst (RoleGrantPermission growslice da r b p)
  | CallRoleRevokePermission r b p => fst (RoleRevokePermission growslice da r b p)
  | CallRolePermissionList r => fst (RolePermissionList sortSlice da r)
  | CallRolePermissionExists r b p => fst (RolePermissionExists sortSlice da r b p)
  end.

(** The role a call names. *)
Definition subject (c : roleCall) : string :=
  match c with
  | CallRoleCreate name | CallRoleDelete name => name
  | CallRoleGrantPermission r _ _ | CallRoleRevokePermission r _ _
  | CallRolePermissionList r | CallRolePermissionExists r _ _ => r
  end.

(** What the role access keeps true of the store: no role has the empty
    name, every role is stored under its own name, the permissions of
    every role are a well-formed slice, and no two roles share a backing
    array. *)
Definition storeInv (da : InMemoryDataAccess) : Prop :=
  roles da !! "" = None
  /\ (forall name role, roles da !! name = Some role ->
        Role_Name role = name /\ wf (permissionArrays da) (Role_Permissions role))
  /\ (forall n1 n2 r1 r2 l,
        roles da !! n1 = Some r1 -> roles da !! n2 = Some r2 ->
        arr (Role_Permissions r1) = Some l -> arr (Role_Permissions r2) = Some l ->
        n1 = n2).

(** A call on the token maps: a [TokenGenerate] or a [TokenInvalidate]. *)
Inductive tokenCall : Type :=
| CallTokenGenerate (c : call)
| CallTokenInvalidate (tokenString : string).

Section TokenCalls.
Variable UserExists : string -> bool * option error.

Definition tokenPerformed (tm : tokenMaps) (c : tokenCall) : tokenMaps :=
  match c with
  | CallTokenGenerate c => fst (generate UserExists tm c)
  | CallTokenInvalidate s => fst (TokenInvalidate tm s)
  end.

(** The tokens the [TokenGenerate] calls among [cs] returned, in order. *)
Fixpoint tokensIssued (tm : tokenMaps) (cs : list tokenCall) : list Token :=
  match cs with
  | [] => []
  | c :: cs' =>
      match c with
      | CallTokenGenerate g =>
          match snd (generate UserExists tm g) with
          | (token, None) => token :: tokensIssued (tokenPerformed tm c) cs'
          | (_, Some _) => tokensIssued (tokenPerformed tm c) cs'
          end
      | CallTokenInvalidate _ => tokensIssued (tokenPerformed tm c) cs'
      end
  end.
End TokenCalls.

(** Token maps to run the calls on: every user exists, and [alice] has
    been given the token [T1]. *)
Definition everyUser : string -> bool * option error := fun _ => (true, None).

Definition aliceCall : call :=
  {| call_username := "alice"; call_duration := 3600;
     call_random := ("T1", None); call_now := 0 |}.

Definition aliceMaps : tokenMaps := after everyUser init [aliceCall].

(** A second call for [alice] in which the random source returns [T1]
    again. *)
Definition aliceAgain : call :=
  {| call_username := "alice"; call_duration := 3600;
     call_random := ("T1", None); call_now := 10 |}.

(** Every token held by value is one of [log]. *)
Definition heldIn (tm : tokenMaps) (log : list Token) : Prop :=
  forall s t, tokensByValue tm !! s = Some t -> t ∈ log.

End memory.

(* ===================================================================== *)
(** * Package [rules]: the rule parser *)
(* ===================================================================== *)

Module ruleparser.
Import types rules.

(** [RuleTokens], as [Parse] reads it: the command and the token lists of
    the conditions and of the permissions. *)
Record RuleTokens : Type := {
  RuleTokens_Command : string;
  RuleTokens_Conditions : list string;
  RuleTokens_Permissions : list string
}.

Definition isKeyword (s : string) : bool := String.eqb s "and" || String.eqb s "or".

(** The token that sets the join [j]. *)
Definition keyword (j : LogicalOperator) : string :=
  match j with
  | And => "and"
  | Or => "or"
  | Undefined => ""
  end.

(** The loop [for _, p := range rt.Permissions] of [Parse]: the state is
    [lastCondition] and [r.Permissions]. *)
Fixpoint permissionsLoop (lastCondition : LogicalOperator) (perms : list Permission)
    (ps : list string) : list Permission :=
  match ps with
  | [] => perms
  | p :: ps' =>
      if String.eqb p "and" then permissionsLoop And perms ps'
      else if String.eqb p "or" then permissionsLoop Or perms ps'
      else permissionsLoop lastCondition
             (perms ++ [{| Permission_Name := p; Permission_Condition := lastCondition |}])
             ps'
  end.

Section Parse.
(** The inferrer [types.Inferrer{}.ComplexTypes(true).StrictStrings(true)]. *)
Variable Infer : string -> Value * option error.

(** [reOperatorParts.FindStringSubmatch]: the submatches of the regular
    expression of conditions, [nil] when it does not match. *)
Variable FindStringSubmatch : string -> list string.

(** [ParseExpression].  Its only caller drops the other results when
    [err] is not nil, so the error stands alone here. *)
Definition ParseExpression (expr : string)
    : (string * string * Operator * CollectionOperationModifier) + error :=
  match FindStringSubmatch expr with
  | [_; modifier; a; op; b] =>
      let m := if String.eqb modifier "all" then CollAll
               else if String.eqb modifier "any" then CollAny
               else CollOne in
      if String.eqb op "==" then inl (a, b, Equals, m)
      else if String.eqb op "!=" then inl (a, b, NotEquals, m)
      else if String.eqb op "<" then inl (a, b, LessThan, m)
      else if String.eqb op "<=" then inl (a, b, LessThanOrEqualTo, m)
      else if String.eqb op ">" then inl (a, b, GreaterThan, m)
      else if String.eqb op ">=" then inl (a, b, GreaterThanOrEqualTo, m)
      else if String.eqb op "in" then inl (a, b, In, m)
      else inr (Errorf ("unsupported operator: " ++ op))
  | _ => inr (Errorf "expression doesn't conform to form A OP B")
  end.

(** The loop [for _, c := range rt.Conditions] of [Parse]: the state is
    [lastCondition] and [r.Conditions]; an error ends it. *)
Fixpoint conditionsLoop (lastCondition : LogicalOperator) (conds : list Expression)
    (cs : list string) : list Expression * option error :=
  match cs with
  | [] => (conds, None)
  | c :: cs' =>
      if String.eqb c "and" then conditionsLoop And conds cs'
      else if String.eqb c "or" then conditionsLoop Or conds cs'
      else
        match ParseExpression c with
        | inr err => (conds, Some (Errorf_w "can't parse condition" err))
        | inl (a, b, o, m) =>
            match Infer a with
            | (_, Some err) => (conds, Some (Errorf_w "can't infer value" err))
            | (va, None) =>
                match Infer b with
                | (_, Some err) => (conds, Some (Errorf_w "can't infer value" err))
                | (vb, None) =>
                    conditionsLoop lastCondition
                      (conds ++ [{| Expression_A := va; Expression_B := vb;
                                    Expression_Operator := o; Expression_Modifier := m;
                                    Expression_Condition := lastCondition |}])
                      cs'
                end
            end
        end
  end.

(** [Parse] *)
Definition Parse (rt : RuleTokens) : Rule * option error :=
  let perms := permissionsLoop Undefined [] (RuleTokens_Permissions rt) in
  let '(conds, err) := conditionsLoop Undefined [] (RuleTokens_Conditions rt) in
  ({| Rule_Command := RuleTokens_Command rt;
      Rule_Conditions := conds;
      Rule_Permissions := perms |}, err).

(** A condition token that [Parse] accepts: a keyword, or an expression
    that conforms and whose operands are inferred. *)
Definition accepted (c : string) : Prop :=
  isKeyword c = true
  \/ exists a b o m,
       ParseExpression c = inl (a, b, o, m)
       /\ snd (Infer a) = None /\ snd (Infer b) = None.
End Parse.

(** The permissions written as names and groups of names, each group
    behind its keyword. *)
Definition grouped (names : list string) (groups : list (LogicalOperator * list string))
    : list string :=
  names ++ concat (map (fun g => keyword (fst g) :: snd g) groups).

Definition requiredBy (names : list string) (groups : list (LogicalOperator * list string))
    : list Permission :=
  map (requires Undefined) names
  ++ concat (map (fun g => map (requires (fst g)) (snd g)) groups).

End ruleparser.

(* ===================================================================== *)
(** * Properties *)
(* ===================================================================== *)

(** ** Rules: the join loop *)

Section JoinLoopFacts.
Import rules.
Context {T : Type}.
Variable cond : T -> LogicalOperator.
Variable val : T -> bool.

Lemma joinLoop_value (xs : list T) : forall result i log,
  fst (joinLoop cond val result i xs log) = fold_left (joinStep cond val) xs result.
Proof.
  induction xs as [|x xs IH]; intros result i log; [reflexivity|].
  cbn [joinLoop fold_left]. unfold joinStep at 2.
  destruct (cond x); cbn [join].
  - apply IH.
  - destruct result; cbn; rewrite IH; reflexivity.
  - destruct result; cbn; rewrite IH; reflexivity.
Qed.

Lemma joinLoop_log (xs : list T) : forall result i log,
  snd (joinLoop cond val result i xs log)
  = log ++ snd (joinLoop cond val result i xs []).
Proof.
  induction xs as [|x xs IH]; intros result i log.
  - cbn. by rewrite app_nil_r.
  - cbn [joinLoop]. destruct (cond x).
    + apply IH.
    + destruct result; cbn.
      * rewrite (IH _ _ (log ++ [i])), (IH _ _ [i]). by rewrite app_assoc.
      * apply IH.
    + destruct result; cbn.
      * apply IH.
      * rewrite (IH _ _ (log ++ [i])), (IH _ _ [i]). by rewrite app_assoc.
Qed.

Lemma joinLoop_calls_range (xs : list T) : forall result i j,
  j ∈ snd (joinLoop cond val result i xs []) -> i <= j < i + length xs.
Proof.
  induction xs as [|x xs IH]; intros result i j.
  - cbn. intros H. by apply elem_of_nil in H.
  - cbn [joinLoop length]. destruct (cond x).
    + intros H. apply IH in H. lia.
    + destruct result; cbn.
      * rewrite joinLoop_log. intros [H|H]%elem_of_app.
        -- apply list_elem_of_singleton in H. lia.
        -- apply IH in H. lia.
      * intros H. apply IH in H. lia.
    + destruct result; cbn.
      * intros H. apply IH in H. lia.
      * rewrite joinLoop_log. intros [H|H]%elem_of_app.
        -- apply list_elem_of_singleton in H. lia.
        -- apply IH in H. lia.
Qed.

Lemma joinLoop_app (pre post : list T) : forall result i log,
  joinLoop cond val result i (pre ++ post) log
  = joinLoop cond val (fst (joinLoop cond val result i pre log))
      (i + length pre) post (snd (joinLoop cond val result i pre log)).
Proof.
  induction pre as [|x pre IH]; intros result i log.
  - cbn. by rewrite Nat.add_0_r.
  - cbn [app joinLoop length]. replace (i + S (length pre)) with (S i + length pre) by lia.
    destruct (cond x).
    + apply IH.
    + destruct result; cbn; apply IH.
    + destruct result; cbn; apply IH.
Qed.
End JoinLoopFacts.

Section JoinAllFacts.
Import rules.
Context {T : Type}.
Variable cond : T -> LogicalOperator.
Variable val : T -> bool.

Lemma joinAll_value (xs : list T) :
  value_of (joinAll cond val xs)
  = match xs with
    | [] => true
    | x0 :: xs' => fold_left (joinStep cond val) xs' (val x0)
    end.
Proof.
  destruct xs as [|x0 xs]; [reflexivity|].
  unfold value_of, joinAll, bind, call. cbn. apply joinLoop_value.
Qed.

Lemma joinLoop_skip (acc : bool) (i : nat) (c : T) (post : list T) (log : list nat) :
  skips cond acc c = true ->
  joinLoop cond val acc i (c :: post) log = joinLoop cond val acc (S i) post log.
Proof.
  unfold skips. cbn [joinLoop]. destruct (cond c), acc; cbn; congruence.
Qed.

(** A skipped element is not called, and the value of the whole sequence
    is the fold of what follows it from the accumulator reached before
    it. *)
Lemma joinAll_skip (x0 : T) (pre : list T) (c : T) (post : list T) :
  skips cond (value_of (joinAll cond val (x0 :: pre))) c = true ->
  (S (length pre) ∉ calls_of (joinAll cond val (x0 :: pre ++ c :: post)))
  /\ value_of (joinAll cond val (x0 :: pre ++ c :: post))
     = fold_left (joinStep cond val) post (value_of (joinAll cond val (x0 :: pre))).
Proof.
  unfold value_of, calls_of, joinAll, bind, call. cbn [app fst snd].
  intros Hskip. rewrite joinLoop_app.
  set (acc := fst (joinLoop cond val (val x0) 1 pre [0])) in *.
  set (log1 := snd (joinLoop cond val (val x0) 1 pre [0])).
  rewrite (joinLoop_skip _ _ _ _ _ Hskip). split.
  - rewrite joinLoop_log. subst log1. rewrite joinLoop_log.
    intros [[H|H]%elem_of_app|H]%elem_of_app.
    + apply list_elem_of_singleton in H. lia.
    + apply joinLoop_calls_range in H. lia.
    + apply joinLoop_calls_range in H. lia.
  - apply joinLoop_value.
Qed.
End JoinAllFacts.

Section RuleFacts.
Import rules.
Variable EvaluationEnvironment : Type.
Variable Evaluate : Expression -> EvaluationEnvironment -> bool.
Variable env : EvaluationEnvironment.
Variable permissions : list string.

Lemma MatchesLoop_joinLoop (cs : list Expression) : forall result i log,
  MatchesLoop _ Evaluate env result i cs log
  = joinLoop Expression_Condition (fun c => Evaluate c env) result i cs log.
Proof.
  induction cs as [|c cs IH]; intros result i log; [reflexivity|].
  cbn. destruct (Expression_Condition c); [apply IH| |];
    destruct result; cbn; unfold bind; cbn; apply IH.
Qed.

Lemma AllowedLoop_joinLoop (ps : list Permission) : forall result i log,
  AllowedLoop permissions result i ps log
  = joinLoop Permission_Condition (fun p => hasPermission p permissions) result i ps log.
Proof.
  induction ps as [|p ps IH]; intros result i log; [reflexivity|].
  cbn. destruct (Permission_Condition p); [apply IH| |];
    destruct result; cbn; unfold bind; cbn; apply IH.
Qed.

Lemma MatchesM_joinAll (r : Rule) (log : list nat) :
  MatchesM _ Evaluate env r log
  = joinAll Expression_Condition (fun c => Evaluate c env) (Rule_Conditions r) log.
Proof.
  unfold MatchesM, joinAll. destruct (Rule_Conditions r); [reflexivity|].
  unfold bind, call. apply MatchesLoop_joinLoop.
Qed.

Lemma AllowedM_joinAll (r : Rule) (log : list nat) :
  AllowedM permissions r log
  = joinAll Permission_Condition (fun p => hasPermission p permissions)
      (Rule_Permissions r) log.
Proof.
  unfold AllowedM, joinAll. destruct (Rule_Permissions r); [reflexivity|].
  unfold bind, call. apply AllowedLoop_joinLoop.
Qed.

Lemma Matches_joinAll (r : Rule) :
  Matches _ Evaluate env r
  = value_of (joinAll Expression_Condition (fun c => Evaluate c env) (Rule_Conditions r)).
Proof. unfold Matches, value_of. by rewrite MatchesM_joinAll. Qed.

Lemma Allowed_joinAll (r : Rule) :
  Allowed permissions r
  = value_of (joinAll Permission_Condition (fun p => hasPermission p permissions)
                (Rule_Permissions r)).
Proof. unfold Allowed, value_of. by rewrite AllowedM_joinAll. Qed.

Lemma Matches_calls (r : Rule) :
  calls_of (MatchesM _ Evaluate env r)
  = calls_of (joinAll Expression_Condition (fun c => Evaluate c env) (Rule_Conditions r)).
Proof. unfold calls_of. by rewrite MatchesM_joinAll. Qed.

Lemma Allowed_calls (r : Rule) :
  calls_of (AllowedM permissions r)
  = calls_of (joinAll Permission_Condition (fun p => hasPermission p permissions)
                (Rule_Permissions r)).
Proof. unfold calls_of. by rewrite AllowedM_joinAll. Qed.

(** C7.  [Rule.Matches] is the strict left fold of the conditions, joined
    by [and]/[or] without precedence, from the value of the first one;
    [Rule.Allowed] is the same fold over the permissions.  Hence
    [x and y or z] is [((x and y) or z)] and [x or y and z] is
    [((x or y) and z)]; an empty sequence yields true. *)
Theorem Matches_Allowed_left_fold :
  (forall r : Rule,
     Matches _ Evaluate env r
     = match Rule_Conditions r with
       | [] => true
       | c0 :: cs =>
           fold_left (fun acc c => join acc (Expression_Condition c) (Evaluate c env))
             cs (Evaluate c0 env)
       end)
  /\ (forall r : Rule,
     Allowed permissions r
     = match Rule_Permissions r with
       | [] => true
       | p0 :: ps =>
           fold_left
             (fun acc p => join acc (Permission_Condition p) (hasPermission p permissions))
             ps (hasPermission p0 permissions)
       end)
  /\ (forall x y z : Expression,
     Matches _ Evaluate env (when [x; joined And y; joined Or z])
     = (Evaluate x env && Evaluate (joined And y) env) || Evaluate (joined Or z) env)
  /\ (forall x y z : Expression,
     Matches _ Evaluate env (when [x; joined Or y; joined And z])
     = (Evaluate x env || Evaluate (joined Or y) env) && Evaluate (joined And z) env)
  /\ (forall x : Permission, forall y z : string,
     Allowed permissions (must_have [x; requires And y; requires Or z])
     = (hasPermission x permissions && hasPermission (requires And y) permissions)
       || hasPermission (requires Or z) permissions)
  /\ (forall x : Permission, forall y z : string,
     Allowed permissions (must_have [x; requires Or y; requires And z])
     = (hasPermission x permissions || hasPermission (requires Or y) permissions)
       && hasPermission (requires And z) permissions)
  /\ Matches _ Evaluate env (when []) = true
  /\ Allowed permissions (must_have []) = true.
Proof.
  assert (HM : forall r : Rule,
     Matches _ Evaluate env r
     = match Rule_Conditions r with
       | [] => true
       | c0 :: cs =>
           fold_left (fun acc c => join acc (Expression_Condition c) (Evaluate c env))
             cs (Evaluate c0 env)
       end).
  { intros r. rewrite Matches_joinAll, joinAll_value. reflexivity. }
  assert (HA : forall r : Rule,
     Allowed permissions r
     = match Rule_Permissions r with
       | [] => true
       | p0 :: ps =>
           fold_left
             (fun acc p => join acc (Permission_Condition p) (hasPermission p permissions))
             ps (hasPermission p0 permissions)
       end).
  { intros r. rewrite Allowed_joinAll, joinAll_value. reflexivity. }
  repeat split; try assumption; intros; rewrite ?HM, ?HA; reflexivity.
Qed.
(** C8.  Short-circuit in [Rule.Matches]: a condition joined by [and] is
    not called when the accumulator before it is false, and a condition
    joined by [or] is not called when the accumulator before it is true
    (its position is absent from the log of [Evaluate] calls).  The result
    is then the fold of the following conditions from that accumulator,
    so it is the same for whatever expression stands at that position. *)
Theorem Matches_short_circuit
    (r : Rule) (c0 : Expression) (pre : list Expression)
    (c : Expression) (post : list Expression) :
  let step := fun acc x => join acc (Expression_Condition x) (Evaluate x env) in
  let acc := fold_left step pre (Evaluate c0 env) in
  Rule_Conditions r = c0 :: pre ++ c :: post ->
  (Expression_Condition c = And /\ acc = false)
  \/ (Expression_Condition c = Or /\ acc = true) ->
  (S (length pre) ∉ calls_of (MatchesM _ Evaluate env r))
  /\ Matches _ Evaluate env r = fold_left step post acc
  /\ (forall c' : Expression,
        Expression_Condition c' = Expression_Condition c ->
        Matches _ Evaluate env (when (c0 :: pre ++ c' :: post))
        = Matches _ Evaluate env r).
Proof.
  intros step acc Hr Hc.
  pose (val := fun x => Evaluate x env).
  assert (Hacc : value_of (joinAll Expression_Condition val (c0 :: pre)) = acc).
  { rewrite joinAll_value. reflexivity. }
  assert (Hskip : forall c', Expression_Condition c' = Expression_Condition c ->
            skips Expression_Condition
              (value_of (joinAll Expression_Condition val (c0 :: pre))) c' = true).
  { intros c' Hc'. rewrite Hacc. unfold skips. rewrite Hc'.
    destruct Hc as [[-> ->]|[-> ->]]; reflexivity. }
  destruct (joinAll_skip Expression_Condition val c0 pre c post (Hskip c eq_refl))
    as [Hcalls Hval].
  rewrite Matches_calls, Matches_joinAll, Hr. fold val.
  split; [exact Hcalls|]. split.
  - rewrite Hval, Hacc. reflexivity.
  - intros c' Hc'. rewrite Matches_joinAll. cbn [when Rule_Conditions]. fold val.
    destruct (joinAll_skip Expression_Condition val c0 pre c' post (Hskip c' Hc'))
      as [_ Hval'].
    rewrite Hval, Hval'. reflexivity.
Qed.

(** C10.  In [Rule.Matches] and in [Rule.Allowed], an element after the
    first whose join is [Undefined] is skipped: it is not called, the
    accumulator passes it unchanged, and the decision is the one of the
    rule without that element. *)
Theorem Undefined_join_is_skipped
    (r : Rule)
    (c0 : Expression) (cpre : list Expression) (c : Expression) (cpost : list Expression)
    (p0 : Permission) (ppre : list Permission) (p : Permission) (ppost : list Permission) :
  let cstep := fun acc x => join acc (Expression_Condition x) (Evaluate x env) in
  let pstep := fun acc x => join acc (Permission_Condition x) (hasPermission x permissions) in
  Rule_Conditions r = c0 :: cpre ++ c :: cpost ->
  Expression_Condition c = Undefined ->
  Rule_Permissions r = p0 :: ppre ++ p :: ppost ->
  Permission_Condition p = Undefined ->
  ((S (length cpre) ∉ calls_of (MatchesM _ Evaluate env r))
   /\ Matches _ Evaluate env r
      = fold_left cstep cpost (fold_left cstep cpre (Evaluate c0 env))
   /\ Matches _ Evaluate env r = Matches _ Evaluate env (when (c0 :: cpre ++ cpost)))
  /\ ((S (length ppre) ∉ calls_of (AllowedM permissions r))
   /\ Allowed permissions r
      = fold_left pstep ppost (fold_left pstep ppre (hasPermission p0 permissions))
   /\ Allowed permissions r = Allowed permissions (must_have (p0 :: ppre ++ ppost))).
Proof.
  intros cstep pstep Hcs Hc Hps Hp. split.
  - pose (val := fun x => Evaluate x env).
    assert (Hskip : skips Expression_Condition
              (value_of (joinAll Expression_Condition val (c0 :: cpre))) c = true).
    { unfold skips. by rewrite Hc. }
    destruct (joinAll_skip Expression_Condition val c0 cpre c cpost Hskip)
      as [Hcalls Hval].
    rewrite Matches_calls, !Matches_joinAll, Hcs. fold val.
    split; [exact Hcalls|].
    rewrite Hval, !joinAll_value. cbn [when Rule_Conditions].
    rewrite fold_left_app. split; reflexivity.
  - pose (val := fun x => hasPermission x permissions).
    assert (Hskip : skips Permission_Condition
              (value_of (joinAll Permission_Condition val (p0 :: ppre))) p = true).
    { unfold skips. by rewrite Hp. }
    destruct (joinAll_skip Permission_Condition val p0 ppre p ppost Hskip)
      as [Hcalls Hval].
    rewrite Allowed_calls, !Allowed_joinAll, Hps. fold val.
    split; [exact Hcalls|].
    rewrite Hval, !joinAll_value. cbn [must_have Rule_Permissions].
    rewrite fold_left_app. split; reflexivity.
Qed.
End RuleFacts.

Lemma Matches_short_circuit_witness :
  let r := rules.when [rules.literally false; rules.joined rules.And rules.arg99_is_1] in
  (1 ∉ rules.calls_of (rules.MatchesM unit rules.literalEvaluate tt r))
  /\ rules.Matches unit rules.literalEvaluate tt r = false.
Proof.
  intros r.
  destruct (Matches_short_circuit unit rules.literalEvaluate tt r
              (rules.literally false) [] (rules.joined rules.And rules.arg99_is_1) []
              eq_refl (or_introl (conj eq_refl eq_refl)))
    as (Hcalls & Hval & _).
  split; [exact Hcalls | exact Hval].
Defined.

Lemma Undefined_join_is_skipped_witness :
  let r := {| rules.Rule_Command := "foo:bar";
              rules.Rule_Conditions := [rules.literally true; rules.literally false];
              rules.Rule_Permissions :=
                [rules.requires rules.Undefined "foo:admin";
                 rules.requires rules.Undefined "foo:root"] |} in
  ((1 ∉ rules.calls_of (rules.MatchesM unit rules.literalEvaluate tt r))
   /\ rules.Matches unit rules.literalEvaluate tt r = true)
  /\ ((1 ∉ rules.calls_of (rules.AllowedM ["foo:admin"] r))
   /\ rules.Allowed ["foo:admin"] r = true).
Proof.
  intros r.
  destruct (Undefined_join_is_skipped unit rules.literalEvaluate tt ["foo:admin"] r
              (rules.literally true) [] (rules.literally false) []
              (rules.requires rules.Undefined "foo:admin") []
              (rules.requires rules.Undefined "foo:root") []
              eq_refl eq_refl eq_refl eq_refl)
    as ((Hc & Hm & _) & (Hp & Ha & _)).
  split; split; assumption.
Defined.

(** ** Command parsing *)

Section SplitFacts.
Import gostrings.
Variable sep : ascii.

Lemma Split_not_nil (s : string) : Split s sep <> [].
Proof.
  destruct s as [|ch s]; cbn; [discriminate|].
  destruct (Ascii.eqb ch sep); [discriminate|].
  destruct (Split s sep); discriminate.
Qed.

Lemma Join_Split (s : string) : Join (Split s sep) sep = s.
Proof.
  induction s as [|ch s IH]; [reflexivity|].
  cbn [Split]. pose proof (Split_not_nil s) as Hne.
  destruct (Split s sep) as [|p ps]; [done|].
  destruct (Ascii.eqb ch sep) eqn:E.
  - apply Ascii.eqb_eq in E. subst ch.
    change (Join ("" :: p :: ps) sep) with (String sep (Join (p :: ps) sep)).
    by rewrite IH.
  - destruct ps as [|q ps].
    + cbn in *. by rewrite IH.
    + change (Join (String ch p :: q :: ps) sep)
        with (String ch (Join (p :: q :: ps) sep)).
      by rewrite IH.
Qed.

Lemma Split_pieces (s : string) :
  Forall (fun piece => Contains piece sep = false) (Split s sep).
Proof.
  induction s as [|ch s IH]; cbn [Split].
  - by repeat constructor.
  - destruct (Ascii.eqb ch sep) eqn:E.
    + constructor; [reflexivity | exact IH].
    + destruct (Split s sep) as [|p ps].
      * repeat constructor. cbn. by rewrite E.
      * inversion IH; subst. constructor; [|assumption].
        cbn. rewrite E. assumption.
Qed.

Lemma Contains_app (s1 s2 : string) :
  Contains (s1 ++ s2) sep = Contains s1 sep || Contains s2 sep.
Proof.
  induction s1 as [|ch s1 IH]; [reflexivity|].
  simpl. rewrite IH. by rewrite orb_assoc.
Qed.

Lemma Contains_sep_r (s1 s2 : string) : Contains (s1 ++ String sep s2) sep = true.
Proof.
  rewrite Contains_app. cbn. rewrite Ascii.eqb_refl. by rewrite orb_true_r.
Qed.
End SplitFacts.

Section ParseFacts.
Import command.
Variable Infer : string -> types.Value * option error.

Lemma SplitCommand_ok (name bundle cmd : string) :
  SplitCommand name = (bundle, cmd, None) ->
  gostrings.Contains bundle ":" = false
  /\ gostrings.Contains cmd ":" = false
  /\ ((bundle = "" /\ name = cmd) \/ name = (bundle ++ ":" ++ cmd)%string).
Proof.
  unfold SplitCommand.
  pose proof (Join_Split ":" name) as HJ.
  pose proof (Split_pieces ":" name) as HP.
  destruct (gostrings.Split name ":") as [|a [|b [|c l]]];
    intros [= <- <-] || intros [=].
  - apply Forall_cons in HP as [Ha _]. cbn in HJ. auto.
  - apply Forall_cons in HP as [Ha [Hb _]%Forall_cons]. cbn in HJ. auto.
Qed.

Lemma shortOptions_fields (po : parseOptions) (chs : list string) :
  forall st,
    Command_Bundle (fst (shortOptions po chs st)) = Command_Bundle (fst st)
    /\ Command_Command (fst (shortOptions po chs st)) = Command_Command (fst st).
Proof.
  induction chs as [|ch chs IH]; intros st; [done|].
  cbn [shortOptions]. destruct (IH (setOption (buildOption ch po) (fst st),
                                    Some (buildOption ch po))) as [-> ->]. done.
Qed.

(** The option loop never writes the [Bundle] and [Command] fields. *)
Lemma ParseLoop_fields (po : parseOptions) (tokens : list string) :
  forall cmd lastOption,
    Command_Bundle (fst (ParseLoop Infer po cmd lastOption tokens)) = Command_Bundle cmd
    /\ Command_Command (fst (ParseLoop Infer po cmd lastOption tokens))
       = Command_Command cmd.
Proof.
  induction tokens as [|t rest IH]; intros cmd lastOption; [done|].
  cbn [ParseLoop].
  destruct (String.eqb t "--"); [done|].
  destruct ((2 <=? String.length t)%nat && (dashCount t =? 2)%nat).
  { destruct (IH (setOption (buildOption (gostrings.from 2 t) po) cmd)
                (Some (buildOption (gostrings.from 2 t) po))) as [-> ->]. done. }
  destruct ((1 <=? String.length t)%nat && (dashCount t =? 1)%nat).
  { destruct (agnosticDashes po).
    - destruct (IH (setOption (buildOption (gostrings.from 1 t) po) cmd)
                  (Some (buildOption (gostrings.from 1 t) po))) as [-> ->]. done.
    - pose proof (shortOptions_fields po (gostrings.runes (gostrings.from 1 t))
                    (cmd, lastOption)) as [Hb Hc].
      destruct (shortOptions po (gostrings.runes (gostrings.from 1 t)) (cmd, lastOption))
        as [cmd' lastOption'].
      destruct (IH cmd' lastOption') as [-> ->]. done. }
  destruct lastOption as [o|]; [|done].
  match goal with |- context [if ?b then _ else _] => destruct b end; [|done].
  destruct (Infer t) as [term [err|]]; [done|].
  match goal with |- context [ParseLoop Infer po ?c None rest] =>
    destruct (IH c None) as [-> ->] end.
  done.
Qed.

Lemma append_nil_inv (s1 s2 : string) : (s1 ++ s2)%string = "" -> s1 = "" /\ s2 = "".
Proof. destruct s1; [done|discriminate]. Qed.

Lemma append_inv_head (s s1 s2 : string) : (s ++ s1 = s ++ s2)%string -> s1 = s2.
Proof. induction s as [|c s IH]; simpl; [done|]. intros [= H]. by apply IH. Qed.

(** C5, as the code has it.  When [Parse] succeeds, the first token is
    the command itself (and the bundle is empty) or is
    [bundle ++ ":" ++ command], neither part containing a colon; the
    command field is empty exactly when the first token is empty or is
    the bundle followed by a single colon.  The bundle may be empty. *)
Theorem Parse_command_field
    (tokens : list string) (options : list ParseOption) (cmd : Command) :
  Parse Infer tokens options = (cmd, None) ->
  exists name rest,
    tokens = name :: rest
    /\ gostrings.Contains (Command_Bundle cmd) ":" = false
    /\ gostrings.Contains (Command_Command cmd) ":" = false
    /\ ((Command_Bundle cmd = "" /\ name = Command_Command cmd)
        \/ name = (Command_Bundle cmd ++ ":" ++ Command_Command cmd)%string)
    /\ (Command_Command cmd = "" <-> name = "" \/ name = (Command_Bundle cmd ++ ":")%string).
Proof.
  unfold Parse. destruct tokens as [|name rest]; [discriminate|].
  destruct (SplitCommand name) as [[bundle cmdname] [err|]] eqn:Hsplit; [discriminate|].
  intros HP. exists name, rest. split; [reflexivity|].
  match type of HP with ParseLoop Infer ?po ?c None rest = _ =>
    destruct (ParseLoop_fields po rest c None) as [Hb Hc] end.
  rewrite HP in Hb, Hc. cbn in Hb, Hc. rewrite Hb, Hc.
  destruct (SplitCommand_ok _ _ _ Hsplit) as (Hcb & Hcc & Hname).
  repeat split; try assumption.
  - intros ->. destruct Hname as [[_ ->]| ->]; auto.
  - intros [->| ->].
    + destruct Hname as [[_ <-]|H]; [done|].
      symmetry in H. apply append_nil_inv in H as [_ H]. discriminate.
    + destruct Hname as [[-> H]|H].
      * rewrite <- H in Hcc. cbn in Hcc. discriminate.
      * apply append_inv_head in H. simpl in H. by injection H.
Qed.
End ParseFacts.

Lemma Parse_command_field_witness :
  exists name rest,
    ["foo:bar"; "raw"] = name :: rest
    /\ gostrings.Contains "foo" ":" = false
    /\ gostrings.Contains "bar" ":" = false
    /\ (("foo" = "" /\ name = "bar") \/ name = ("foo" ++ ":" ++ "bar")%string)
    /\ ("bar" = "" <-> name = "" \/ name = ("foo" ++ ":")%string).
Proof.
  apply (Parse_command_field (infer.Infer (fun _ => true)) ["foo:bar"; "raw"] []
           {| command.Command_Bundle := "foo"; command.Command_Command := "bar";
              command.Command_Options := ∅;
              command.Command_Parameters := [types.StringValue "raw"] |}).
  vm_compute. reflexivity.
Defined.

(** C5, as stated, fails: [SplitCommand] succeeds on [":"] (and on [""])
    with an empty command, and so does [Parse] on the single token [":"]. *)
Lemma Parse_empty_command_counterexample :
  command.SplitCommand ":" = ("", "", None)
  /\ command.SplitCommand "" = ("", "", None)
  /\ (forall Infer,
        command.Parse Infer [":"] []
        = ({| command.Command_Bundle := ""; command.Command_Command := "";
              command.Command_Options := ∅; command.Command_Parameters := [] |}, None)).
Proof. repeat split. Qed.

(** C1, as the code has it.  The line tokenizes to
    [foo:bar], [-abc], [--flag=42], [--], [raw], [value], and [Parse] with
    no options returns bundle [foo], command [bar], the options [a], [b],
    [c] and [flag=42], each [Bool(true)], and the parameters [String raw],
    [String value]: the text after the two dashes is the option's name as a
    whole, and [42] is not inferred. *)
Theorem Parse_scenario1 :
  command.Tokenize command.scenario1_line = (command.scenario1_tokens, None)
  /\ (forall regexpCompiles,
        command.Parse (infer.Infer regexpCompiles) command.scenario1_tokens []
        = (command.scenario1_parsed, None)).
Proof. split; [|intros regexpCompiles]; vm_compute; reflexivity. Qed.

(** C1, as stated, fails: whatever the inferrer, the options of the parsed
    command have no key [flag]. *)
Lemma Parse_scenario1_counterexample :
  ~ (exists Infer,
       fst (command.Parse Infer command.scenario1_tokens []) = command.scenario1_stated).
Proof.
  intros [Infer H].
  apply (f_equal (fun c => command.Command_Options c !! "flag")) in H.
  vm_compute in H. discriminate H.
Qed.

(** C9.  [CommandParameters.String] writes the first parameter before its
    loop and again in the loop, which starts at index 0: the string form
    of [c0 :: c] is that of [c0] twice, then that of each element of [c].
    On the line [foo:bar raw value] the parsed command has the parameters
    [raw], [value]; their string form is [raw raw value], and the canonical
    form tokenizes and parses to a command with the three parameters
    [raw], [raw], [value]. *)
Theorem String_repeats_first_parameter :
  (forall (format : types.Value -> string) (c0 : types.Value) (c : list types.Value),
     command.CommandParameters_String format (c0 :: c)
     = fold_left (fun b v => (b ++ " " ++ format v)%string) c
         (format c0 ++ " " ++ format c0)%string)
  /\ (forall regexpCompiles : string -> bool,
        let Infer := infer.Infer regexpCompiles in
        let cmd := fst (command.TokenizeAndParse Infer "foo:bar raw value" []) in
        command.TokenizeAndParse Infer "foo:bar raw value" []
        = ({| command.Command_Bundle := "foo"; command.Command_Command := "bar";
              command.Command_Options := ∅;
              command.Command_Parameters :=
                [types.StringValue "raw"; types.StringValue "value"] |}, None)
        /\ command.CommandParameters_String infer.String (command.Command_Parameters cmd)
           = "raw raw value"
        /\ command.canonical infer.String cmd = "foo:bar raw raw value"
        /\ command.TokenizeAndParse Infer (command.canonical infer.String cmd) []
           = ({| command.Command_Bundle := "foo"; command.Command_Command := "bar";
                 command.Command_Options := ∅;
                 command.Command_Parameters :=
                   [types.StringValue "raw"; types.StringValue "raw";
                    types.StringValue "value"] |}, None)).
Proof.
  split.
  - intros format c0 c. cbn [command.CommandParameters_String command.StringLoop].
    generalize (format c0 ++ " " ++ format c0)%string.
    induction c as [|v c IH]; intros b; [reflexivity|]. cbn. apply IH.
  - intros regexpCompiles. repeat split; vm_compute; reflexivity.
Qed.

(** ** Slices *)

Section SliceFacts.
Import goslice.
Context {A : Type}.
Variable zero : A.
Variable growslice : nat -> nat -> nat.
Hypothesis growslice_fits : forall oldcap needed, needed <= growslice oldcap needed.

Lemma wf_elements_length (h : gmap loc (list A)) (s : slice) :
  wf h s -> length (elements h s) = len s.
Proof.
  unfold wf, elements, array. destruct (arr s) as [l|].
  - intros (a & -> & Ha & Hle). cbn. rewrite length_take. lia.
  - intros [-> _]. reflexivity.
Qed.

(** [append] adds the element at the end of the view, and the new view is
    well formed. *)
Lemma append_elements (h : gmap loc (list A)) (s : slice) (x : A) :
  wf h s ->
  elements (fst (append zero growslice h s x)) (snd (append zero growslice h s x))
  = elements h s ++ [x]
  /\ wf (fst (append zero growslice h s x)) (snd (append zero growslice h s x)).
Proof.
  intros Hwf. pose proof (wf_elements_length h s Hwf) as Hlen.
  unfold append. unfold wf in Hwf. destruct (arr s) as [l|] eqn:Harr.
  - destruct Hwf as (a & Hl & Ha & Hle).
    assert (Harray : array h s = a) by (unfold array; by rewrite Harr, Hl).
    destruct (len s <? cap s)%nat eqn:Hroom.
    + apply Nat.ltb_lt in Hroom. cbn [fst snd]. rewrite Harray.
      unfold elements, array, wf. cbn [arr len cap]. rewrite lookup_insert_eq. cbn.
      split.
      * rewrite Harr, Hl. cbn.
        destruct (lookup_lt_is_Some_2 a (len s)) as [y Hy]; [lia|].
        rewrite (take_S_r _ _ x) by (apply list_lookup_insert_eq; lia).
        by rewrite take_insert_ge.
      * eexists. split; [reflexivity|]. rewrite length_insert. lia.
    + apply Nat.ltb_ge in Hroom. cbn [fst snd].
      unfold wf. unfold elements at 1. unfold array. cbn [arr len cap].
      rewrite lookup_insert_eq. cbn. split.
      * rewrite cons_middle, app_assoc. apply take_app_length'.
        rewrite length_app, Hlen. cbn. lia.
      * eexists. split; [reflexivity|].
        pose proof (growslice_fits (cap s) (S (len s))).
        rewrite length_app, Hlen. cbn. rewrite length_replicate. lia.
  - destruct Hwf as [Hl0 Hc0]. cbn [fst snd].
    unfold elements, array, wf. rewrite Harr, Hl0. cbn [arr len cap].
    rewrite lookup_insert_eq. cbn. split; [done|].
    eexists. split; [reflexivity|].
    pose proof (growslice_fits 0 1). cbn. rewrite length_replicate. lia.
Qed.

Section Sorting.
Variable sortSlice : list A -> list A.
Hypothesis sortSlice_Permutation : forall l, sortSlice l ≡ₚ l.

(** After [sort.Slice] the view shows its former elements, sorted. *)
Lemma sort_Slice_elements (h : gmap loc (list A)) (s : slice) :
  wf h s -> elements (sort_Slice sortSlice h s) s = sortSlice (elements h s).
Proof.
  intros Hwf. pose proof (wf_elements_length h s Hwf) as Hlen.
  unfold sort_Slice. destruct (arr s) as [l|] eqn:Harr.
  - unfold elements at 1. unfold array. rewrite Harr, lookup_insert_eq. cbn.
    apply take_app_length'. by rewrite (Permutation_length (sortSlice_Permutation _)).
  - unfold elements, array. rewrite Harr. cbn. rewrite take_nil.
    symmetry. apply Permutation_nil_r. apply sortSlice_Permutation.
Qed.

Lemma sort_Slice_wf (h : gmap loc (list A)) (s : slice) :
  wf h s -> wf (sort_Slice sortSlice h s) s.
Proof.
  intros Hwf. pose proof (wf_elements_length h s Hwf) as Hlen.
  unfold sort_Slice, wf in *. destruct (arr s) as [l|] eqn:Harr; [|done].
  destruct Hwf as (a & Hl & Ha & Hle). rewrite lookup_insert_eq.
  eexists. split; [reflexivity|]. split; [|done].
  rewrite length_app, (Permutation_length (sortSlice_Permutation _)), Hlen.
  unfold array. rewrite Harr, Hl. cbn. rewrite length_drop. lia.
Qed.
End Sorting.

(** A write through a view is seen through every view of the same array
    with the same length. *)
Lemma store_elements (h h' : gmap loc (list A)) (s : slice) (i : nat) (x : A) :
  store h s i x = Some h' -> elements h' s = <[i := x]> (elements h s).
Proof.
  unfold store, elements, array. destruct (arr s) as [l|]; [|discriminate].
  destruct (i <? len s)%nat eqn:Hi; [|discriminate].
  apply Nat.ltb_lt in Hi. intros [= <-]. rewrite lookup_insert_eq. cbn.
  by apply take_insert_lt.
Qed.
End SliceFacts.

(** ** The in-memory roles *)

Section RoleFacts.
Import goslice rest memory.
Variable growslice : nat -> nat -> nat.
Hypothesis growslice_fits : forall oldcap needed, needed <= growslice oldcap needed.

(** What one [RoleGrantPermission] does to a stored role. *)
Lemma RoleGrantPermission_once
    (da : InMemoryDataAccess) (rolename bundle permission : string) (role : Role) :
  roles da !! rolename = Some role ->
  wf (permissionArrays da) (Role_Permissions role) ->
  exists role',
    snd (RoleGrantPermission growslice da rolename bundle permission) = None
    /\ roles (fst (RoleGrantPermission growslice da rolename bundle permission)) !! rolename
       = Some role'
    /\ wf (permissionArrays (fst (RoleGrantPermission growslice da rolename bundle permission)))
         (Role_Permissions role')
    /\ permissionsOf (fst (RoleGrantPermission growslice da rolename bundle permission)) rolename
       = permissionsOf da rolename
         ++ [{| BundleName := bundle; Permission := permission |}].
Proof.
  intros Hrole Hwf. unfold RoleGrantPermission. rewrite Hrole.
  destruct (append_elements RolePermission_zero growslice growslice_fits
              (permissionArrays da) (Role_Permissions role)
              {| BundleName := bundle; Permission := permission |} Hwf) as [Hel Hwf'].
  destruct (append RolePermission_zero growslice (permissionArrays da)
              (Role_Permissions role) {| BundleName := bundle; Permission := permission |})
    as [h s].
  cbn [fst snd] in *. eexists. split; [reflexivity|].
  unfold permissionsOf, setPermissions. cbn [roles permissionArrays].
  rewrite lookup_insert_eq, Hrole. cbn [Role_Permissions]. auto.
Qed.

(** C6, as the code has it.  [RoleGrantPermission] appends the pair to the
    role's permissions every time: after one grant the stored permissions
    are the former ones followed by the pair, after two grants they are
    followed by the pair twice, so the second grant does not leave the
    state of the first. *)
Theorem RoleGrantPermission_twice
    (da : InMemoryDataAccess) (rolename bundle permission : string) (role : Role) :
  let p := {| BundleName := bundle; Permission := permission |} in
  let once := RoleGrantPermission growslice da rolename bundle permission in
  let twice := RoleGrantPermission growslice (fst once) rolename bundle permission in
  roles da !! rolename = Some role ->
  wf (permissionArrays da) (Role_Permissions role) ->
  snd once = None /\ snd twice = None
  /\ permissionsOf (fst once) rolename = permissionsOf da rolename ++ [p]
  /\ permissionsOf (fst twice) rolename = permissionsOf da rolename ++ [p; p]
  /\ permissionsOf (fst twice) rolename <> permissionsOf (fst once) rolename.
Proof.
  intros p once twice Hrole Hwf.
  destruct (RoleGrantPermission_once da rolename bundle permission role Hrole Hwf)
    as (role1 & Herr1 & Hrole1 & Hwf1 & Hperm1).
  destruct (RoleGrantPermission_once (fst once) rolename bundle permission role1 Hrole1 Hwf1)
    as (role2 & Herr2 & _ & _ & Hperm2).
  fold once in Herr1, Hperm1. fold twice in Herr2, Hperm2. fold p in Hperm1, Hperm2.
  repeat split; try assumption.
  - rewrite Hperm2, Hperm1, <- app_assoc. reflexivity.
  - rewrite Hperm2. intros H. apply (f_equal length) in H.
    rewrite length_app in H. cbn in H. lia.
Qed.
End RoleFacts.

Lemma doubling_fits (oldcap needed : nat) : needed <= memory.doubling oldcap needed.
Proof. unfold memory.doubling. lia. Qed.

Lemma RoleGrantPermission_twice_witness :
  let p := {| rest.BundleName := "b"; rest.Permission := "z" |} in
  let da := fst (memory.RoleCreate memory.newStore "ops") in
  let once := memory.RoleGrantPermission memory.doubling da "ops" "b" "z" in
  let twice := memory.RoleGrantPermission memory.doubling (fst once) "ops" "b" "z" in
  snd once = None /\ snd twice = None
  /\ memory.permissionsOf (fst once) "ops" = memory.permissionsOf da "ops" ++ [p]
  /\ memory.permissionsOf (fst twice) "ops" = memory.permissionsOf da "ops" ++ [p; p]
  /\ memory.permissionsOf (fst twice) "ops" <> memory.permissionsOf (fst once) "ops".
Proof.
  apply (RoleGrantPermission_twice memory.doubling doubling_fits
           (fst (memory.RoleCreate memory.newStore "ops")) "ops" "b" "z"
           {| rest.Role_Name := "ops"; rest.Role_Permissions := goslice.empty;
              rest.Role_Groups := goslice.empty |}).
  - vm_compute. reflexivity.
  - split; reflexivity.
Defined.

(** C6, as stated, fails: granting [b:z] twice to a new role leaves the
    pair twice, granting it once leaves it once. *)
Lemma RoleGrantPermission_twice_counterexample :
  let p := {| rest.BundleName := "b"; rest.Permission := "z" |} in
  let da := fst (memory.RoleCreate memory.newStore "ops") in
  let once := fst (memory.RoleGrantPermission memory.doubling da "ops" "b" "z") in
  let twice := fst (memory.RoleGrantPermission memory.doubling once "ops" "b" "z") in
  memory.permissionsOf once "ops" = [p]
  /\ memory.permissionsOf twice "ops" = [p; p].
Proof. split; vm_compute; reflexivity. Qed.

(** C4.  With an empty role name and a store that holds no role of that
    name, [RoleGrantPermission] (as [RoleRevokePermission] and
    [RoleGroupList]) returns [ErrNoSuchRole]: it looks the name up and has
    no test of the name; [RoleCreate], [RoleDelete], [RoleExists] and
    [RoleGet] return [ErrEmptyRoleName]. *)
Theorem RoleGrantPermission_empty_name :
  forall (growslice : nat -> nat -> nat) (bundle permission : string),
    memory.RoleGrantPermission growslice memory.newStore "" bundle permission
    = (memory.newStore, Some ErrNoSuchRole)
    /\ memory.RoleRevokePermission growslice memory.newStore "" bundle permission
       = (memory.newStore, Some ErrNoSuchRole)
    /\ memory.RoleGroupList memory.newStore "" = (goslice.empty, Some ErrNoSuchRole)
    /\ memory.RoleCreate memory.newStore "" = (memory.newStore, Some ErrEmptyRoleName)
    /\ memory.RoleDelete memory.newStore "" = (memory.newStore, Some ErrEmptyRoleName)
    /\ memory.RoleExists memory.newStore "" = (false, Some ErrEmptyRoleName)
    /\ memory.RoleGet memory.newStore "" = (rest.Role_zero, Some ErrEmptyRoleName).
Proof. intros growslice bundle permission. repeat split. Qed.

Section RoleListFacts.
Import goslice rest memory.
Variable sortSlice : list RolePermission -> list RolePermission.
Hypothesis sortSlice_Permutation : forall l, sortSlice l ≡ₚ l.
Hypothesis sortSlice_Sorted : forall l, Sorted byString (sortSlice l).

(** C3, as the code has it.  [RolePermissionList] returns the stored
    role's own [Permissions] slice, a view of the stored array, after
    sorting that array in place: the roles map and the group arrays are
    left as they were, the stored role keeps its permissions but in the
    sorted order, the returned list is the stored list, and a write through
    the returned slice is a write to the stored role.  [RoleGroupList]
    writes nothing and returns the stored [Groups] slice itself. *)
Theorem RolePermissionList_sorts_in_place
    (da : InMemoryDataAccess) (rolename : string) (role : Role) :
  let da' := fst (RolePermissionList sortSlice da rolename) in
  let perms := fst (snd (RolePermissionList sortSlice da rolename)) in
  rolename <> "" ->
  roles da !! rolename = Some role ->
  wf (permissionArrays da) (Role_Permissions role) ->
  snd (snd (RolePermissionList sortSlice da rolename)) = None
  /\ perms = Role_Permissions role
  /\ roles da' = roles da
  /\ groupArrays da' = groupArrays da
  /\ (forall l, arr perms <> Some l -> permissionArrays da' !! l = permissionArrays da !! l)
  /\ permissionsOf da' rolename = sortSlice (permissionsOf da rolename)
  /\ permissionsOf da' rolename ≡ₚ permissionsOf da rolename
  /\ Sorted byString (permissionsOf da' rolename)
  /\ elements (permissionArrays da') perms = permissionsOf da' rolename
  /\ (forall i x h,
        store (permissionArrays da') perms i x = Some h ->
        permissionsOf {| roles := roles da'; permissionArrays := h;
                         groupArrays := groupArrays da' |} rolename
        = <[i := x]> (permissionsOf da' rolename))
  /\ RoleGroupList da rolename = (Role_Groups role, None).
Proof.
  intros da' perms Hname Hrole Hwf. subst da' perms.
  unfold RolePermissionList, RoleGet, RoleGroupList. rewrite Hrole.
  destruct (String.eqb rolename "") eqn:E; [by apply String.eqb_eq in E|].
  cbn [fst snd roles permissionArrays groupArrays].
  assert (Hsorted : permissionsOf
            {| roles := roles da;
               permissionArrays :=
                 sort_Slice sortSlice (permissionArrays da) (Role_Permissions role);
               groupArrays := groupArrays da |} rolename
          = sortSlice (permissionsOf da rolename)).
  { unfold permissionsOf. cbn [roles permissionArrays]. rewrite Hrole.
    by apply sort_Slice_elements. }
  repeat split; try reflexivity.
  - intros l Hl. unfold sort_Slice.
    destruct (arr (Role_Permissions role)) as [l'|] eqn:Harr; [|done].
    apply lookup_insert_ne. intros ->. by apply Hl.
  - exact Hsorted.
  - rewrite Hsorted. apply sortSlice_Permutation.
  - rewrite Hsorted. apply sortSlice_Sorted.
  - unfold permissionsOf. cbn [roles permissionArrays]. by rewrite Hrole.
  - intros i x h Hstore. unfold permissionsOf. cbn [roles permissionArrays].
    rewrite Hrole. by apply store_elements.
Qed.
End RoleListFacts.

Lemma byString_leString (p q : rest.RolePermission) :
  memory.leString p q -> memory.byString p q.
Proof.
  unfold memory.leString, memory.byString, String.leb, String.ltb.
  rewrite (String.compare_antisym (rest.RolePermission_String q)
             (rest.RolePermission_String p)).
  destruct (rest.RolePermission_String p ?= rest.RolePermission_String q)%string;
    cbn; congruence.
Qed.

Lemma leString_total : Total memory.leString.
Proof. intros p q. apply String.leb_total. Qed.

Lemma mergeSortByString_Permutation (l : list rest.RolePermission) :
  memory.mergeSortByString l ≡ₚ l.
Proof. apply merge_sort_Permutation. Qed.

Lemma mergeSortByString_Sorted (l : list rest.RolePermission) :
  Sorted memory.byString (memory.mergeSortByString l).
Proof.
  pose proof (@Sorted_merge_sort _ memory.leString _ leString_total l) as HS.
  unfold memory.mergeSortByString.
  induction HS as [|p ps HS IH Hhd]; constructor; [exact IH|].
  destruct Hhd; constructor. by apply byString_leString.
Qed.

Lemma RolePermissionList_sorts_in_place_witness :
  let r := memory.RolePermissionList memory.mergeSortByString memory.opsStore "ops" in
  snd (snd r) = None
  /\ memory.permissionsOf (fst r) "ops"
     = memory.mergeSortByString (memory.permissionsOf memory.opsStore "ops")
  /\ memory.RoleGroupList memory.opsStore "ops" = (goslice.empty, None).
Proof.
  intros r.
  destruct (RolePermissionList_sorts_in_place memory.mergeSortByString
              mergeSortByString_Permutation mergeSortByString_Sorted
              memory.opsStore "ops"
              {| rest.Role_Name := "ops";
                 rest.Role_Permissions :=
                   {| goslice.arr := Some 2%positive; goslice.len := 2; goslice.cap := 2 |};
                 rest.Role_Groups := goslice.empty |})
    as (Herr & _ & _ & _ & _ & Hsorted & _ & _ & _ & _ & Hgroups).
  - discriminate.
  - vm_compute. reflexivity.
  - eexists. split; [vm_compute; reflexivity|]. split; [reflexivity|]. cbn. lia.
  - split; [exact Herr|]. split; [exact Hsorted | exact Hgroups].
Defined.

(** C3, as stated, fails.  The role [ops] was granted [b:z], then [a:y].
    [RolePermissionList] leaves the stored permissions in the order
    [a:y], [b:z], and writing [c:x] at index 0 of the slice it returned
    makes the stored permissions [c:x], [b:z]. *)
Lemma RolePermissionList_counterexample :
  let bz := {| rest.BundleName := "b"; rest.Permission := "z" |} in
  let ay := {| rest.BundleName := "a"; rest.Permission := "y" |} in
  let cx := {| rest.BundleName := "c"; rest.Permission := "x" |} in
  let r := memory.RolePermissionList memory.mergeSortByString memory.opsStore "ops" in
  memory.permissionsOf memory.opsStore "ops" = [bz; ay]
  /\ memory.permissionsOf (fst r) "ops" = [ay; bz]
  /\ (memory.permissionsOf
        {| memory.roles := memory.roles (fst r);
           memory.permissionArrays :=
             default ∅ (goslice.store (memory.permissionArrays (fst r)) (fst (snd r)) 0 cx);
           memory.groupArrays := memory.groupArrays (fst r) |} "ops"
      = [cx; bz]).
Proof. repeat split; vm_compute; reflexivity. Qed.

(** ** Tokens *)

Section TokenFacts.
Import rest memory.
Variable UserExists : string -> bool * option error.
Variable IsExpired : Token -> bool.

Lemma consistent_init : consistent init /\ heldIn init [].
Proof.
  unfold consistent, heldIn, init. cbn.
  split; [split|]; intros ? ? Hl; by rewrite lookup_empty in Hl.
Qed.

Lemma consistent_atMostOneToken (tm : tokenMaps) (username : string) :
  consistent tm -> atMostOneToken tm username.
Proof.
  intros [_ HV]. split.
  - intros s1 s2 t1 t2 H1 H2 Hu1 Hu2.
    destruct (HV _ _ H1) as [<- HU1]. destruct (HV _ _ H2) as [<- HU2].
    rewrite Hu1 in HU1. rewrite Hu2 in HU2.
    assert (t1 = t2) by congruence. by subst.
  - intros s t t' Hv Hu Hu'. destruct (HV _ _ Hv) as [_ HU].
    rewrite Hu in HU. congruence.
Qed.

Lemma TokenInvalidate_consistent (tm : tokenMaps) (u : string) (t : Token) :
  consistent tm ->
  tokensByUser tm !! u = Some t ->
  consistent (fst (TokenInvalidate tm (Token_Token t)))
  /\ tokensByUser (fst (TokenInvalidate tm (Token_Token t))) !! u = None
  /\ (forall s t', tokensByValue (fst (TokenInvalidate tm (Token_Token t))) !! s = Some t' ->
        tokensByValue tm !! s = Some t').
Proof.
  intros [HU HV] Hu. destruct (HU _ _ Hu) as [Hut Hvt].
  unfold TokenInvalidate, TokenRetrieveByToken. rewrite Hvt. cbn [fst].
  rewrite Hut. unfold consistent. cbn [tokensByUser tokensByValue].
  split; [split|split].
  - intros u' t' H. apply lookup_delete_Some in H as [Hne H].
    destruct (HU _ _ H) as [Hu' Hv']. split; [done|].
    rewrite lookup_delete_ne; [done|].
    intros Heq. rewrite Heq in Hvt. congruence.
  - intros s t' H. apply lookup_delete_Some in H as [Hne H].
    destruct (HV _ _ H) as [Hs Hu']. split; [done|].
    rewrite lookup_delete_ne; [done|].
    intros Heq. rewrite <- Heq in Hu'. congruence.
  - apply lookup_delete_eq.
  - intros s t' H. by apply lookup_delete_Some in H as [_ H].
Qed.

Lemma insert_consistent (tm : tokenMaps) (T : Token) :
  consistent tm ->
  tokensByUser tm !! Token_User T = None ->
  tokensByValue tm !! Token_Token T = None ->
  consistent {| tokensByUser := <[Token_User T := T]> (tokensByUser tm);
                tokensByValue := <[Token_Token T := T]> (tokensByValue tm) |}.
Proof.
  intros [HU HV] Hu Hv. unfold consistent. split; cbn [tokensByUser tokensByValue].
  - intros u t H. apply lookup_insert_Some in H as [[<- <-]|[Hne H]].
    + by rewrite lookup_insert_eq.
    + destruct (HU _ _ H) as [Hu' Hv']. split; [done|].
      rewrite lookup_insert_ne; [done|]. intros Heq. congruence.
  - intros s t H. apply lookup_insert_Some in H as [[<- <-]|[Hne H]].
    + by rewrite lookup_insert_eq.
    + destruct (HV _ _ H) as [Hs' Hu']. split; [done|].
      rewrite lookup_insert_ne; [done|]. intros Heq. congruence.
Qed.

(** One call keeps the two indexes consistent; a token it returns is new
    in both, provided its value is none of the values issued before. *)
Lemma generate_consistent (tm : tokenMaps) (c : call) (log : list Token) :
  consistent tm -> heldIn tm log ->
  match snd (snd (generate UserExists tm c)) with
  | None =>
      let T := fst (snd (generate UserExists tm c)) in
      Token_Token T ∉ map Token_Token log ->
      consistent (fst (generate UserExists tm c))
      /\ heldIn (fst (generate UserExists tm c)) (log ++ [T])
      /\ tokensByUser (fst (generate UserExists tm c)) !! call_username c = Some T
      /\ Token_User T = call_username c
  | Some _ =>
      consistent (fst (generate UserExists tm c))
      /\ heldIn (fst (generate UserExists tm c)) log
  end.
Proof.
  intros Hcons Hheld. unfold generate, TokenGenerate.
  destruct (UserExists (call_username c)) as [[|] [err|]]; cbn [fst snd]; try done.
  set (tm1 := match TokenRetrieveByUser tm (call_username c) with
              | (token, None) => fst (TokenInvalidate tm (Token_Token token))
              | (_, Some _) => tm
              end).
  assert (H1 : consistent tm1 /\ tokensByUser tm1 !! call_username c = None
               /\ heldIn tm1 log).
  { subst tm1. unfold TokenRetrieveByUser.
    destruct (tokensByUser tm !! call_username c) as [t|] eqn:Hu.
    - destruct (TokenInvalidate_consistent tm _ t Hcons Hu) as (Hc1 & Hu1 & Hsub).
      split; [done|]. split; [done|].
      intros s t' Hs. apply (Hheld s). by apply Hsub.
    - done. }
  destruct H1 as (Hcons1 & Hu1 & Hheld1).
  destruct (call_random c) as [tokenString [err|]]; cbn [fst snd]; [done|].
  intros Hfresh. cbn [Token_Token] in Hfresh.
  assert (Hv1 : tokensByValue tm1 !! tokenString = None).
  { destruct (tokensByValue tm1 !! tokenString) as [t|] eqn:Hv; [|done].
    exfalso. apply Hfresh. destruct Hcons1 as [_ HV].
    destruct (HV _ _ Hv) as [<- _]. apply list_elem_of_fmap_2. by apply (Hheld1 _ _ Hv). }
  split; [|split; [|split]].
  - by apply (insert_consistent tm1
               {| Token_Duration := call_duration c; Token_Token := tokenString;
                  Token_User := call_username c; Token_ValidFrom := call_now c;
                  Token_ValidUntil := call_now c + call_duration c |}).
  - intros s t H. cbn [tokensByValue] in H.
    apply lookup_insert_Some in H as [[_ <-]|[_ H]].
    + apply elem_of_app. right. by apply list_elem_of_singleton.
    + apply elem_of_app. left. by apply (Hheld1 s).
  - cbn [tokensByUser]. by rewrite lookup_insert_eq.
  - reflexivity.
Qed.

Lemma issued_app (cs1 cs2 : list call) : forall tm,
  issued UserExists tm (cs1 ++ cs2)
  = issued UserExists tm cs1 ++ issued UserExists (after UserExists tm cs1) cs2.
Proof.
  induction cs1 as [|c cs1 IH]; intros tm; [reflexivity|].
  cbn [app issued after fold_left].
  destruct (generate UserExists tm c) as [tm' [T [err|]]]; cbn [fst]; rewrite IH; reflexivity.
Qed.

Lemma after_app (cs1 cs2 : list call) (tm : tokenMaps) :
  after UserExists tm (cs1 ++ cs2) = after UserExists (after UserExists tm cs1) cs2.
Proof. unfold after. apply fold_left_app. Qed.

(** The invariant along a sequence of calls whose tokens have pairwise
    distinct values. *)
Lemma after_consistent (cs : list call) : forall tm log,
  consistent tm -> heldIn tm log ->
  NoDup (map Token_Token (log ++ issued UserExists tm cs)) ->
  consistent (after UserExists tm cs)
  /\ heldIn (after UserExists tm cs) (log ++ issued UserExists tm cs).
Proof.
  induction cs as [|c cs IH]; intros tm log Hcons Hheld Hnodup.
  - cbn. by rewrite app_nil_r.
  - cbn [after fold_left issued] in *.
    pose proof (generate_consistent tm c log Hcons Hheld) as Hstep.
    destruct (generate UserExists tm c) as [tm' [T [err|]]]; cbn [fst snd] in *.
    + destruct Hstep as [Hcons' Hheld']. by apply IH.
    + rewrite cons_middle, app_assoc in Hnodup |- *.
      destruct Hstep as (Hcons' & Hheld' & _).
      { rewrite map_app in Hnodup. apply NoDup_app in Hnodup as [Hnodup _].
        rewrite map_app in Hnodup. apply NoDup_app in Hnodup as (_ & Hdisj & _).
        intros Hin. apply (Hdisj _ Hin). cbn. apply list_elem_of_here. }
      by apply IH.
Qed.
Lemma NoDup_fmap_eq {A B : Type} (f : A -> B) (l : list A) (x y : A) :
  NoDup (map f l) -> x ∈ l -> y ∈ l -> f x = f y -> x = y.
Proof.
  induction l as [|a l IH]; cbn; intros Hnd Hx Hy Hf.
  - by apply elem_of_nil in Hx.
  - apply NoDup_cons in Hnd as [Ha Hnd].
    apply elem_of_cons in Hx as [->|Hx]; apply elem_of_cons in Hy as [->|Hy].
    + reflexivity.
    + exfalso. apply Ha. rewrite Hf. by apply list_elem_of_fmap_2.
    + exfalso. apply Ha. rewrite <- Hf. by apply list_elem_of_fmap_2.
    + by apply IH.
Qed.

(** *** What holds whatever the random source returns *)

Lemma indexed_init : indexed init.
Proof. intros s t H. cbn in H. by rewrite lookup_empty in H. Qed.

Lemma indexed_atMostOneToken (tm : tokenMaps) (username : string) :
  indexed tm -> atMostOneToken tm username.
Proof.
  intros HV. split.
  - intros s1 s2 t1 t2 H1 H2 Hu1 Hu2.
    destruct (HV _ _ H1) as [<- HU1]. destruct (HV _ _ H2) as [<- HU2].
    rewrite Hu1 in HU1. rewrite Hu2 in HU2.
    assert (t1 = t2) by congruence. by subst.
  - intros s t t' Hv Hu Hu'. destruct (HV _ _ Hv) as [_ HU].
    rewrite Hu in HU. congruence.
Qed.

(** Token maps that hold less hold no more tokens of a user. *)
Lemma atMostOneToken_subseteq (tm tm' : tokenMaps) (username : string) :
  tokensByUser tm' ⊆ tokensByUser tm ->
  tokensByValue tm' ⊆ tokensByValue tm ->
  atMostOneToken tm username -> atMostOneToken tm' username.
Proof.
  intros HsubU HsubV [Ha Hb]. split.
  - intros s1 s2 t1 t2 H1 H2. apply Ha; by eapply lookup_weaken.
  - intros s t t' Hv Hu Hu'. apply (Hb s t t'); [|done|]; by eapply lookup_weaken.
Qed.

Lemma TokenInvalidate_indexed (tm : tokenMaps) (tokenString : string) :
  indexed tm -> indexed (fst (TokenInvalidate tm tokenString)).
Proof.
  intros HV. unfold TokenInvalidate, TokenRetrieveByToken.
  destruct (tokensByValue tm !! tokenString) as [t2|] eqn:Hv; [|done].
  cbn [fst]. intros s t H. cbn [tokensByUser tokensByValue] in *.
  apply lookup_delete_Some in H as [Hne H]. destruct (HV _ _ H) as [Hs Hu].
  split; [done|]. rewrite lookup_delete_ne; [done|].
  intros Heq. destruct (HV _ _ Hv) as [_ Hu2]. rewrite Heq in Hu2.
  assert (t2 = t) by congruence. subst t2. congruence.
Qed.

Lemma TokenInvalidate_writes_subseteq (tm : tokenMaps) (tokenString : string) (p : tokenMaps) :
  p ∈ TokenInvalidate_writes tm tokenString ->
  tokensByUser p ⊆ tokensByUser tm /\ tokensByValue p ⊆ tokensByValue tm.
Proof.
  unfold TokenInvalidate_writes, TokenRetrieveByToken.
  destruct (tokensByValue tm !! tokenString) as [t2|]; [|by intros ?%elem_of_nil].
  intros [->|[->|H%elem_of_nil]%elem_of_cons]%elem_of_cons; [| |done];
    cbn [tokensByUser tokensByValue]; split; try done; apply delete_subseteq.
Qed.

(** The token maps when [TokenGenerate] asks the random source: they
    hold no token of the user by value. *)
Lemma TokenGenerate_begin_indexed (tm : tokenMaps) (username : string) :
  indexed tm ->
  let tm1 := match TokenRetrieveByUser tm username with
             | (token, None) => fst (TokenInvalidate tm (Token_Token token))
             | (_, Some _) => tm
             end in
  indexed tm1
  /\ (forall s t, tokensByValue tm1 !! s = Some t -> Token_User t <> username).
Proof.
  intros HV tm1. subst tm1. unfold TokenRetrieveByUser.
  destruct (tokensByUser tm !! username) as [old|] eqn:Hu.
  - split; [by apply TokenInvalidate_indexed|].
    unfold TokenInvalidate, TokenRetrieveByToken.
    destruct (tokensByValue tm !! Token_Token old) as [t2|] eqn:Hv; cbn [fst tokensByValue].
    + intros s t H Ht. apply lookup_delete_Some in H as [Hne H].
      destruct (HV _ _ H) as [Hs Hut]. rewrite Ht, Hu in Hut.
      destruct (HV _ _ Hv) as [Hs2 _]. congruence.
    + intros s t H Ht. destruct (HV _ _ H) as [Hs Hut]. rewrite Ht, Hu in Hut.
      congruence.
  - split; [done|]. intros s t H Ht. destruct (HV _ _ H) as [_ Hut].
    rewrite Ht, Hu in Hut. discriminate.
Qed.

Lemma generate_indexed (tm : tokenMaps) (c : call) :
  indexed tm -> indexed (fst (generate UserExists tm c)).
Proof.
  intros HV. unfold generate, TokenGenerate.
  destruct (UserExists (call_username c)) as [[|] [err|]]; cbn [fst]; try done.
  destruct (TokenGenerate_begin_indexed tm (call_username c) HV) as [HV1 Hnone].
  destruct (call_random c) as [tokenString [err|]]; cbn [fst]; [done|].
  intros s t H. cbn [tokensByUser tokensByValue] in *.
  apply lookup_insert_Some in H as [[<- <-]|[Hne H]].
  - cbn. by rewrite lookup_insert_eq.
  - destruct (HV1 _ _ H) as [Hs Hut]. split; [done|].
    rewrite lookup_insert_ne; [done|]. intros Heq. by apply (Hnone _ _ H).
Qed.

Lemma after_indexed (cs : list call) : forall tm,
  indexed tm -> indexed (after UserExists tm cs).
Proof.
  induction cs as [|c cs IH]; intros tm HV; [done|].
  cbn [after fold_left]. apply IH. by apply generate_indexed.
Qed.

(** No write of a [TokenGenerate] leaves two tokens of a user. *)
Lemma TokenGenerate_writes_atMostOneToken (tm : tokenMaps) (c : call) (p : tokenMaps)
    (username : string) :
  indexed tm ->
  p ∈ TokenGenerate_writes UserExists tm (call_username c) (call_duration c)
        (call_random c) (call_now c) ->
  atMostOneToken p username.
Proof.
  intros HV. pose proof (generate_indexed tm c HV) as HV'. revert HV'.
  unfold generate, TokenGenerate, TokenGenerate_writes.
  destruct (UserExists (call_username c)) as [[|] [err|]];
    try (intros _ H; by apply elem_of_nil in H).
  destruct (TokenGenerate_begin_indexed tm (call_username c) HV) as [HV1 Hnone].
  assert (Hinv : forall q,
    q ∈ match TokenRetrieveByUser tm (call_username c) with
        | (token, None) => TokenInvalidate_writes tm (Token_Token token)
        | (_, Some _) => []
        end -> atMostOneToken q username).
  { intros q Hq. destruct (TokenRetrieveByUser tm (call_username c)) as [token [err|]];
      [by apply elem_of_nil in Hq|].
    destruct (TokenInvalidate_writes_subseteq _ _ _ Hq) as [HsubU HsubV].
    apply (atMostOneToken_subseteq tm); [done|done|by apply indexed_atMostOneToken]. }
  destruct (call_random c) as [tokenString [err|]]; cbn [fst]; intros HV' Hp.
  - by apply Hinv.
  - apply elem_of_app in Hp as [Hp|Hp]; [by apply Hinv|].
    apply elem_of_cons in Hp as [->|Hp].
    + destruct (indexed_atMostOneToken _ username HV1) as [Ha Hb].
      split; cbn [tokensByUser tokensByValue]; [exact Ha|].
      intros s t t' Hv Ht Hu'. destruct (decide (username = call_username c)) as [->|Hne].
      * exfalso. by apply (Hnone _ _ Hv).
      * rewrite lookup_insert_ne in Hu' by done. by apply (Hb s t t').
    + apply elem_of_cons in Hp as [->|Hp]; [|by apply elem_of_nil in Hp].
      by apply indexed_atMostOneToken.
Qed.

Lemma writes_atMostOneToken (cs : list call) : forall tm p username,
  indexed tm -> p ∈ writes UserExists tm cs -> atMostOneToken p username.
Proof.
  induction cs as [|c cs IH]; intros tm p username HV Hp; cbn [writes] in Hp.
  - by apply elem_of_nil in Hp.
  - apply elem_of_app in Hp as [Hp|Hp].
    + by apply (TokenGenerate_writes_atMostOneToken tm c).
    + apply (IH (fst (generate UserExists tm c))); [by apply generate_indexed|done].
Qed.

(** The last write of a call leaves the token maps the call returns
    with. *)
Lemma TokenGenerate_writes_last (tm : tokenMaps) (c : call) :
  default tm (last (TokenGenerate_writes UserExists tm (call_username c) (call_duration c)
                      (call_random c) (call_now c)))
  = fst (generate UserExists tm c).
Proof.
  unfold generate, TokenGenerate, TokenGenerate_writes.
  destruct (UserExists (call_username c)) as [[|] [err|]]; try reflexivity.
  destruct (call_random c) as [tokenString [err|]]; cbn [fst].
  - unfold TokenRetrieveByUser.
    destruct (tokensByUser tm !! call_username c) as [old|]; [|reflexivity].
    unfold TokenInvalidate_writes, TokenInvalidate.
    by destruct (TokenRetrieveByToken tm (Token_Token old)) as [t2 [err'|]].
  - rewrite last_app. reflexivity.
Qed.

Lemma writes_last (cs : list call) : forall tm,
  default tm (last (writes UserExists tm cs)) = after UserExists tm cs.
Proof.
  induction cs as [|c cs IH]; intros tm; [reflexivity|].
  cbn [writes after fold_left]. rewrite last_app.
  specialize (IH (fst (generate UserExists tm c))). unfold after in IH.
  destruct (last (writes UserExists (fst (generate UserExists tm c)) cs)) as [q|].
  - exact IH.
  - rewrite <- IH. apply TokenGenerate_writes_last.
Qed.

(** C2, as the code has it.  Take any sequence of [TokenGenerate] calls
    run one after the other from the empty token maps, for whatever
    users, and let its last call return the token [T] for the user [u].
    Then [TokenRetrieveByUser(u)] returns [T].  If the random source has
    returned no value twice, then for every token [T'] returned to [u] by
    an earlier call [TokenRetrieveByToken(T'.Token)] returns
    [ErrNoSuchToken] and [TokenEvaluate(T'.Token)] is false.  And
    whatever the random source returns, the maps hold at most one token
    of any user after each call and after each single write of each
    call, the last of which leaves the maps the sequence ends with. *)
Theorem TokenGenerate_supersedes (cs : list call) (c : call) :
  let tm := after UserExists init cs in
  let tm' := fst (generate UserExists tm c) in
  let T := fst (snd (generate UserExists tm c)) in
  (snd (snd (generate UserExists tm c)) = None ->
   TokenRetrieveByUser tm' (call_username c) = (T, None)
   /\ (NoDup (map Token_Token (issued UserExists init (cs ++ [c]))) ->
       forall T',
         T' ∈ issued UserExists init cs ->
         Token_User T' = call_username c ->
         TokenRetrieveByToken tm' (Token_Token T') = (Token_zero, Some ErrNoSuchToken)
         /\ TokenEvaluate IsExpired tm' (Token_Token T') = false))
  /\ (forall k u, atMostOneToken (after UserExists init (take k (cs ++ [c]))) u)
  /\ (forall p u, p ∈ writes UserExists init (cs ++ [c]) -> atMostOneToken p u)
  /\ default init (last (writes UserExists init (cs ++ [c]))) = tm'.
Proof.
  intros tm tm' T. split; [|split; [|split]].
  - intros Hok. split.
    + subst tm' T. revert Hok. unfold generate, TokenGenerate, TokenRetrieveByUser.
      destruct (UserExists (call_username c)) as [[|] [err|]]; cbn [fst snd]; try done.
      destruct (call_random c) as [tokenString [err|]]; cbn [fst snd]; [done|].
      intros _. cbn [tokensByUser]. by rewrite lookup_insert_eq.
    + intros Hnodup.
      destruct consistent_init as [Hc0 Hh0].
      assert (Hissued : issued UserExists init (cs ++ [c])
                        = issued UserExists init cs ++ [T]).
      { rewrite issued_app. fold tm. cbn [issued]. subst T.
        destruct (generate UserExists tm c) as [tm1 [T1 [err|]]];
          [discriminate|reflexivity]. }
      rewrite Hissued in Hnodup.
      assert (Hnodup_cs : NoDup (map Token_Token (issued UserExists init cs))).
      { rewrite map_app in Hnodup. by apply NoDup_app in Hnodup as [? _]. }
      destruct (after_consistent cs init [] Hc0 Hh0 Hnodup_cs) as [Hcons Hheld].
      cbn [app] in Hheld. fold tm in Hcons, Hheld.
      pose proof (generate_consistent tm c _ Hcons Hheld) as Hstep.
      rewrite Hok in Hstep. cbn zeta in Hstep. fold T tm' in Hstep.
      assert (Hfresh : Token_Token T ∉ map Token_Token (issued UserExists init cs)).
      { rewrite map_app in Hnodup. apply NoDup_app in Hnodup as (_ & Hdisj & _).
        intros Hin. apply (Hdisj _ Hin). cbn. apply list_elem_of_here. }
      destruct (Hstep Hfresh) as (Hcons' & Hheld' & HuT & HTu).
      intros T' HT' Hu'.
      assert (Hnone : tokensByValue tm' !! Token_Token T' = None).
      { destruct (tokensByValue tm' !! Token_Token T') as [t|] eqn:Hv; [|done].
        exfalso. destruct Hcons' as [_ HV]. destruct (HV _ _ Hv) as [Ht Hut].
        assert (t = T').
        { apply (NoDup_fmap_eq Token_Token (issued UserExists init cs ++ [T]));
            [done|by apply (Hheld' _ _ Hv)| |done].
          apply elem_of_app. by left. }
        subst t. rewrite Hu', HuT in Hut. injection Hut as ->.
        apply Hfresh. by apply list_elem_of_fmap_2. }
      unfold TokenEvaluate, TokenRetrieveByToken. by rewrite Hnone.
  - intros k u. apply indexed_atMostOneToken, after_indexed, indexed_init.
  - intros p u Hp. exact (writes_atMostOneToken (cs ++ [c]) init p u indexed_init Hp).
  - rewrite writes_last, after_app. reflexivity.
Qed.
End TokenFacts.

Lemma TokenGenerate_supersedes_witness :
  let exists_ := fun _ : string => (true, @None error) in
  let expired := fun _ : rest.Token => false in
  let first := {| memory.call_username := "alice"; memory.call_duration := 3600;
                  memory.call_random := ("T1", None); memory.call_now := 0 |} in
  let second := {| memory.call_username := "alice"; memory.call_duration := 3600;
                   memory.call_random := ("T2", None); memory.call_now := 10 |} in
  let tm' := memory.after exists_ memory.init [first; second] in
  fst (memory.TokenRetrieveByUser tm' "alice")
  = {| rest.Token_Duration := 3600; rest.Token_Token := "T2"; rest.Token_User := "alice";
       rest.Token_ValidFrom := 10; rest.Token_ValidUntil := 3610 |}
  /\ memory.TokenRetrieveByToken tm' "T1" = (rest.Token_zero, Some ErrNoSuchToken)
  /\ memory.TokenEvaluate expired tm' "T1" = false
  /\ memory.TokenEvaluate expired tm' "T2" = true.
Proof.
  intros exists_ expired first second tm'.
  destruct (TokenGenerate_supersedes exists_ expired [first] second) as (Hlast & _).
  destruct (Hlast eq_refl) as [Huser Hold].
  assert (Hnodup : NoDup (map rest.Token_Token
                            (memory.issued exists_ memory.init ([first] ++ [second])))).
  { change (NoDup ["T1"; "T2"]).
    apply NoDup_cons. split; [|apply NoDup_singleton].
    rewrite list_elem_of_singleton. discriminate. }
  destruct (Hold Hnodup
              {| rest.Token_Duration := 3600; rest.Token_Token := "T1";
                 rest.Token_User := "alice";
                 rest.Token_ValidFrom := 0; rest.Token_ValidUntil := 3600 |})
    as [Hnone Hfalse].
  - vm_compute. apply list_elem_of_here.
  - reflexivity.
  - split; [exact (f_equal fst Huser)|]. split; [exact Hnone|].
    split; [exact Hfalse|]. vm_compute. reflexivity.
Defined.

(** C2, as stated, fails.  [alice] is given a token of value [T1]; in her
    second call the random source returns [T1] again.  The second call
    succeeds, and the value of the token the first call returned is then
    found, and valid. *)
Lemma TokenGenerate_supersedes_counterexample :
  memory.issued memory.everyUser memory.init [memory.aliceCall]
  = [{| rest.Token_Duration := 3600; rest.Token_Token := "T1"; rest.Token_User := "alice";
        rest.Token_ValidFrom := 0; rest.Token_ValidUntil := 3600 |}]
  /\ snd (memory.generate memory.everyUser memory.aliceMaps memory.aliceAgain)
     = ({| rest.Token_Duration := 3600; rest.Token_Token := "T1"; rest.Token_User := "alice";
           rest.Token_ValidFrom := 10; rest.Token_ValidUntil := 3610 |}, None)
  /\ memory.TokenRetrieveByToken
       (fst (memory.generate memory.everyUser memory.aliceMaps memory.aliceAgain)) "T1"
     <> (rest.Token_zero, Some ErrNoSuchToken)
  /\ memory.TokenEvaluate (fun _ => false)
       (fst (memory.generate memory.everyUser memory.aliceMaps memory.aliceAgain)) "T1"
     = true.
Proof.
  split; [vm_compute; reflexivity|]. split; [vm_compute; reflexivity|].
  split; [vm_compute; discriminate|vm_compute; reflexivity].
Qed.

(* ===================================================================== *)
(** * Further properties *)
(* ===================================================================== *)

(** ** Rules: what the fold decides *)

Section JoinFoldFacts.
Import rules.
Context {T : Type}.
Variable cond : T -> LogicalOperator.

Lemma fold_all_And (val : T -> bool) (xs : list T) : forall acc,
  Forall (fun x => cond x = And) xs ->
  fold_left (joinStep cond val) xs acc = acc && forallb val xs.
Proof.
  induction xs as [|x xs IH]; intros acc Hall; cbn.
  - by rewrite andb_true_r.
  - apply Forall_cons in Hall as [Hx Hall]. rewrite (IH _ Hall).
    unfold joinStep. rewrite Hx. cbn. by rewrite andb_assoc.
Qed.

Lemma fold_all_Or (val : T -> bool) (xs : list T) : forall acc,
  Forall (fun x => cond x = Or) xs ->
  fold_left (joinStep cond val) xs acc = acc || existsb val xs.
Proof.
  induction xs as [|x xs IH]; intros acc Hall; cbn.
  - by rewrite orb_false_r.
  - apply Forall_cons in Hall as [Hx Hall]. rewrite (IH _ Hall).
    unfold joinStep. rewrite Hx. cbn. by rewrite orb_assoc.
Qed.

(** The fold has no negation: raising the values raises the result. *)
Lemma fold_monotone (val val' : T -> bool) (xs : list T) : forall acc acc',
  (acc = true -> acc' = true) ->
  (forall x, val x = true -> val' x = true) ->
  fold_left (joinStep cond val) xs acc = true ->
  fold_left (joinStep cond val') xs acc' = true.
Proof.
  induction xs as [|x xs IH]; intros acc acc' Hacc Hval; cbn; [done|].
  apply IH; [|done]. unfold joinStep. specialize (Hval x).
  destruct (cond x), acc, acc', (val x), (val' x); cbn; auto.
Qed.

(** The calls of the loop entered at [i] are made in increasing order of
    position. *)
Lemma joinLoop_calls_sorted (val : T -> bool) (xs : list T) : forall result i,
  StronglySorted lt (snd (joinLoop cond val result i xs [])).
Proof.
  assert (Hcons : forall result i xs',
            (forall result' i', StronglySorted lt (snd (joinLoop cond val result' i' xs' []))) ->
            StronglySorted lt (i :: snd (joinLoop cond val result (S i) xs' []))).
  { intros result i xs' IH. constructor; [apply IH|].
    apply Forall_forall. intros j Hj. apply joinLoop_calls_range in Hj. lia. }
  induction xs as [|x xs IH]; intros result i.
  - cbn. constructor.
  - cbn [joinLoop]. destruct (cond x).
    + apply IH.
    + destruct result; cbn; [|apply IH].
      rewrite joinLoop_log. by apply Hcons.
    + destruct result; cbn; [apply IH|].
      rewrite joinLoop_log. by apply Hcons.
Qed.
End JoinFoldFacts.

Lemma hasPermission_elem_of (p : rules.Permission) (permissions : list string) :
  rules.hasPermission p permissions = true <-> rules.Permission_Name p ∈ permissions.
Proof.
  induction permissions as [|q qs IH]; cbn.
  - split; [discriminate|]. intros H. by apply elem_of_nil in H.
  - rewrite elem_of_cons. destruct (String.eqb q (rules.Permission_Name p)) eqn:E.
    + apply String.eqb_eq in E. split; auto.
    + apply String.eqb_neq in E. rewrite IH. split; [auto|].
      intros [H|H]; [congruence|done].
Qed.

(** When every permission after the first is joined by [and], the rule
    allows exactly the users that hold every required permission (the
    sentence above [Allowed] in the source). *)
Theorem Allowed_all_And
    (permissions : list string) (r : rules.Rule)
    (p0 : rules.Permission) (ps : list rules.Permission) :
  rules.Rule_Permissions r = p0 :: ps ->
  Forall (fun p => rules.Permission_Condition p = rules.And) ps ->
  rules.Allowed permissions r = true
  <-> (forall p, p ∈ p0 :: ps -> rules.Permission_Name p ∈ permissions).
Proof.
  intros Hr Hall. rewrite Allowed_joinAll, joinAll_value, Hr.
  rewrite (fold_all_And _ _ _ _ Hall), andb_true_iff, forallb_forall.
  rewrite hasPermission_elem_of. split.
  - intros [H0 Hps] p [->|Hp]%elem_of_cons; [done|].
    apply hasPermission_elem_of, Hps. by apply list_elem_of_In.
  - intros H. split.
    + apply H. apply list_elem_of_here.
    + intros p Hp. apply hasPermission_elem_of, H.
      apply elem_of_cons. right. by apply list_elem_of_In.
Qed.

Lemma Allowed_all_And_witness :
  rules.Allowed ["foo:read"; "foo:admin"]
    (rules.must_have [rules.requires rules.Undefined "foo:admin";
                      rules.requires rules.And "foo:read"]) = true
  <-> (forall p,
         p ∈ [rules.requires rules.Undefined "foo:admin"; rules.requires rules.And "foo:read"] ->
         rules.Permission_Name p ∈ ["foo:read"; "foo:admin"]).
Proof.
  apply (Allowed_all_And ["foo:read"; "foo:admin"] _
           (rules.requires rules.Undefined "foo:admin") [rules.requires rules.And "foo:read"]).
  - reflexivity.
  - repeat constructor.
Defined.

(** When every permission after the first is joined by [or], the rule
    allows exactly the users that hold one of the permissions. *)
Theorem Allowed_all_Or
    (permissions : list string) (r : rules.Rule)
    (p0 : rules.Permission) (ps : list rules.Permission) :
  rules.Rule_Permissions r = p0 :: ps ->
  Forall (fun p => rules.Permission_Condition p = rules.Or) ps ->
  rules.Allowed permissions r = true
  <-> (exists p, p ∈ p0 :: ps /\ rules.Permission_Name p ∈ permissions).
Proof.
  intros Hr Hall. rewrite Allowed_joinAll, joinAll_value, Hr.
  rewrite (fold_all_Or _ _ _ _ Hall), orb_true_iff, existsb_exists.
  rewrite hasPermission_elem_of. split.
  - intros [H0|(p & Hp & Hhas)].
    + exists p0. split; [apply list_elem_of_here|done].
    + exists p. split; [|by apply hasPermission_elem_of].
      apply elem_of_cons. right. by apply list_elem_of_In.
  - intros (p & [->|Hp]%elem_of_cons & Hhas); [by left|].
    right. exists p. split; [by apply list_elem_of_In|by apply hasPermission_elem_of].
Qed.

Lemma Allowed_all_Or_witness :
  rules.Allowed ["foo:read"]
    (rules.must_have [rules.requires rules.Undefined "foo:admin";
                      rules.requires rules.Or "foo:read"]) = true
  <-> (exists p,
         p ∈ [rules.requires rules.Undefined "foo:admin"; rules.requires rules.Or "foo:read"]
         /\ rules.Permission_Name p ∈ ["foo:read"]).
Proof.
  apply (Allowed_all_Or ["foo:read"] _
           (rules.requires rules.Undefined "foo:admin") [rules.requires rules.Or "foo:read"]).
  - reflexivity.
  - repeat constructor.
Defined.

(** Granting a user more permissions never turns an allowed rule into a
    denied one. *)
Theorem Allowed_monotone (permissions permissions' : list string) (r : rules.Rule) :
  (forall name, name ∈ permissions -> name ∈ permissions') ->
  rules.Allowed permissions r = true ->
  rules.Allowed permissions' r = true.
Proof.
  intros Hsub. rewrite !Allowed_joinAll, !joinAll_value.
  assert (Hval : forall p, rules.hasPermission p permissions = true ->
                           rules.hasPermission p permissions' = true).
  { intros p. rewrite !hasPermission_elem_of. apply Hsub. }
  destruct (rules.Rule_Permissions r) as [|p0 ps]; [done|].
  apply fold_monotone; [apply Hval|exact Hval].
Qed.

Lemma Allowed_monotone_witness :
  rules.Allowed ["foo:read"; "foo:admin"]
    (rules.must_have [rules.requires rules.Undefined "foo:read"]) = true.
Proof.
  apply (Allowed_monotone ["foo:read"] ["foo:read"; "foo:admin"]).
  - intros name Hname. apply elem_of_cons. by left; apply list_elem_of_singleton in Hname.
  - reflexivity.
Defined.

(** [Matches] calls [Evaluate] on the first condition whenever there is
    one, and on the others in increasing order of position, each at most
    once and only at positions of the rule. *)
Theorem Matches_calls_in_order
    (EvaluationEnvironment : Type)
    (Evaluate : rules.Expression -> EvaluationEnvironment -> bool)
    (env : EvaluationEnvironment) (r : rules.Rule) :
  StronglySorted lt (rules.calls_of (rules.MatchesM _ Evaluate env r))
  /\ Forall (fun i => i < length (rules.Rule_Conditions r))
       (rules.calls_of (rules.MatchesM _ Evaluate env r))
  /\ match rules.Rule_Conditions r with
     | [] => rules.calls_of (rules.MatchesM _ Evaluate env r) = []
     | _ :: _ => head (rules.calls_of (rules.MatchesM _ Evaluate env r)) = Some 0
     end.
Proof.
  rewrite Matches_calls. destruct (rules.Rule_Conditions r) as [|c0 cs].
  - repeat split; constructor.
  - unfold rules.calls_of, rules.joinAll, rules.bind, rules.call. cbn [app snd].
    rewrite joinLoop_log. cbn [app].
    assert (Hrange : Forall (fun j => 1 <= j < 1 + length cs)
              (snd (rules.joinLoop rules.Expression_Condition (fun c => Evaluate c env)
                      (Evaluate c0 env) 1 cs []))).
    { apply Forall_forall. intros j Hj. by apply joinLoop_calls_range in Hj. }
    split; [|split; [|reflexivity]].
    + constructor; [apply joinLoop_calls_sorted|].
      eapply Forall_impl; [exact Hrange|]. cbn. lia.
    + constructor; [cbn; lia|].
      eapply Forall_impl; [exact Hrange|]. cbn. lia.
Qed.

(** ** Command names *)

Section SplitMore.
Import gostrings.
Variable sep : ascii.

Lemma Split_length (s : string) : length (Split s sep) = S (Count s sep).
Proof.
  induction s as [|ch s IH]; [reflexivity|].
  cbn [Split Count]. pose proof (Split_not_nil sep s) as Hne.
  destruct (Ascii.eqb ch sep); cbn.
  - by rewrite IH.
  - destruct (Split s sep) as [|p ps]; [done|]. cbn in *. exact IH.
Qed.

Lemma Split_no_sep (s : string) : Contains s sep = false -> Split s sep = [s].
Proof.
  induction s as [|ch s IH]; [reflexivity|].
  cbn. destruct (Ascii.eqb ch sep); [discriminate|]. cbn.
  intros H. by rewrite (IH H).
Qed.

Lemma Split_app (a b : string) :
  Contains a sep = false ->
  Split (a ++ String sep b) sep = a :: Split b sep.
Proof.
  induction a as [|ch a IH]; simpl.
  - intros _. by rewrite Ascii.eqb_refl.
  - destruct (Ascii.eqb ch sep); [discriminate|]. cbn.
    intros H. by rewrite (IH H).
Qed.

Lemma Count_app (a b : string) : Count (a ++ b) sep = Count a sep + Count b sep.
Proof. induction a as [|ch a IH]; simpl; [done|]. rewrite IH. lia. Qed.
End SplitMore.

Lemma SplitCommand_snd (name : string) :
  snd (command.SplitCommand name)
  = if (2 <=? gostrings.Count name ":")%nat then Some ErrInvalidBundleCommandPair else None.
Proof.
  unfold command.SplitCommand. pose proof (Split_length ":" name) as Hlen.
  destruct (gostrings.Split name ":") as [|a [|b [|c l]]]; cbn in Hlen.
  - lia.
  - by replace (gostrings.Count name ":") with 0 by lia.
  - by replace (gostrings.Count name ":") with 1 by lia.
  - destruct (2 <=? gostrings.Count name ":")%nat eqn:E; [done|].
    apply Nat.leb_gt in E. lia.
Qed.

(** [SplitCommand] fails exactly on the names with two colons or more,
    always with [ErrInvalidBundleCommandPair], and then returns two empty
    strings; a name it accepts is the join of what it returns. *)
Theorem SplitCommand_error (name : string) :
  (snd (command.SplitCommand name) = Some ErrInvalidBundleCommandPair
   <-> 2 <= gostrings.Count name ":")
  /\ (snd (command.SplitCommand name) = None <-> gostrings.Count name ":" <= 1)
  /\ (snd (command.SplitCommand name) <> None -> fst (command.SplitCommand name) = ("", ""))
  /\ (forall bundle cmd, command.SplitCommand name = (bundle, cmd, None) ->
        name = cmd \/ name = (bundle ++ ":" ++ cmd)%string).
Proof.
  pose proof (SplitCommand_snd name) as Hsnd.
  destruct (2 <=? gostrings.Count name ":")%nat eqn:E;
    [apply Nat.leb_le in E|apply Nat.leb_gt in E].
  - split_and!.
    + by rewrite Hsnd.
    + rewrite Hsnd. split; [discriminate|lia].
    + intros _. unfold command.SplitCommand in *.
      by destruct (gostrings.Split name ":") as [|a [|b [|c l]]].
    + intros bundle cmd H. rewrite H in Hsnd. discriminate.
  - split_and!.
    + rewrite Hsnd. split; [discriminate|lia].
    + rewrite Hsnd. split; [lia|done].
    + by rewrite Hsnd.
    + intros bundle cmd H. pose proof (Join_Split ":" name) as Hjoin.
      unfold command.SplitCommand in H.
      destruct (gostrings.Split name ":") as [|a [|b [|c l]]]; try discriminate.
      * injection H as _ <-. left. by rewrite <- Hjoin.
      * injection H as <- <-. right. by rewrite <- Hjoin.
Qed.

(** [SplitCommand] inverts the two ways a name is written: a command
    without colon comes back with an empty bundle, and [bundle:command]
    comes back as the pair, for colon-free parts. *)
Theorem SplitCommand_roundtrip (bundle cmd : string) :
  gostrings.Contains bundle ":" = false ->
  gostrings.Contains cmd ":" = false ->
  command.SplitCommand cmd = ("", cmd, None)
  /\ command.SplitCommand (bundle ++ ":" ++ cmd) = (bundle, cmd, None).
Proof.
  intros Hb Hc. unfold command.SplitCommand. split.
  - by rewrite Split_no_sep.
  - change (bundle ++ ":" ++ cmd)%string with (bundle ++ String ":" cmd)%string.
    by rewrite Split_app, Split_no_sep.
Qed.

Lemma SplitCommand_roundtrip_witness :
  command.SplitCommand "bar" = ("", "bar", None)
  /\ command.SplitCommand ("foo" ++ ":" ++ "bar") = ("foo", "bar", None).
Proof. apply (SplitCommand_roundtrip "foo" "bar"); reflexivity. Defined.

(** ** Command parsing: errors *)

Section ParseErrors.
Import command.
Variable Infer : string -> types.Value * option error.

Lemma InferAll_error (strs : list string) (e : error) :
  snd (InferAll Infer strs) = Some e ->
  exists t, t ∈ strs /\ snd (Infer t) = Some e.
Proof.
  induction strs as [|s strs IH]; cbn; [discriminate|].
  destruct (Infer s) as [v [err|]] eqn:Hs.
  - cbn. intros [= ->]. exists s. rewrite Hs. split; [apply list_elem_of_here|done].
  - destruct (InferAll Infer strs) as [vs [err|]]; cbn in *; [|discriminate].
    intros [= ->]. destruct (IH eq_refl) as (t & Ht & He).
    exists t. split; [by apply list_elem_of_further|done].
Qed.

Lemma ParseLoop_error (po : parseOptions) (tokens : list string) (e : error) :
  forall cmd lastOption,
    snd (ParseLoop Infer po cmd lastOption tokens) = Some e ->
    exists t, t ∈ tokens /\ snd (Infer t) = Some e.
Proof.
  induction tokens as [|t rest IH]; intros cmd lastOption; cbn [ParseLoop]; [discriminate|].
  assert (Hfurther : forall c lo,
            snd (ParseLoop Infer po c lo rest) = Some e ->
            exists t', t' ∈ t :: rest /\ snd (Infer t') = Some e).
  { intros c lo H. destruct (IH c lo H) as (t' & Ht' & He).
    exists t'. split; [by apply list_elem_of_further|done]. }
  assert (Hparams : forall strs,
            (forall t', t' ∈ strs -> t' ∈ t :: rest) ->
            snd (parameters Infer cmd strs) = Some e ->
            exists t', t' ∈ t :: rest /\ snd (Infer t') = Some e).
  { intros strs Hsub H. unfold parameters in H. cbn in H.
    destruct (InferAll_error strs e H) as (t' & Ht' & He). exists t'. auto. }
  destruct (String.eqb t "--").
  { apply Hparams. intros t' Ht'. by apply list_elem_of_further. }
  destruct ((2 <=? String.length t)%nat && (dashCount t =? 2)%nat); [apply Hfurther|].
  destruct ((1 <=? String.length t)%nat && (dashCount t =? 1)%nat).
  { destruct (agnosticDashes po); [apply Hfurther|].
    destruct (shortOptions po (gostrings.runes (gostrings.from 1 t)) (cmd, lastOption)).
    apply Hfurther. }
  destruct lastOption as [o|]; [|by apply Hparams].
  match goal with |- context [if ?b then _ else _] => destruct b end; [|by apply Hparams].
  destruct (Infer t) as [term [err|]] eqn:Ht.
  - cbn. intros [= ->]. exists t. rewrite Ht. split; [apply list_elem_of_here|done].
  - apply Hfurther.
Qed.

(** The errors of [Parse]: the empty token list and a first token with
    two colons or more are reported by [Parse] itself, with the zero
    command; every other error is the error the inferrer returned on one
    of the tokens after the first. *)
Theorem Parse_error_classification
    (tokens : list string) (options : list ParseOption) (e : error) :
  snd (Parse Infer tokens options) = Some e ->
  (tokens = [] /\ Parse Infer tokens options = (Command_zero, Some (Errorf "empty tokens list")))
  \/ (exists name rest,
        tokens = name :: rest /\ 2 <= gostrings.Count name ":"
        /\ Parse Infer tokens options
           = (Command_zero, Some (Errorf_w "command parse failure" ErrInvalidBundleCommandPair)))
  \/ (exists name rest t,
        tokens = name :: rest /\ gostrings.Count name ":" < 2
        /\ t ∈ rest /\ snd (Infer t) = Some e).
Proof.
  unfold Parse. destruct tokens as [|name rest]; [by left|].
  pose proof (SplitCommand_snd name) as Hsplit.
  destruct (SplitCommand name) as [[bundle cmdname] err]. cbn [snd] in Hsplit. subst err.
  destruct (2 <=? gostrings.Count name ":")%nat eqn:E.
  - apply Nat.leb_le in E. intros _. right. left. exists name, rest.
    split; [reflexivity|]. split; [exact E|reflexivity].
  - apply Nat.leb_gt in E. intros H. right. right.
    destruct (ParseLoop_error _ _ _ _ _ H) as (t & Ht & He).
    exists name, rest, t. auto.
Qed.
End ParseErrors.

Lemma Parse_error_classification_witness :
  let Infer := infer.Infer (fun _ => false) in
  let tokens := ["foo:bar"; "--"; "/x/"] in
  let e := Errorf "invalid regular expression" in
  (tokens = [] /\ command.Parse Infer tokens []
                  = (command.Command_zero, Some (Errorf "empty tokens list")))
  \/ (exists name rest,
        tokens = name :: rest /\ 2 <= gostrings.Count name ":"
        /\ command.Parse Infer tokens []
           = (command.Command_zero,
              Some (Errorf_w "command parse failure" ErrInvalidBundleCommandPair)))
  \/ (exists name rest t,
        tokens = name :: rest /\ gostrings.Count name ":" < 2
        /\ t ∈ rest /\ snd (Infer t) = Some e).
Proof.
  apply (Parse_error_classification (infer.Infer (fun _ => false))
           ["foo:bar"; "--"; "/x/"] [] (Errorf "invalid regular expression")).
  vm_compute. reflexivity.
Defined.

(** ** Command parsing: options and parameters *)

Section ParseOptionsFacts.
Import command.
Variable Infer : string -> types.Value * option error.

Lemma setOption_keyed (o : CommandOption) (cmd : Command) :
  keyed (Command_Options cmd) -> keyed (Command_Options (setOption o cmd)).
Proof.
  intros Hk k o'. cbn. intros [[<- <-]|[_ H]]%lookup_insert_Some; [done|by apply Hk].
Qed.

Lemma shortOptions_fold (po : parseOptions) (chs : list string) : forall cmd lastOption,
  fst (shortOptions po chs (cmd, lastOption))
  = fold_left (fun c o => setOption o c) (map (fun name => buildOption name po) chs) cmd.
Proof.
  induction chs as [|ch chs IH]; intros cmd lastOption; [reflexivity|].
  cbn [shortOptions map fold_left fst]. apply IH.
Qed.

Lemma fold_setOption_keyed (os : list CommandOption) : forall cmd,
  keyed (Command_Options cmd) ->
  keyed (Command_Options (fold_left (fun c o => setOption o c) os cmd)).
Proof.
  induction os as [|o os IH]; intros cmd Hk; [done|].
  cbn. apply IH. by apply setOption_keyed.
Qed.

Lemma ParseLoop_keyed (po : parseOptions) (tokens : list string) :
  forall cmd lastOption,
    keyed (Command_Options cmd) ->
    keyed (Command_Options (fst (ParseLoop Infer po cmd lastOption tokens))).
Proof.
  induction tokens as [|t rest IH]; intros cmd lastOption Hk; [done|].
  cbn [ParseLoop].
  destruct (String.eqb t "--"); [done|].
  destruct ((2 <=? String.length t)%nat && (dashCount t =? 2)%nat).
  { apply IH. by apply setOption_keyed. }
  destruct ((1 <=? String.length t)%nat && (dashCount t =? 1)%nat).
  { destruct (agnosticDashes po); [apply IH; by apply setOption_keyed|].
    pose proof (shortOptions_fold po (gostrings.runes (gostrings.from 1 t)) cmd lastOption)
      as Hfold.
    destruct (shortOptions po (gostrings.runes (gostrings.from 1 t)) (cmd, lastOption))
      as [cmd' lastOption'].
    cbn [fst] in Hfold. subst cmd'. apply IH. by apply fold_setOption_keyed. }
  destruct lastOption as [o|]; [|done].
  match goal with |- context [if ?b then _ else _] => destruct b end; [|done].
  destruct (Infer t) as [term [err|]]; [done|].
  apply IH. by apply setOption_keyed.
Qed.

Lemma keyed_empty : keyed ∅.
Proof. intros k o H. by rewrite lookup_empty in H. Qed.

Lemma Parse_keyed (tokens : list string) (options : list ParseOption) :
  keyed (Command_Options (fst (Parse Infer tokens options))).
Proof.
  unfold Parse. destruct tokens as [|name rest]; [apply keyed_empty|].
  destruct (SplitCommand name) as [[bundle cmdname] [err|]]; [apply keyed_empty|].
  apply ParseLoop_keyed, keyed_empty.
Qed.

(** Whatever the tokens and the parse options, every option of the
    command [Parse] returns is stored under its own name. *)
Theorem Parse_options_keyed
    (tokens : list string) (options : list ParseOption) (k : string) (o : CommandOption) :
  Command_Options (fst (Parse Infer tokens options)) !! k = Some o ->
  CommandOption_Name o = k.
Proof. apply Parse_keyed. Qed.

(** ** [OptionsValues] *)

Lemma OptionsValuesIn_lookup (os : list CommandOption) :
  forall (m : gmap string types.Value),
  NoDup (CommandOption_Name <$> os) ->
  (forall o, o ∈ os ->
     fold_left (fun m o => <[CommandOption_Name o := CommandOption_Value o]> m) os m
       !! CommandOption_Name o = Some (CommandOption_Value o))
  /\ (forall k, k ∉ CommandOption_Name <$> os ->
     fold_left (fun m o => <[CommandOption_Name o := CommandOption_Value o]> m) os m !! k
     = m !! k).
Proof.
  induction os as [|o os IH]; intros m Hnd.
  - split; [intros o Ho; by apply elem_of_nil in Ho|done].
  - rewrite fmap_cons in Hnd. apply NoDup_cons in Hnd as [Ho Hnd]. cbn [fold_left].
    destruct (IH (<[CommandOption_Name o := CommandOption_Value o]> m) Hnd) as [Hin Hout].
    split.
    + intros o' [->|Ho']%elem_of_cons; [|by apply Hin].
      rewrite (Hout _ Ho). apply lookup_insert_eq.
    + intros k Hk. rewrite fmap_cons in Hk. apply not_elem_of_cons in Hk as [Hne Hk].
      rewrite (Hout _ Hk). by apply lookup_insert_ne.
Qed.

Lemma OptionsValuesIn_keyed (m : gmap string CommandOption) (os : list CommandOption) :
  keyed m -> traversal m os -> OptionsValuesIn os = CommandOption_Value <$> m.
Proof.
  intros Hk Hos. unfold traversal in Hos.
  assert (Hin : forall o, o ∈ os <-> exists k, m !! k = Some o).
  { intros o. rewrite Hos, list_elem_of_fmap. split.
    - intros ([k o'] & -> & H%elem_of_map_to_list). by exists k.
    - intros [k H]. exists (k, o). split; [done|by apply elem_of_map_to_list]. }
  assert (Hnd : NoDup (CommandOption_Name <$> os)).
  { rewrite Hos, <- list_fmap_compose.
    rewrite (list_fmap_ext (CommandOption_Name ∘ snd) fst (map_to_list m)).
    - apply NoDup_fst_map_to_list.
    - intros i [k o] Hi. cbn. apply Hk. apply elem_of_map_to_list.
      by apply list_elem_of_lookup_2 in Hi. }
  destruct (OptionsValuesIn_lookup os ∅ Hnd) as [Hfound Hmissing].
  apply map_eq. intros k. unfold OptionsValuesIn. rewrite lookup_fmap.
  destruct (m !! k) as [o|] eqn:Hm; cbn.
  - rewrite <- (Hk _ _ Hm). apply Hfound, Hin. by exists k.
  - rewrite Hmissing; [apply lookup_empty|].
    intros (o & -> & Ho)%list_elem_of_fmap. apply Hin in Ho as [k' Hk'].
    rewrite (Hk _ _ Hk') in Hm. congruence.
Qed.

(** [OptionsValues] of a command returned by [Parse] maps every option
    name to the option's value, in whatever order the options map is
    traversed. *)
Theorem OptionsValues_of_Parse
    (tokens : list string) (options : list ParseOption) (os : list CommandOption) :
  traversal (Command_Options (fst (Parse Infer tokens options))) os ->
  OptionsValuesIn os
  = CommandOption_Value <$> Command_Options (fst (Parse Infer tokens options)).
Proof. apply OptionsValuesIn_keyed, Parse_keyed. Qed.
End ParseOptionsFacts.

Lemma Parse_options_keyed_witness :
  command.CommandOption_Name (command.flag "flag=42" (types.BoolValue true)) = "flag=42".
Proof.
  apply (Parse_options_keyed (infer.Infer (fun _ => true)) command.scenario1_tokens []).
  vm_compute. reflexivity.
Defined.

Lemma OptionsValues_of_Parse_witness :
  let cmd := fst (command.Parse (infer.Infer (fun _ => true)) ["foo:bar"; "-ab"] []) in
  command.OptionsValuesIn
    [command.flag "b" (types.BoolValue true); command.flag "a" (types.BoolValue true)]
  = command.CommandOption_Value <$> command.Command_Options cmd.
Proof.
  apply (OptionsValues_of_Parse (infer.Infer (fun _ => true)) ["foo:bar"; "-ab"] []).
  unfold command.traversal.
  assert (Hopts : (map_to_list
            (command.Command_Options
               (fst (command.Parse (infer.Infer (fun _ => true)) ["foo:bar"; "-ab"] [])))).*2
          = [command.flag "a" (types.BoolValue true);
             command.flag "b" (types.BoolValue true)]) by (vm_compute; reflexivity).
  rewrite Hopts. apply Permutation_swap.
Defined.

(** ** Command parsing when no option takes an argument *)

Section ParseWithoutArguments.
Import command.
Variable Infer : string -> types.Value * option error.
Variable po : parseOptions.
Hypothesis no_assumed_arguments : assumeOptionArguments po = false.
Hypothesis no_declared_arguments : forall k, hasArg po !! k <> Some true.

Lemma dashCount_le_length (t : string) : dashCount t <= String.length t.
Proof.
  induction t as [|ch t IH]; cbn; [lia|]. destruct (Ascii.eqb ch "-"); lia.
Qed.

Lemma setParameters_nil (cmd : Command) :
  Command_Parameters cmd = [] -> setParameters [] cmd = cmd.
Proof. destruct cmd. cbn. by intros ->. Qed.

Lemma fold_setOption_Parameters (os : list CommandOption) : forall cmd,
  Command_Parameters (fold_left (fun c o => setOption o c) os cmd) = Command_Parameters cmd.
Proof. induction os as [|o os IH]; intros cmd; [done|]. cbn. by rewrite IH. Qed.

Lemma optionsOf_cons (t : string) (rest : list string) :
  isOptionToken t = true ->
  optionsOf po (t :: rest)
  = map (fun name => buildOption name po) (optionNames po t) ++ optionsOf po rest.
Proof.
  intros Ht. unfold optionsOf. cbn [leadingOptions]. rewrite Ht. cbn [map concat].
  by rewrite map_app.
Qed.

Lemma optionsOf_stop (t : string) (rest : list string) :
  isOptionToken t = false -> optionsOf po (t :: rest) = [].
Proof. intros Ht. unfold optionsOf. cbn [leadingOptions]. by rewrite Ht. Qed.

(** The loop of [Parse] sets the options of the leading option tokens and
    infers the parameters from what follows them. *)
Lemma ParseLoop_without_arguments (tokens : list string) : forall cmd lastOption,
  Command_Parameters cmd = [] ->
  ParseLoop Infer po cmd lastOption tokens
  = parameters Infer (fold_left (fun c o => setOption o c) (optionsOf po tokens) cmd)
      (afterOptions tokens).
Proof.
  induction tokens as [|t rest IH]; intros cmd lastOption Hparams.
  - cbn. unfold parameters. cbn. by rewrite setParameters_nil.
  - cbn [ParseLoop afterOptions]. unfold isOptionToken at 1.
    pose proof (dashCount_le_length t) as Hle.
    destruct (String.eqb t "--") eqn:Hdd; cbn [negb andb].
    { rewrite optionsOf_stop; [done|]. unfold isOptionToken. by rewrite Hdd. }
    destruct (dashCount t =? 2)%nat eqn:H2.
    { assert (Hopt : isOptionToken t = true).
      { unfold isOptionToken. by rewrite Hdd, H2, orb_true_r. }
      replace (2 <=? String.length t)%nat with true
        by (symmetry; apply Nat.leb_le; apply Nat.eqb_eq in H2; lia).
      cbn [andb orb]. rewrite orb_true_r, (optionsOf_cons _ _ Hopt).
      unfold optionNames. rewrite H2. cbn [map app fold_left].
      by apply IH. }
    rewrite andb_false_r.
    destruct (dashCount t =? 1)%nat eqn:H1.
    { assert (Hopt : isOptionToken t = true).
      { unfold isOptionToken. by rewrite Hdd, H1. }
      replace (1 <=? String.length t)%nat with true
        by (symmetry; apply Nat.leb_le; apply Nat.eqb_eq in H1; lia).
      cbn [andb orb]. rewrite (optionsOf_cons _ _ Hopt).
      unfold optionNames. rewrite H2. rewrite fold_left_app.
      destruct (agnosticDashes po).
      - cbn [map fold_left]. by apply IH.
      - pose proof (shortOptions_fold po (gostrings.runes (gostrings.from 1 t)) cmd lastOption)
          as Hfold.
        destruct (shortOptions po (gostrings.runes (gostrings.from 1 t)) (cmd, lastOption))
          as [cmd' lastOption'].
        cbn [fst] in Hfold. subst cmd'. apply IH.
        by rewrite fold_setOption_Parameters. }
    rewrite andb_false_r. cbn [orb].
    rewrite optionsOf_stop by (unfold isOptionToken; by rewrite Hdd, H1, H2).
    cbn [fold_left].
    destruct lastOption as [o|]; [|done].
    rewrite no_assumed_arguments, andb_false_r, orb_false_r.
    pose proof (no_declared_arguments (CommandOption_Name o)) as Hno.
    destruct (hasArg po !! CommandOption_Name o) as [[|]|]; [done| |]; cbn;
      first [by rewrite andb_false_r | done].
Qed.

Lemma fold_setOption_lookup (os : list CommandOption) (k : string) : forall cmd,
  Forall (fun o => CommandOption_Value o = types.BoolValue true) os ->
  Command_Options (fold_left (fun c o => setOption o c) os cmd) !! k
  = if bool_decide (k ∈ CommandOption_Name <$> os)
    then Some (flag k (types.BoolValue true))
    else Command_Options cmd !! k.
Proof.
  induction os as [|o os IH]; intros cmd Hall.
  - cbn. rewrite bool_decide_eq_false_2; [done|]. apply not_elem_of_nil.
  - apply Forall_cons in Hall as [Ho Hall]. cbn [fold_left]. rewrite (IH _ Hall).
    rewrite fmap_cons. destruct (decide (k ∈ CommandOption_Name <$> os)) as [Hin|Hout].
    + rewrite !bool_decide_eq_true_2; [done| |done]. by apply list_elem_of_further.
    + rewrite (bool_decide_eq_false_2 _ Hout). cbn [setOption Command_Options].
      destruct (decide (CommandOption_Name o = k)) as [<-|Hne].
      * rewrite lookup_insert_eq, bool_decide_eq_true_2 by apply list_elem_of_here.
        destruct o as [n v]. cbn in *. by subst v.
      * rewrite lookup_insert_ne by done.
        rewrite bool_decide_eq_false_2; [done|].
        intros [?|?]%elem_of_cons; congruence.
Qed.

Lemma optionsOf_values (tokens : list string) :
  Forall (fun o => CommandOption_Value o = types.BoolValue true) (optionsOf po tokens).
Proof. unfold optionsOf. apply Forall_forall. by intros o (n & -> & _)%list_elem_of_fmap. Qed.
End ParseWithoutArguments.

(** When no option is declared or assumed to take an argument, [Parse] is
    this: the option tokens that open the list give the options, each
    under its (aliased) name with the value [Bool(true)]; the tokens that
    follow them, less the [--] that may close the options, are the
    positional parameters, and the only error is the inferrer's on one of
    those. *)
Theorem Parse_without_arguments
    (Infer : string -> types.Value * option error)
    (name : string) (rest : list string) (options : list command.ParseOption) :
  let po := command.parseOptionsOf options in
  let r := command.Parse Infer (name :: rest) options in
  snd (command.SplitCommand name) = None ->
  command.assumeOptionArguments po = false ->
  (forall k, command.hasArg po !! k <> Some true) ->
  snd r = snd (command.InferAll Infer (command.afterOptions rest))
  /\ command.Command_Parameters (fst r)
     = fst (command.InferAll Infer (command.afterOptions rest))
  /\ (forall k,
        command.Command_Options (fst r) !! k
        = if bool_decide (k ∈ command.CommandOption_Name <$> command.optionsOf po rest)
          then Some (command.flag k (types.BoolValue true))
          else None).
Proof.
  intros po r Hsplit Hassume Hhas. subst r. unfold command.Parse.
  fold (command.parseOptionsOf options). fold po.
  destruct (command.SplitCommand name) as [[bundle cmdname] err]. cbn in Hsplit. subst err.
  rewrite (ParseLoop_without_arguments Infer po Hassume Hhas) by reflexivity.
  unfold command.parameters. cbn [fst snd command.setParameters
                                  command.Command_Parameters command.Command_Options].
  split; [reflexivity|]. split; [reflexivity|].
  intros k. rewrite (fold_setOption_lookup _ k) by apply optionsOf_values.
  cbn [command.Command_Options]. by rewrite lookup_empty.
Qed.

Lemma Parse_without_arguments_witness :
  let Infer := infer.Infer (fun _ => true) in
  let po := command.parseOptionsOf [command.ParseOptionAlias "v" "verbose"] in
  let rest := ["-v"; "--dry-run"; "--"; "-x"; "42"] in
  let r := command.Parse Infer ("foo:bar" :: rest) [command.ParseOptionAlias "v" "verbose"] in
  snd r = snd (command.InferAll Infer ["-x"; "42"])
  /\ command.Command_Parameters (fst r) = [types.StringValue "-x"; types.IntValue 42]
  /\ (forall k,
        command.Command_Options (fst r) !! k
        = if bool_decide (k ∈ ["verbose"; "dry-run"])
          then Some (command.flag k (types.BoolValue true))
          else None).
Proof.
  apply (Parse_without_arguments (infer.Infer (fun _ => true)) "foo:bar"
           ["-v"; "--dry-run"; "--"; "-x"; "42"] [command.ParseOptionAlias "v" "verbose"]).
  - reflexivity.
  - reflexivity.
  - intros k. cbn. rewrite lookup_empty. discriminate.
Defined.

(** ** Command parsing: an option with an argument *)

Lemma dashCount_long (f : string) :
  command.dashCount f = 0 -> command.dashCount ("--" ++ f) = 2.
Proof.
  intros H. change (command.dashCount ("--" ++ f)) with (S (S (command.dashCount f))).
  by rewrite H.
Qed.

(** A long option, wherever it stands in the token list and whatever
    was parsed before it, followed by a token that is neither [--] nor an
    option.  When the option takes an argument (it is declared so, or it
    is not declared and arguments are assumed), the token is inferred:
    its value replaces the option's [true] and parsing goes on with no
    pending option, and an error of the inferrer is returned with the
    option still [true].  Otherwise the token and all that follow are the
    parameters.  In particular for the first option of a command line. *)
Theorem Parse_option_argument
    (Infer : string -> types.Value * option error) (po : command.parseOptions)
    (f v : string) (rest : list string) :
  let n := command.CommandOption_Name (command.buildOption f po) in
  let hasArgument := match command.hasArg po !! n with
                     | Some explicitHas => explicitHas
                     | None => command.assumeOptionArguments po
                     end in
  f <> "" ->
  command.dashCount f = 0 ->
  String.eqb v "--" = false ->
  command.isOptionToken v = false ->
  (forall (cmd : command.Command) (lastOption : option command.CommandOption),
     command.ParseLoop Infer po cmd lastOption (("--" ++ f)%string :: v :: rest)
     = if hasArgument then
         match Infer v with
         | (_, Some err) =>
             (command.setOption (command.flag n (types.BoolValue true)) cmd, Some err)
         | (val, None) =>
             command.ParseLoop Infer po (command.setOption (command.flag n val) cmd) None rest
         end
       else command.parameters Infer
              (command.setOption (command.flag n (types.BoolValue true)) cmd) (v :: rest))
  /\ (forall (name bundle cmdname : string) (options : list command.ParseOption)
        (val : types.Value),
        po = command.parseOptionsOf options ->
        command.SplitCommand name = (bundle, cmdname, None) ->
        command.hasArg po !! n = Some true ->
        Infer v = (val, None) ->
        command.Parse Infer (name :: ("--" ++ f)%string :: v :: rest) options
        = command.ParseLoop Infer po
            {| command.Command_Bundle := bundle; command.Command_Command := cmdname;
               command.Command_Options := {[ n := command.flag n val ]};
               command.Command_Parameters := [] |}
            None rest).
Proof.
  intros n hasArgument Hf Hdash Hv Hopt.
  assert (Hloop : forall cmd lastOption,
     command.ParseLoop Infer po cmd lastOption (("--" ++ f)%string :: v :: rest)
     = if hasArgument then
         match Infer v with
         | (_, Some err) =>
             (command.setOption (command.flag n (types.BoolValue true)) cmd, Some err)
         | (val, None) =>
             command.ParseLoop Infer po (command.setOption (command.flag n val) cmd) None rest
         end
       else command.parameters Infer
              (command.setOption (command.flag n (types.BoolValue true)) cmd) (v :: rest)).
  { intros cmd lastOption. cbn [command.ParseLoop].
    assert (Hnot : String.eqb ("--" ++ f) "--" = false).
    { apply String.eqb_neq. intros H. apply Hf. destruct f; [done|discriminate]. }
    rewrite Hnot.
    assert (Hlen : (2 <=? String.length ("--" ++ f))%nat = true) by reflexivity.
    rewrite Hlen, (dashCount_long f Hdash). cbn [Nat.eqb andb].
    change (gostrings.from 2 ("--" ++ f)) with f.
    rewrite Hv. unfold command.isOptionToken in Hopt. rewrite Hv in Hopt.
    cbn [negb andb] in Hopt.
    apply orb_false_iff in Hopt as [H1 H2]. rewrite H1, H2, !andb_false_r.
    fold n. subst hasArgument.
    assert (Hflag : command.buildOption f po = command.flag n (types.BoolValue true))
      by reflexivity.
    rewrite Hflag.
    destruct (command.hasArg po !! n) as [[|]|] eqn:Hhas; cbn [default negb andb orb].
    - rewrite (bool_decide_eq_true_2 _ (ltac:(by eexists) : is_Some (Some true))).
      cbn [andb orb].
      destruct (Infer v) as [val [err|]]; [reflexivity|].
      f_equal. unfold command.setOption, command.flag. cbn. f_equal.
      apply insert_insert_eq.
    - rewrite (bool_decide_eq_true_2 _ (ltac:(by eexists) : is_Some (Some false))).
      reflexivity.
    - rewrite (bool_decide_eq_false_2 _ (ltac:(by intros [? ?]) : ~ is_Some (@None bool))).
      cbn [negb andb orb].
      destruct (command.assumeOptionArguments po); [|reflexivity].
      destruct (Infer v) as [val [err|]]; [reflexivity|].
      f_equal. unfold command.setOption, command.flag. cbn. f_equal.
      apply insert_insert_eq. }
  split; [exact Hloop|].
  intros name bundle cmdname options val Hpo Hsplit Hhas Hinfer.
  unfold command.Parse. fold (command.parseOptionsOf options). rewrite <- Hpo.
  rewrite Hsplit, Hloop. subst hasArgument. cbn zeta. rewrite Hhas, Hinfer.
  reflexivity.
Qed.

Lemma Parse_option_argument_witness :
  let Infer := infer.Infer (fun _ => true) in
  let po := command.parseOptionsOf [command.ParseOptionHasArgument "count" true] in
  let cmd := {| command.Command_Bundle := "foo"; command.Command_Command := "bar";
                command.Command_Options :=
                  {[ "v" := command.flag "v" (types.BoolValue true) ]};
                command.Command_Parameters := [] |} in
  command.ParseLoop Infer po cmd (Some (command.flag "v" (types.BoolValue true)))
    [("--" ++ "count")%string; "42"; "x"]
  = command.ParseLoop Infer po
      (command.setOption (command.flag "count" (types.IntValue 42)) cmd) None ["x"].
Proof.
  intros Infer po cmd.
  exact (proj1 (Parse_option_argument (infer.Infer (fun _ => true))
                  (command.parseOptionsOf [command.ParseOptionHasArgument "count" true])
                  "count" "42" ["x"]
                  (fun H : "count" = "" => eq_ind "count"
                             (fun s => match s with "" => False | _ => True end) I "" H)
                  eq_refl eq_refl eq_refl)
               cmd (Some (command.flag "v" (types.BoolValue true)))).
Defined.

(** ** The rule parser *)

Section RuleParserFacts.
Import rules ruleparser.
Variable Infer : string -> types.Value * option error.
Variable FindStringSubmatch : string -> list string.

Lemma isKeyword_false (s : string) :
  isKeyword s = false -> String.eqb s "and" = false /\ String.eqb s "or" = false.
Proof. unfold isKeyword. apply orb_false_iff. Qed.

Lemma permissionsLoop_names (j : LogicalOperator) (names rest : list string) :
  forall perms,
    Forall (fun n => isKeyword n = false) names ->
    permissionsLoop j perms (names ++ rest)
    = permissionsLoop j (perms ++ map (requires j) names) rest.
Proof.
  induction names as [|n names IH]; intros perms Hall; cbn [app map].
  - by rewrite app_nil_r.
  - apply Forall_cons in Hall as [Hn Hall]. apply isKeyword_false in Hn as [Hand Hor].
    cbn [permissionsLoop]. rewrite Hand, Hor, (IH _ Hall), <- app_assoc. reflexivity.
Qed.

Lemma permissionsLoop_keyword (j0 j : LogicalOperator) (perms : list Permission)
    (rest : list string) :
  j <> Undefined ->
  permissionsLoop j0 perms (keyword j :: rest) = permissionsLoop j perms rest.
Proof. destruct j; [done| |]; reflexivity. Qed.

Lemma permissionsLoop_groups (groups : list (LogicalOperator * list string)) :
  forall j perms,
    Forall (fun g => fst g <> Undefined /\ Forall (fun n => isKeyword n = false) (snd g))
      groups ->
    permissionsLoop j perms (concat (map (fun g => keyword (fst g) :: snd g) groups))
    = perms ++ concat (map (fun g => map (requires (fst g)) (snd g)) groups).
Proof.
  induction groups as [|[k names] groups IH]; intros j perms Hall; cbn [map concat].
  - by rewrite app_nil_r.
  - apply Forall_cons in Hall as [[Hk Hnames] Hall]. cbn [fst snd] in *.
    change ((keyword k :: names) ++ ?l) with (keyword k :: names ++ l).
    rewrite (permissionsLoop_keyword _ _ _ _ Hk), (permissionsLoop_names _ _ _ _ Hnames).
    rewrite (IH _ _ Hall), app_assoc. reflexivity.
Qed.

Lemma Parse_permissions (rt : RuleTokens) :
  Rule_Permissions (fst (Parse Infer FindStringSubmatch rt))
  = permissionsLoop Undefined [] (RuleTokens_Permissions rt).
Proof.
  unfold Parse. by destruct (conditionsLoop Infer FindStringSubmatch _ _ _).
Qed.

(** The permission tokens are names and keywords.  The names before the
    first keyword become permissions with an undefined join, and every
    name behind a keyword becomes a permission joined by the last keyword
    before it: [a and b c or d] requires [a], [and b], [and c], [or d]. *)
Theorem Parse_permission_groups
    (rt : RuleTokens) (names : list string) (groups : list (LogicalOperator * list string)) :
  RuleTokens_Permissions rt = grouped names groups ->
  Forall (fun n => isKeyword n = false) names ->
  Forall (fun g => fst g <> Undefined /\ Forall (fun n => isKeyword n = false) (snd g))
    groups ->
  Rule_Permissions (fst (Parse Infer FindStringSubmatch rt)) = requiredBy names groups.
Proof.
  intros Hrt Hnames Hgroups. rewrite Parse_permissions, Hrt. unfold grouped, requiredBy.
  rewrite (permissionsLoop_names _ _ _ _ Hnames). cbn [app].
  by apply permissionsLoop_groups.
Qed.

Lemma permissionsLoop_filter (ps : list string) : forall j perms,
  Permission_Name <$> permissionsLoop j perms ps
  = (Permission_Name <$> perms) ++ filter (fun s => isKeyword s = false) ps.
Proof.
  induction ps as [|p ps IH]; intros j perms; cbn [permissionsLoop].
  - by rewrite app_nil_r.
  - destruct (String.eqb p "and") eqn:Hand.
    { rewrite IH, filter_cons_False; [done|]. unfold isKeyword. by rewrite Hand. }
    destruct (String.eqb p "or") eqn:Hor.
    { rewrite IH, filter_cons_False; [done|]. unfold isKeyword. by rewrite Hand, Hor. }
    rewrite IH, fmap_app, <- app_assoc, filter_cons_True; [done|].
    unfold isKeyword. by rewrite Hand, Hor.
Qed.

(** [Parse] makes a permission of every permission token that is not
    [and] or [or], in order, and of no other: the names of the parsed
    permissions are the tokens without the keywords. *)
Theorem Parse_permission_names (rt : RuleTokens) :
  Permission_Name <$> Rule_Permissions (fst (Parse Infer FindStringSubmatch rt))
  = filter (fun s => isKeyword s = false) (RuleTokens_Permissions rt)
  /\ Forall (fun p => Permission_Name p <> "and" /\ Permission_Name p <> "or")
       (Rule_Permissions (fst (Parse Infer FindStringSubmatch rt))).
Proof.
  assert (Hnames : Permission_Name <$> Rule_Permissions (fst (Parse Infer FindStringSubmatch rt))
                   = filter (fun s => isKeyword s = false) (RuleTokens_Permissions rt)).
  { rewrite Parse_permissions, permissionsLoop_filter. reflexivity. }
  split; [exact Hnames|].
  apply Forall_forall. intros p Hp.
  assert (Hin : Permission_Name p
                ∈ filter (fun s => isKeyword s = false) (RuleTokens_Permissions rt)).
  { rewrite <- Hnames. by apply list_elem_of_fmap_2. }
  apply list_elem_of_filter in Hin as [Hkw _]. apply isKeyword_false in Hkw as [Hand Hor].
  split; [by apply String.eqb_neq in Hand|by apply String.eqb_neq in Hor].
Qed.

Lemma conditionsLoop_accepted (cs : list string) : forall j conds,
  snd (conditionsLoop Infer FindStringSubmatch j conds cs) = None
  <-> Forall (accepted Infer FindStringSubmatch) cs.
Proof.
  induction cs as [|c cs IH]; intros j conds; cbn [conditionsLoop].
  - split; [constructor|done].
  - rewrite Forall_cons. unfold accepted at 1. unfold isKeyword.
    destruct (String.eqb c "and") eqn:Hand.
    { rewrite IH. cbn. split; [auto|tauto]. }
    destruct (String.eqb c "or") eqn:Hor.
    { rewrite IH. cbn. split; [auto|tauto]. }
    cbn [orb].
    destruct (ParseExpression FindStringSubmatch c) as [[[[a b] o] m]|err] eqn:HP.
    + destruct (Infer a) as [va [erra|]] eqn:Ha.
      { cbn. split; [discriminate|].
        intros [[H|(a' & b' & o' & m' & [= <- <- <- <-] & Ha' & _)] _]; [discriminate|].
        rewrite Ha in Ha'. discriminate. }
      destruct (Infer b) as [vb [errb|]] eqn:Hb.
      { cbn. split; [discriminate|].
        intros [[H|(a' & b' & o' & m' & [= <- <- <- <-] & _ & Hb')] _]; [discriminate|].
        rewrite Hb in Hb'. discriminate. }
      rewrite IH. split; [|tauto]. intros H. split; [|done].
      right. exists a, b, o, m. rewrite Ha, Hb. auto.
    + cbn. split; [discriminate|].
      intros [[H|(a' & b' & o' & m' & H & _)] _]; discriminate.
Qed.

(** [Parse] succeeds exactly when every condition token is a keyword or
    an expression of the form the regular expression recognises, with one
    of the seven operators, whose two operands are inferred; the
    permission tokens raise no error. *)
Theorem Parse_succeeds_iff (rt : RuleTokens) :
  snd (Parse Infer FindStringSubmatch rt) = None
  <-> Forall (accepted Infer FindStringSubmatch) (RuleTokens_Conditions rt).
Proof.
  rewrite <- (conditionsLoop_accepted _ Undefined []). unfold Parse.
  by destruct (conditionsLoop Infer FindStringSubmatch _ _ _).
Qed.
End RuleParserFacts.

Lemma Parse_permission_groups_witness :
  rules.Rule_Permissions
    (fst (ruleparser.Parse (infer.Infer (fun _ => true)) (fun _ => [])
            {| ruleparser.RuleTokens_Command := "foo:bar";
               ruleparser.RuleTokens_Conditions := [];
               ruleparser.RuleTokens_Permissions := ["a"; "and"; "b"; "c"; "or"; "d"] |}))
  = [rules.requires rules.Undefined "a"; rules.requires rules.And "b";
     rules.requires rules.And "c"; rules.requires rules.Or "d"].
Proof.
  apply (Parse_permission_groups (infer.Infer (fun _ => true)) (fun _ => []) _
           ["a"] [(rules.And, ["b"; "c"]); (rules.Or, ["d"])]).
  - reflexivity.
  - repeat constructor.
  - repeat constructor; discriminate.
Defined.

Section ParseThenAllowed.
Import rules ruleparser.
Variable Infer : string -> types.Value * option error.
Variable FindStringSubmatch : string -> list string.
Variable permissions : list string.

Lemma hasPermission_bool_decide (j : LogicalOperator) (name : string) :
  hasPermission (requires j name) permissions = bool_decide (name ∈ permissions).
Proof.
  destruct (hasPermission (requires j name) permissions) eqn:H; symmetry.
  - apply bool_decide_eq_true_2. by apply hasPermission_elem_of in H.
  - apply bool_decide_eq_false_2. intros Hin.
    apply (hasPermission_elem_of (requires j name)) in Hin. congruence.
Qed.

Lemma permissionsLoop_alternating (jps : list (LogicalOperator * string)) : forall j perms,
  Forall (fun jp => fst jp <> Undefined /\ isKeyword (snd jp) = false) jps ->
  permissionsLoop j perms (concat (map (fun jp => [keyword (fst jp); snd jp]) jps))
  = perms ++ map (fun jp => requires (fst jp) (snd jp)) jps.
Proof.
  induction jps as [|[k p] jps IH]; intros j perms Hall; cbn [map concat].
  - by rewrite app_nil_r.
  - apply Forall_cons in Hall as [[Hk Hp] Hall]. cbn [fst snd app] in *.
    rewrite (permissionsLoop_keyword _ _ _ _ Hk).
    apply isKeyword_false in Hp as [Hand Hor].
    cbn [permissionsLoop]. rewrite Hand, Hor, (IH _ _ Hall), <- app_assoc. reflexivity.
Qed.

Lemma fold_requires (jps : list (LogicalOperator * string)) : forall acc,
  fold_left (joinStep Permission_Condition (fun p => hasPermission p permissions))
    (map (fun jp => requires (fst jp) (snd jp)) jps) acc
  = fold_left (fun acc jp => join acc (fst jp) (bool_decide (snd jp ∈ permissions))) jps acc.
Proof.
  induction jps as [|[k p] jps IH]; intros acc; [reflexivity|].
  cbn [map fold_left fst snd]. rewrite IH. unfold joinStep at 1.
  by rewrite hasPermission_bool_decide.
Qed.

(** The parser and the evaluator agree on a permission list written
    [p0 k1 p1 k2 p2 ...] with keywords [k]: the parsed rule allows a user
    exactly as the left fold of the joins over "the user holds [p]". *)
Theorem Parse_then_Allowed
    (rt : RuleTokens) (p0 : string) (jps : list (LogicalOperator * string)) :
  RuleTokens_Permissions rt
  = p0 :: concat (map (fun jp => [keyword (fst jp); snd jp]) jps) ->
  isKeyword p0 = false ->
  Forall (fun jp => fst jp <> Undefined /\ isKeyword (snd jp) = false) jps ->
  Allowed permissions (fst (Parse Infer FindStringSubmatch rt))
  = fold_left (fun acc jp => join acc (fst jp) (bool_decide (snd jp ∈ permissions)))
      jps (bool_decide (p0 ∈ permissions)).
Proof.
  intros Hrt Hp0 Hjps.
  rewrite Allowed_joinAll, joinAll_value, Parse_permissions, Hrt.
  apply isKeyword_false in Hp0 as [Hand Hor].
  cbn [permissionsLoop]. rewrite Hand, Hor, (permissionsLoop_alternating _ _ _ Hjps).
  cbn [app]. rewrite fold_requires. f_equal.
  apply (hasPermission_bool_decide Undefined p0).
Qed.
End ParseThenAllowed.

Lemma Parse_then_Allowed_witness :
  rules.Allowed ["foo:admin"]
    (fst (ruleparser.Parse (infer.Infer (fun _ => true)) (fun _ => [])
            {| ruleparser.RuleTokens_Command := "foo:bar";
               ruleparser.RuleTokens_Conditions := [];
               ruleparser.RuleTokens_Permissions := ["foo:read"; "and"; "foo:write"; "or"; "foo:admin"] |}))
  = true.
Proof.
  rewrite (Parse_then_Allowed (infer.Infer (fun _ => true)) (fun _ => []) ["foo:admin"] _
             "foo:read" [(rules.And, "foo:write"); (rules.Or, "foo:admin")]).
  - reflexivity.
  - reflexivity.
  - reflexivity.
  - repeat constructor; discriminate.
Defined.

(** ** Slices: what a write leaves alone *)

Section SliceFrame.
Import goslice.
Context {A : Type}.
Variable zero : A.
Variable growslice : nat -> nat -> nat.
Hypothesis growslice_fits : forall oldcap needed, needed <= growslice oldcap needed.

Lemma fresh_lookup (h : gmap loc (list A)) : h !! fresh (dom h) = None.
Proof. apply not_elem_of_dom, is_fresh. Qed.

(** [append] writes to the array of its slice or to a new array. *)
Lemma append_lookup_other (h : gmap loc (list A)) (s : slice) (x : A) (l : loc) (a : list A) :
  h !! l = Some a -> arr s <> Some l ->
  fst (append zero growslice h s x) !! l = Some a.
Proof.
  intros Hl Hne. pose proof (fresh_lookup h) as Hfresh.
  assert (Hnew : fresh (dom h) <> l) by (intros E; rewrite E in Hfresh; congruence).
  unfold append. destruct (arr s) as [l0|]; [destruct (len s <? cap s)%nat|]; cbn [fst].
  - rewrite lookup_insert_ne; [done|]. congruence.
  - by rewrite lookup_insert_ne.
  - by rewrite lookup_insert_ne.
Qed.

Lemma append_arr (h : gmap loc (list A)) (s : slice) (x : A) :
  arr (snd (append zero growslice h s x)) = arr s
  \/ exists l, arr (snd (append zero growslice h s x)) = Some l /\ h !! l = None.
Proof.
  pose proof (fresh_lookup h) as Hfresh.
  unfold append. destruct (arr s) as [l0|]; [destruct (len s <? cap s)%nat|]; cbn [snd arr];
    eauto.
Qed.

Lemma append_wf_other (h : gmap loc (list A)) (s s2 : slice) (x : A) :
  wf h s2 -> wf (fst (append zero growslice h s x)) s2.
Proof.
  unfold wf. destruct (arr s2) as [l2|] eqn:Harr2; [|done].
  intros (a2 & Hl2 & Hlen & Hle).
  destruct (decide (arr s = Some l2)) as [Heq|Hne].
  - unfold append. rewrite Heq. destruct (len s <? cap s)%nat; cbn [fst].
    + rewrite lookup_insert_eq. eexists. split; [reflexivity|].
      unfold array. rewrite Heq, Hl2. cbn. by rewrite length_insert.
    + pose proof (fresh_lookup h) as Hfresh.
      rewrite lookup_insert_ne; [eauto|]. intros E. congruence.
  - exists a2. split; [|done]. by apply append_lookup_other.
Qed.

Lemma elements_agree (h h' : gmap loc (list A)) (s : slice) :
  (forall l, arr s = Some l -> h' !! l = h !! l) -> elements h' s = elements h s.
Proof.
  intros H. unfold elements, array. destruct (arr s) as [l|]; [|done].
  by rewrite (H l eq_refl).
Qed.

Lemma append_elements_other (h : gmap loc (list A)) (s s2 : slice) (x : A) :
  wf h s2 -> arr s2 <> arr s ->
  elements (fst (append zero growslice h s x)) s2 = elements h s2.
Proof.
  intros Hwf Hne. apply elements_agree. intros l Hl.
  unfold wf in Hwf. rewrite Hl in Hwf. destruct Hwf as (a & Ha & _).
  rewrite Ha. apply append_lookup_other; [done|]. congruence.
Qed.

Section SortFrame.
Variable sortSlice : list A -> list A.
Hypothesis sortSlice_Permutation : forall l, sortSlice l ≡ₚ l.

Lemma sort_Slice_wf_other (h : gmap loc (list A)) (s s2 : slice) :
  wf h s -> wf h s2 -> wf (sort_Slice sortSlice h s) s2.
Proof.
  intros Hwf Hwf2. pose proof (sort_Slice_wf sortSlice sortSlice_Permutation h s Hwf) as Hs.
  unfold wf in *. destruct (arr s2) as [l2|] eqn:Harr2; [|done].
  destruct Hwf2 as (a2 & Hl2 & Hlen & Hle).
  unfold sort_Slice in *. destruct (arr s) as [l|] eqn:Harr; [|eauto].
  destruct (decide (l = l2)) as [->|Hne].
  - destruct Hs as (a' & Ha' & Hlen' & _). exists a'. split; [done|]. split; [|done].
    destruct Hwf as (a & Ha & Hlena & _). congruence.
  - rewrite lookup_insert_ne by done. eauto.
Qed.

Lemma sort_Slice_elements_other (h : gmap loc (list A)) (s s2 : slice) :
  arr s2 <> arr s -> elements (sort_Slice sortSlice h s) s2 = elements h s2.
Proof.
  intros Hne. apply elements_agree. intros l Hl. unfold sort_Slice.
  destruct (arr s) as [l0|]; [|done]. rewrite lookup_insert_ne; [done|]. congruence.
Qed.
End SortFrame.
End SliceFrame.

(** ** The in-memory roles: revoking *)

Section RevokeFacts.
Import goslice rest memory.
Variable growslice : nat -> nat -> nat.
Hypothesis growslice_fits : forall oldcap needed, needed <= growslice oldcap needed.

Lemma isPermission_eq (bundle permission : string) (q : RolePermission) :
  isPermission bundle permission q = true
  <-> q = {| BundleName := bundle; Permission := permission |}.
Proof.
  unfold isPermission. rewrite andb_true_iff, !String.eqb_eq. destruct q as [b p]. cbn.
  split; [intros [-> ->]; reflexivity|intros [= -> ->]; done].
Qed.

Lemma wf_incl {A : Type} (h h' : gmap loc (list A)) (s : slice) :
  (forall l a, h !! l = Some a -> h' !! l = Some a) -> wf h s -> wf h' s.
Proof.
  intros Hincl. unfold wf. destruct (arr s) as [l|]; [|done].
  intros (a & Ha & H). exists a. split; [by apply Hincl|done].
Qed.

(** The loop of [RoleRevokePermission] builds, in arrays of its own, the
    permissions it keeps; the arrays that were there stay as they are. *)
Lemma revokeLoop_spec (bundle permission : string)
    (h0 : gmap loc (list RolePermission)) (ps : list RolePermission) :
  forall h s,
    wf h s ->
    (forall l a, h0 !! l = Some a -> h !! l = Some a) ->
    (forall l, arr s = Some l -> h0 !! l = None) ->
    wf (fst (revokeLoop growslice bundle permission ps (h, s)))
       (snd (revokeLoop growslice bundle permission ps (h, s)))
    /\ (forall l a, h0 !! l = Some a ->
          fst (revokeLoop growslice bundle permission ps (h, s)) !! l = Some a)
    /\ (forall l, arr (snd (revokeLoop growslice bundle permission ps (h, s))) = Some l ->
          h0 !! l = None)
    /\ elements (fst (revokeLoop growslice bundle permission ps (h, s)))
         (snd (revokeLoop growslice bundle permission ps (h, s)))
       = elements h s ++ filter (fun q => isPermission bundle permission q = false) ps.
Proof.
  induction ps as [|q ps IH]; intros h s Hwf Hincl Hfresh; cbn [revokeLoop fst snd].
  - rewrite app_nil_r. auto.
  - fold (isPermission bundle permission q).
    destruct (isPermission bundle permission q) eqn:Hq.
    + rewrite filter_cons_False by (rewrite Hq; discriminate). by apply IH.
    + rewrite filter_cons_True by done.
      destruct (append_elements RolePermission_zero growslice growslice_fits h s q Hwf)
        as [Hel Hwf'].
      pose proof (fun l a => append_lookup_other RolePermission_zero growslice h s q l a)
        as Hother.
      pose proof (append_arr RolePermission_zero growslice h s q) as Harr'.
      destruct (append RolePermission_zero growslice h s q) as [h1 s1].
      cbn [fst snd] in *.
      destruct (IH h1 s1) as (H1 & H2 & H3 & H4).
      * exact Hwf'.
      * intros l a Hl. apply Hother; [by apply Hincl|].
        intros Harr. apply Hfresh in Harr. congruence.
      * intros l Harr. destruct Harr' as [Hsame|(l' & Hl' & Hnone)].
        -- apply Hfresh. congruence.
        -- rewrite Hl' in Harr. injection Harr as <-.
           destruct (h0 !! l') as [a|] eqn:E; [|done]. apply Hincl in E. congruence.
      * repeat split; try assumption.
        rewrite H4, Hel, <- app_assoc. reflexivity.
Qed.

Lemma RoleRevokePermission_permissionsOf
    (da : InMemoryDataAccess) (rolename bundle permission : string) (role : Role) :
  roles da !! rolename = Some role ->
  wf (permissionArrays da) (Role_Permissions role) ->
  permissionsOf (fst (RoleRevokePermission growslice da rolename bundle permission)) rolename
  = filter (fun q => isPermission bundle permission q = false) (permissionsOf da rolename).
Proof.
  intros Hrole Hwf. unfold RoleRevokePermission, permissionsOf. rewrite Hrole.
  destruct (revokeLoop_spec bundle permission (permissionArrays da)
              (elements (permissionArrays da) (Role_Permissions role))
              (permissionArrays da) empty) as (_ & _ & _ & Hel).
  - split; reflexivity.
  - auto.
  - discriminate.
  - destruct (revokeLoop growslice bundle permission _ _) as [h perms].
    cbn [fst snd setPermissions roles permissionArrays] in *.
    rewrite lookup_insert_eq. cbn [Role_Permissions]. exact Hel.
Qed.

Lemma filter_not_isPermission (bundle permission : string) (ps : list RolePermission) :
  {| BundleName := bundle; Permission := permission |}
  ∉ filter (fun q => isPermission bundle permission q = false) ps.
Proof.
  intros [Hq _]%list_elem_of_filter.
  assert (isPermission bundle permission
            {| BundleName := bundle; Permission := permission |} = true)
    by by apply isPermission_eq.
  congruence.
Qed.

(** [RoleRevokePermission] on an existing role succeeds and leaves the
    role with its former permissions, in their order, less every
    occurrence of the revoked pair. *)
Theorem RoleRevokePermission_removes
    (da : InMemoryDataAccess) (rolename bundle permission : string) (role : Role) :
  let da' := fst (RoleRevokePermission growslice da rolename bundle permission) in
  roles da !! rolename = Some role ->
  wf (permissionArrays da) (Role_Permissions role) ->
  snd (RoleRevokePermission growslice da rolename bundle permission) = None
  /\ permissionsOf da' rolename
     = filter (fun q => isPermission bundle permission q = false) (permissionsOf da rolename)
  /\ {| BundleName := bundle; Permission := permission |} ∉ permissionsOf da' rolename.
Proof.
  intros da' Hrole Hwf.
  pose proof (RoleRevokePermission_permissionsOf da rolename bundle permission role
                Hrole Hwf) as Hperms.
  fold da' in Hperms.
  split; [|split; [exact Hperms|]].
  - unfold RoleRevokePermission. rewrite Hrole.
    by destruct (revokeLoop growslice bundle permission _ _).
  - rewrite Hperms. apply filter_not_isPermission.
Qed.
End RevokeFacts.

Lemma RoleRevokePermission_removes_witness :
  let da' := fst (memory.RoleRevokePermission memory.doubling memory.opsStore "ops" "b" "z") in
  snd (memory.RoleRevokePermission memory.doubling memory.opsStore "ops" "b" "z") = None
  /\ memory.permissionsOf da' "ops"
     = filter (fun q => memory.isPermission "b" "z" q = false)
         (memory.permissionsOf memory.opsStore "ops")
  /\ {| rest.BundleName := "b"; rest.Permission := "z" |} ∉ memory.permissionsOf da' "ops".
Proof.
  apply (RoleRevokePermission_removes memory.doubling doubling_fits memory.opsStore
           "ops" "b" "z"
           {| rest.Role_Name := "ops";
              rest.Role_Permissions :=
                {| goslice.arr := Some 2%positive; goslice.len := 2; goslice.cap := 2 |};
              rest.Role_Groups := goslice.empty |}).
  - vm_compute. reflexivity.
  - eexists. split; [vm_compute; reflexivity|]. split; [reflexivity|]. cbn. lia.
Defined.

(** ** The in-memory roles: what every call keeps *)

Section StoreInvariant.
Import goslice rest memory.
Variable growslice : nat -> nat -> nat.
Hypothesis growslice_fits : forall oldcap needed, needed <= growslice oldcap needed.
Variable sortSlice : list RolePermission -> list RolePermission.
Hypothesis sortSlice_Permutation : forall l, sortSlice l ≡ₚ l.

Lemma storeInv_newStore : storeInv newStore.
Proof.
  unfold storeInv, newStore. cbn.
  split; [apply lookup_empty|]. split; intros *; by rewrite lookup_empty.
Qed.

Lemma storeInv_RoleCreate (da : InMemoryDataAccess) (name : string) :
  storeInv da -> storeInv (fst (RoleCreate da name)).
Proof.
  intros (Hempty & Hroles & Hsep). unfold RoleCreate.
  destruct (String.eqb name "") eqn:Hname; [done|]. apply String.eqb_neq in Hname.
  destruct (roles da !! name) as [old|] eqn:Hold; [done|].
  unfold storeInv. cbn [fst setRoles roles permissionArrays]. split; [|split].
  - by rewrite lookup_insert_ne.
  - intros n r [[<- <-]|[_ H]]%lookup_insert_Some; [|by apply Hroles].
    cbn. split; [done|]. split; reflexivity.
  - intros n1 n2 r1 r2 l [[<- <-]|[_ H1]]%lookup_insert_Some; [discriminate|].
    intros [[<- <-]|[_ H2]]%lookup_insert_Some; [discriminate|]. by apply Hsep.
Qed.

Lemma storeInv_RoleDelete (da : InMemoryDataAccess) (name : string) :
  storeInv da -> storeInv (fst (RoleDelete da name)).
Proof.
  intros (Hempty & Hroles & Hsep). unfold RoleDelete.
  destruct (String.eqb name ""); [done|].
  destruct (roles da !! name) as [old|] eqn:Hold; [|done].
  unfold storeInv. cbn [fst setRoles roles permissionArrays]. split; [|split].
  - apply lookup_delete_None. by right.
  - intros n r [_ H]%lookup_delete_Some. by apply Hroles.
  - intros n1 n2 r1 r2 l [_ H1]%lookup_delete_Some [_ H2]%lookup_delete_Some. by apply Hsep.
Qed.

(** Replacing the permissions of a role by a well-formed slice whose
    array is the role's own or belongs to no stored role, in a heap that
    keeps the other roles well formed. *)
Lemma storeInv_setPermissions (da : InMemoryDataAccess) (rolename : string) (role : Role)
    (s : slice) (h : gmap loc (list RolePermission)) :
  storeInv da ->
  roles da !! rolename = Some role ->
  wf h s ->
  (forall name r, roles da !! name = Some r -> wf h (Role_Permissions r)) ->
  (arr s = arr (Role_Permissions role)
   \/ forall l, arr s = Some l -> permissionArrays da !! l = None) ->
  storeInv (setPermissions rolename role s h da).
Proof.
  intros (Hempty & Hroles & Hsep) Hrole Hwf Hothers Harr.
  assert (Hdistinct : forall n r l, n <> rolename -> roles da !! n = Some r ->
            arr (Role_Permissions r) = Some l -> arr s <> Some l).
  { intros n r l Hne Hn Hl Hs. destruct Harr as [Hsame|Hnew].
    - apply Hne. apply (Hsep n rolename r role l); congruence.
    - destruct (Hroles _ _ Hn) as [_ Hwfr]. unfold wf in Hwfr. rewrite Hl in Hwfr.
      destruct Hwfr as (a & Ha & _). rewrite (Hnew _ Hs) in Ha. discriminate. }
  unfold storeInv, setPermissions. cbn [roles permissionArrays]. split; [|split].
  - rewrite lookup_insert_ne; [done|]. intros E. subst rolename. congruence.
  - intros n r [[<- <-]|[_ H]]%lookup_insert_Some.
    + cbn. split; [|done]. by destruct (Hroles _ _ Hrole).
    + split; [by destruct (Hroles _ _ H)|by apply (Hothers n)].
  - intros n1 n2 r1 r2 l [[<- <-]|[Hne1 H1]]%lookup_insert_Some
                         [[<- <-]|[Hne2 H2]]%lookup_insert_Some; cbn [Role_Permissions].
    + done.
    + intros Hs Hl. exfalso. by apply (Hdistinct n2 r2 l).
    + intros Hl Hs. exfalso. by apply (Hdistinct n1 r1 l).
    + by apply Hsep.
Qed.

Lemma storeInv_RoleGrantPermission (da : InMemoryDataAccess)
    (rolename bundle permission : string) :
  storeInv da -> storeInv (fst (RoleGrantPermission growslice da rolename bundle permission)).
Proof.
  intros Hinv. pose proof Hinv as (Hempty & Hroles & Hsep). unfold RoleGrantPermission.
  destruct (roles da !! rolename) as [role|] eqn:Hrole; [|done].
  destruct (Hroles _ _ Hrole) as [_ Hwf].
  destruct (append_elements RolePermission_zero growslice growslice_fits
              (permissionArrays da) (Role_Permissions role)
              {| BundleName := bundle; Permission := permission |} Hwf) as [_ Hwf'].
  pose proof (fun s2 => append_wf_other RolePermission_zero growslice
                (permissionArrays da) (Role_Permissions role) s2
                {| BundleName := bundle; Permission := permission |}) as Hother.
  pose proof (append_arr RolePermission_zero growslice (permissionArrays da)
                (Role_Permissions role) {| BundleName := bundle; Permission := permission |})
    as Harr.
  destruct (append RolePermission_zero growslice (permissionArrays da)
              (Role_Permissions role) {| BundleName := bundle; Permission := permission |})
    as [h s].
  cbn [fst snd] in *. apply storeInv_setPermissions; try done.
  - intros name r Hr. apply Hother. by destruct (Hroles _ _ Hr).
  - destruct Harr as [Hsame|(l & Hl & Hnone)]; [by left|].
    right. intros l' Hl'. congruence.
Qed.

Lemma storeInv_RoleRevokePermission (da : InMemoryDataAccess)
    (rolename bundle permission : string) :
  storeInv da -> storeInv (fst (RoleRevokePermission growslice da rolename bundle permission)).
Proof.
  intros Hinv. pose proof Hinv as (Hempty & Hroles & Hsep). unfold RoleRevokePermission.
  destruct (roles da !! rolename) as [role|] eqn:Hrole; [|done].
  destruct (revokeLoop_spec growslice growslice_fits bundle permission (permissionArrays da)
              (elements (permissionArrays da) (Role_Permissions role))
              (permissionArrays da) empty) as (Hwf & Hincl & Hfresh & _).
  { split; reflexivity. }
  { auto. }
  { discriminate. }
  destruct (revokeLoop growslice bundle permission _ _) as [h perms].
  cbn [fst snd] in *. apply storeInv_setPermissions; try done.
  - intros name r Hr. apply (wf_incl (permissionArrays da)); [exact Hincl|].
    by destruct (Hroles _ _ Hr).
  - by right.
Qed.

Lemma storeInv_RolePermissionList (da : InMemoryDataAccess) (rolename : string) :
  storeInv da -> storeInv (fst (RolePermissionList sortSlice da rolename)).
Proof.
  intros Hinv. pose proof Hinv as (Hempty & Hroles & Hsep).
  unfold RolePermissionList, RoleGet.
  destruct (String.eqb rolename ""); [done|].
  destruct (roles da !! rolename) as [role|] eqn:Hrole; [|done].
  cbn [fst]. unfold storeInv. cbn [roles permissionArrays].
  split; [done|]. split; [|done].
  intros name r Hr. destruct (Hroles _ _ Hr) as [Hname Hwf]. split; [done|].
  apply sort_Slice_wf_other; [done| |done]. by destruct (Hroles _ _ Hrole).
Qed.

Lemma RolePermissionExists_store (da : InMemoryDataAccess)
    (rolename bundlename permission : string) :
  fst (RolePermissionExists sortSlice da rolename bundlename permission)
  = fst (RolePermissionList sortSlice da rolename).
Proof.
  unfold RolePermissionExists.
  by destruct (RolePermissionList sortSlice da rolename) as [da' [perms [err|]]].
Qed.

Lemma storeInv_performed (da : InMemoryDataAccess) (c : roleCall) :
  storeInv da -> storeInv (performed growslice sortSlice da c).
Proof.
  intros Hinv. destruct c; cbn [performed].
  - by apply storeInv_RoleCreate.
  - by apply storeInv_RoleDelete.
  - by apply storeInv_RoleGrantPermission.
  - by apply storeInv_RoleRevokePermission.
  - by apply storeInv_RolePermissionList.
  - rewrite RolePermissionExists_store. by apply storeInv_RolePermissionList.
Qed.

Lemma storeInv_calls (cs : list roleCall) : forall da,
  storeInv da -> storeInv (fold_left (performed growslice sortSlice) cs da).
Proof.
  induction cs as [|c cs IH]; intros da Hinv; [done|].
  cbn. apply IH. by apply storeInv_performed.
Qed.

(** After any sequence of calls on a new store, no role has the empty
    name, every role is stored under its own name with a well-formed
    permission slice, no two roles share a backing array, and so a call
    with the empty role name finds no role. *)
Theorem role_calls_keep_the_store (cs : list roleCall) :
  let da := fold_left (performed growslice sortSlice) cs newStore in
  storeInv da
  /\ (forall bundle permission,
        RoleGrantPermission growslice da "" bundle permission = (da, Some ErrNoSuchRole))
  /\ (forall name role, RoleGet da name = (role, None) -> Role_Name role = name).
Proof.
  intros da. assert (Hinv : storeInv da) by apply storeInv_calls, storeInv_newStore.
  split; [exact Hinv|]. destruct Hinv as (Hempty & Hroles & _). split.
  - intros bundle permission. unfold RoleGrantPermission. by rewrite Hempty.
  - intros name role. unfold RoleGet. destruct (String.eqb name ""); [discriminate|].
    destruct (roles da !! name) as [r|] eqn:Hr; [|discriminate].
    intros [= <-]. by destruct (Hroles _ _ Hr).
Qed.
End StoreInvariant.

Lemma role_calls_keep_the_store_witness :
  let da := fold_left (memory.performed memory.doubling memory.mergeSortByString)
              [memory.CallRoleCreate "ops";
               memory.CallRoleGrantPermission "ops" "b" "z";
               memory.CallRoleGrantPermission "ops" "a" "y";
               memory.CallRolePermissionList "ops";
               memory.CallRoleRevokePermission "ops" "b" "z"]
              memory.newStore in
  memory.storeInv da
  /\ (forall bundle permission,
        memory.RoleGrantPermission memory.doubling da "" bundle permission
        = (da, Some ErrNoSuchRole))
  /\ (forall name role, memory.RoleGet da name = (role, None) -> rest.Role_Name role = name).
Proof.
  apply (role_calls_keep_the_store memory.doubling doubling_fits
           memory.mergeSortByString mergeSortByString_Permutation).
Defined.

Lemma storeInv_opsStore : memory.storeInv memory.opsStore.
Proof.
  unfold memory.opsStore.
  do 2 apply (storeInv_RoleGrantPermission memory.doubling doubling_fits).
  apply storeInv_RoleCreate, storeInv_newStore.
Qed.

(** ** The in-memory roles: one call and the other roles *)

Section RoleFrame.
Import goslice rest memory.
Variable growslice : nat -> nat -> nat.
Hypothesis growslice_fits : forall oldcap needed, needed <= growslice oldcap needed.
Variable sortSlice : list RolePermission -> list RolePermission.
Hypothesis sortSlice_Permutation : forall l, sortSlice l ≡ₚ l.

Lemma permissionsOf_agree (da da' : InMemoryDataAccess) (other : string) :
  roles da' !! other = roles da !! other ->
  (forall r l a, roles da !! other = Some r -> arr (Role_Permissions r) = Some l ->
     permissionArrays da !! l = Some a -> permissionArrays da' !! l = Some a) ->
  storeInv da ->
  permissionsOf da' other = permissionsOf da other.
Proof.
  intros Hroles Harrays (_ & Hwf & _). unfold permissionsOf. rewrite Hroles.
  destruct (roles da !! other) as [r|] eqn:Hr; [|done].
  apply elements_agree. intros l Hl. destruct (Hwf _ _ Hr) as [_ Hwfr].
  unfold wf in Hwfr. rewrite Hl in Hwfr. destruct Hwfr as (a & Ha & _).
  rewrite Ha. by apply (Harrays r).
Qed.

(** A call of the role access on one role leaves every other role, and
    its permissions, as they were. *)
Theorem role_call_frame (da : InMemoryDataAccess) (c : roleCall) (other : string) :
  storeInv da ->
  subject c <> other ->
  roles (performed growslice sortSlice da c) !! other = roles da !! other
  /\ permissionsOf (performed growslice sortSlice da c) other = permissionsOf da other.
Proof.
  intros Hinv Hne. pose proof Hinv as (Hempty & Hroles & Hsep).
  assert (Hgoal : roles (performed growslice sortSlice da c) !! other = roles da !! other
          /\ (forall r l a, roles da !! other = Some r -> arr (Role_Permissions r) = Some l ->
                permissionArrays da !! l = Some a ->
                permissionArrays (performed growslice sortSlice da c) !! l = Some a)).
  { destruct c as [name|name|r b p|r b p|r|r b p]; cbn [performed subject] in *.
    - unfold RoleCreate. destruct (String.eqb name ""); [done|].
      destruct (roles da !! name); [done|]. cbn. by rewrite lookup_insert_ne.
    - unfold RoleDelete. destruct (String.eqb name ""); [done|].
      destruct (roles da !! name); [|done]. cbn. by rewrite lookup_delete_ne.
    - unfold RoleGrantPermission. destruct (roles da !! r) as [role|] eqn:Hrole; [|done].
      pose proof (fun l a => append_lookup_other RolePermission_zero growslice
                    (permissionArrays da) (Role_Permissions role)
                    {| BundleName := b; Permission := p |} l a) as Hother.
      destruct (append RolePermission_zero growslice _ _ _) as [h s].
      cbn [fst setPermissions roles permissionArrays] in *.
      split; [by rewrite lookup_insert_ne|].
      intros r2 l a Hr2 Hl Ha. apply Hother; [done|]. intros Hs.
      apply Hne. by apply (Hsep r other role r2 l).
    - unfold RoleRevokePermission. destruct (roles da !! r) as [role|] eqn:Hrole; [|done].
      destruct (revokeLoop_spec growslice growslice_fits b p (permissionArrays da)
                  (elements (permissionArrays da) (Role_Permissions role))
                  (permissionArrays da) empty) as (_ & Hincl & _ & _);
        [split; reflexivity|auto|discriminate|].
      destruct (revokeLoop growslice b p _ _) as [h perms].
      cbn [fst setPermissions roles permissionArrays] in *.
      split; [by rewrite lookup_insert_ne|]. intros r2 l a _ _ Ha. by apply Hincl.
    - unfold RolePermissionList, RoleGet. destruct (String.eqb r ""); [done|].
      destruct (roles da !! r) as [role|] eqn:Hrole; [|done].
      cbn [fst roles permissionArrays]. split; [done|].
      intros r2 l a Hr2 Hl Ha. unfold sort_Slice.
      destruct (arr (Role_Permissions role)) as [l0|] eqn:Harr; [|done].
      rewrite lookup_insert_ne; [done|]. intros ->.
      apply Hne. by apply (Hsep r other role r2 l).
    - rewrite RolePermissionExists_store.
      unfold RolePermissionList, RoleGet. destruct (String.eqb r ""); [done|].
      destruct (roles da !! r) as [role|] eqn:Hrole; [|done].
      cbn [fst roles permissionArrays]. split; [done|].
      intros r2 l a Hr2 Hl Ha. unfold sort_Slice.
      destruct (arr (Role_Permissions role)) as [l0|] eqn:Harr; [|done].
      rewrite lookup_insert_ne; [done|]. intros ->.
      apply Hne. by apply (Hsep r other role r2 l). }
  destruct Hgoal as [Hr Ha]. split; [exact Hr|]. by apply permissionsOf_agree.
Qed.
End RoleFrame.

Lemma role_call_frame_witness :
  let da := fst (memory.RoleCreate memory.opsStore "dev") in
  let c := memory.CallRoleGrantPermission "dev" "c" "x" in
  memory.roles (memory.performed memory.doubling memory.mergeSortByString da c) !! "ops"
  = memory.roles da !! "ops"
  /\ memory.permissionsOf (memory.performed memory.doubling memory.mergeSortByString da c) "ops"
     = memory.permissionsOf da "ops".
Proof.
  apply (role_call_frame memory.doubling doubling_fits memory.mergeSortByString
           (fst (memory.RoleCreate memory.opsStore "dev"))
           (memory.CallRoleGrantPermission "dev" "c" "x") "ops").
  - apply storeInv_RoleCreate, storeInv_opsStore.
  - discriminate.
Defined.

(** ** The in-memory roles: asking for a permission *)

Section RoleExistsFacts.
Import goslice rest memory.
Variable growslice : nat -> nat -> nat.
Hypothesis growslice_fits : forall oldcap needed, needed <= growslice oldcap needed.
Variable sortSlice : list RolePermission -> list RolePermission.
Hypothesis sortSlice_Permutation : forall l, sortSlice l ≡ₚ l.

Lemma permissionIn_elem_of (bundlename permission : string) (ps : list RolePermission) :
  permissionIn bundlename permission ps = true
  <-> {| BundleName := bundlename; Permission := permission |} ∈ ps.
Proof.
  induction ps as [|q ps IH]; cbn [permissionIn].
  - split; [discriminate|]. intros H. by apply elem_of_nil in H.
  - fold (isPermission bundlename permission q).
    destruct (isPermission bundlename permission q) eqn:Hq.
    + apply isPermission_eq in Hq as ->. split; [intros _; apply list_elem_of_here|done].
    + rewrite IH, elem_of_cons. split; [by right|]. intros [Heq|H]; [|done].
      symmetry in Heq. apply isPermission_eq in Heq. congruence.
Qed.

Lemma RolePermissionExists_answer
    (da : InMemoryDataAccess) (rolename bundlename permission : string) (role : Role) :
  rolename <> "" ->
  roles da !! rolename = Some role ->
  wf (permissionArrays da) (Role_Permissions role) ->
  exists v,
    snd (RolePermissionExists sortSlice da rolename bundlename permission) = (v, None)
    /\ (v = true <->
        {| BundleName := bundlename; Permission := permission |} ∈ permissionsOf da rolename).
Proof.
  intros Hname Hrole Hwf. unfold RolePermissionExists, RolePermissionList, RoleGet.
  apply String.eqb_neq in Hname. rewrite Hname, Hrole. cbn [snd permissionArrays].
  eexists. split; [reflexivity|].
  rewrite permissionIn_elem_of, (sort_Slice_elements sortSlice sortSlice_Permutation) by done.
  unfold permissionsOf. rewrite Hrole. by rewrite (sortSlice_Permutation _).
Qed.

(** [RolePermissionExists] answers true exactly when the pair is among
    the permissions of the role; on the empty name it fails with
    [ErrEmptyRoleName], also when a role is stored under it, and on a
    missing role with [ErrNoSuchRole]. *)
Theorem RolePermissionExists_iff
    (da : InMemoryDataAccess) (rolename bundlename permission : string) :
  (forall role, roles da !! rolename = Some role ->
     wf (permissionArrays da) (Role_Permissions role)) ->
  snd (RolePermissionExists sortSlice da rolename bundlename permission)
  = if String.eqb rolename "" then (false, Some ErrEmptyRoleName)
    else match roles da !! rolename with
         | None => (false, Some ErrNoSuchRole)
         | Some _ =>
             (bool_decide (Exists (fun q => isPermission bundlename permission q = true)
                             (permissionsOf da rolename)), None)
         end.
Proof.
  intros Hwf. destruct (String.eqb rolename "") eqn:Hname.
  - unfold RolePermissionExists, RolePermissionList, RoleGet. by rewrite Hname.
  - destruct (roles da !! rolename) as [role|] eqn:Hrole.
    + apply String.eqb_neq in Hname.
      destruct (RolePermissionExists_answer da rolename bundlename permission role
                  Hname Hrole (Hwf _ eq_refl)) as (v & -> & Hv).
      f_equal. destruct v; symmetry.
      * apply bool_decide_eq_true. apply Exists_exists.
        exists {| BundleName := bundlename; Permission := permission |}.
        split; [by apply Hv|by apply isPermission_eq].
      * apply bool_decide_eq_false. intros (q & Hq & Hp)%Exists_exists.
        apply isPermission_eq in Hp as ->. apply Hv in Hq. discriminate.
    + unfold RolePermissionExists, RolePermissionList, RoleGet. by rewrite Hname, Hrole.
Qed.

(** In a store the role access has built, a permission just granted to a
    role is found, one just revoked is not, and asking changes neither
    answer. *)
Theorem grant_revoke_then_exists
    (da : InMemoryDataAccess) (rolename bundle permission : string) :
  storeInv da ->
  is_Some (roles da !! rolename) ->
  let granted := fst (RoleGrantPermission growslice da rolename bundle permission) in
  let revoked := fst (RoleRevokePermission growslice da rolename bundle permission) in
  snd (RolePermissionExists sortSlice granted rolename bundle permission) = (true, None)
  /\ snd (RolePermissionExists sortSlice revoked rolename bundle permission) = (false, None)
  /\ snd (RolePermissionExists sortSlice
            (fst (RolePermissionExists sortSlice granted rolename bundle permission))
            rolename bundle permission) = (true, None).
Proof.
  intros Hinv [role Hrole] granted revoked.
  pose proof Hinv as (Hempty & Hroles & _).
  assert (Hname : rolename <> "") by (intros ->; congruence).
  destruct (Hroles _ _ Hrole) as [_ Hwf].
  assert (Hyes : forall da' role',
            roles da' !! rolename = Some role' ->
            wf (permissionArrays da') (Role_Permissions role') ->
            {| BundleName := bundle; Permission := permission |} ∈ permissionsOf da' rolename ->
            snd (RolePermissionExists sortSlice da' rolename bundle permission) = (true, None)).
  { intros da' role' Hrole' Hwf' Hin.
    destruct (RolePermissionExists_answer da' rolename bundle permission role'
                Hname Hrole' Hwf') as (v & -> & Hv).
    f_equal. by apply Hv. }
  destruct (RoleGrantPermission_once growslice growslice_fits da rolename bundle permission
              role Hrole Hwf) as (role1 & _ & Hrole1 & Hwf1 & Hperm1).
  fold granted in Hrole1, Hwf1, Hperm1.
  assert (Hin1 : {| BundleName := bundle; Permission := permission |}
                 ∈ permissionsOf granted rolename).
  { rewrite Hperm1. apply elem_of_app. right. apply list_elem_of_here. }
  split; [by apply (Hyes granted role1)|]. split.
  - assert (Hnot : {| BundleName := bundle; Permission := permission |}
                   ∉ permissionsOf revoked rolename).
    { subst revoked.
      rewrite (RoleRevokePermission_permissionsOf growslice growslice_fits da rolename
                 bundle permission role Hrole Hwf).
      apply filter_not_isPermission. }
    assert (Hinv' : storeInv revoked)
      by by apply storeInv_RoleRevokePermission.
    destruct Hinv' as (_ & Hroles' & _).
    assert (Hsome : is_Some (roles revoked !! rolename)).
    { subst revoked. unfold RoleRevokePermission. rewrite Hrole.
      destruct (revokeLoop growslice bundle permission _ _). cbn.
      rewrite lookup_insert_eq. by eexists. }
    destruct Hsome as [role2 Hrole2]. destruct (Hroles' _ _ Hrole2) as [_ Hwf2].
    destruct (RolePermissionExists_answer revoked rolename bundle permission role2
                Hname Hrole2 Hwf2) as (v & -> & Hv).
    f_equal. destruct v; [|done]. exfalso. apply Hnot. by apply Hv.
  - rewrite RolePermissionExists_store.
    unfold RolePermissionList, RoleGet. apply String.eqb_neq in Hname as Hname'.
    rewrite Hname', Hrole1. cbn [fst].
    apply (Hyes _ role1); cbn [roles permissionArrays]; [done| |].
    + by apply sort_Slice_wf.
    + unfold permissionsOf. cbn [roles permissionArrays]. rewrite Hrole1.
      rewrite (sort_Slice_elements sortSlice sortSlice_Permutation) by done.
      rewrite (sortSlice_Permutation _). unfold permissionsOf in Hin1.
      by rewrite Hrole1 in Hin1.
Qed.
End RoleExistsFacts.

Lemma RolePermissionExists_iff_witness :
  snd (memory.RolePermissionExists memory.mergeSortByString memory.opsStore "ops" "a" "y")
  = if String.eqb "ops" "" then (false, Some ErrEmptyRoleName)
    else match memory.roles memory.opsStore !! "ops" with
         | None => (false, Some ErrNoSuchRole)
         | Some _ =>
             (bool_decide (Exists (fun q => memory.isPermission "a" "y" q = true)
                             (memory.permissionsOf memory.opsStore "ops")), None)
         end.
Proof.
  apply (RolePermissionExists_iff memory.mergeSortByString mergeSortByString_Permutation
           memory.opsStore "ops" "a" "y").
  intros role H. vm_compute in H. injection H as <-.
  eexists. split; [vm_compute; reflexivity|]. split; [reflexivity|]. cbn. lia.
Defined.

Lemma grant_revoke_then_exists_witness :
  let granted := fst (memory.RoleGrantPermission memory.doubling memory.opsStore "ops" "c" "x") in
  let revoked := fst (memory.RoleRevokePermission memory.doubling memory.opsStore "ops" "c" "x") in
  snd (memory.RolePermissionExists memory.mergeSortByString granted "ops" "c" "x")
  = (true, None)
  /\ snd (memory.RolePermissionExists memory.mergeSortByString revoked "ops" "c" "x")
     = (false, None)
  /\ snd (memory.RolePermissionExists memory.mergeSortByString
            (fst (memory.RolePermissionExists memory.mergeSortByString granted "ops" "c" "x"))
            "ops" "c" "x") = (true, None).
Proof.
  apply (grant_revoke_then_exists memory.doubling doubling_fits
           memory.mergeSortByString mergeSortByString_Permutation
           memory.opsStore "ops" "c" "x" storeInv_opsStore).
  vm_compute. eexists. reflexivity.
Defined.

(** ** The in-memory roles: creating and deleting *)

Section RoleCreateDelete.
Import goslice rest memory.

Lemma setRoles_setRoles_id (da : InMemoryDataAccess) (rs : gmap string Role) :
  setRoles (roles da) (setRoles rs da) = da.
Proof. by destruct da. Qed.

(** A role just created exists, is stored under its name with no
    permissions, cannot be created again, and deleting it gives back the
    store as it was. *)
Theorem RoleCreate_then (da : InMemoryDataAccess) (name : string) :
  name <> "" ->
  roles da !! name = None ->
  let da' := fst (RoleCreate da name) in
  snd (RoleCreate da name) = None
  /\ RoleExists da' name = (true, None)
  /\ RoleGet da' name
     = ({| Role_Name := name; Role_Permissions := empty; Role_Groups := empty |}, None)
  /\ permissionsOf da' name = []
  /\ RoleCreate da' name = (da', Some ErrRoleExists)
  /\ RoleDelete da' name = (da, None)
  /\ (forall other, other <> name -> RoleGet da' other = RoleGet da other).
Proof.
  intros Hname Hnone da'. apply String.eqb_neq in Hname as Hneq.
  assert (Hda' : da' = setRoles (<[name := {| Role_Name := name; Role_Permissions := empty;
                                              Role_Groups := empty |}]> (roles da)) da).
  { subst da'. unfold RoleCreate. by rewrite Hneq, Hnone. }
  assert (Hlook : roles da' !! name
                  = Some {| Role_Name := name; Role_Permissions := empty;
                            Role_Groups := empty |}).
  { rewrite Hda'. cbn [setRoles roles]. by rewrite lookup_insert_eq. }
  repeat apply conj.
  - unfold RoleCreate. by rewrite Hneq, Hnone.
  - unfold RoleExists. rewrite Hneq, Hlook. reflexivity.
  - unfold RoleGet. by rewrite Hneq, Hlook.
  - unfold permissionsOf. by rewrite Hlook.
  - unfold RoleCreate. by rewrite Hneq, Hlook.
  - unfold RoleDelete. rewrite Hneq, Hlook. f_equal.
    rewrite Hda'. cbn [setRoles roles permissionArrays groupArrays].
    rewrite delete_insert_id by done. by destruct da.
  - intros other Hother. unfold RoleGet. rewrite Hda'. cbn [setRoles roles].
    by rewrite lookup_insert_ne.
Qed.

(** A role just deleted is gone for every call, and creating it again
    gives a role with no permissions, whatever it had. *)
Theorem RoleDelete_then (growslice : nat -> nat -> nat)
    (da : InMemoryDataAccess) (name bundle permission : string) :
  name <> "" ->
  is_Some (roles da !! name) ->
  let da' := fst (RoleDelete da name) in
  snd (RoleDelete da name) = None
  /\ RoleExists da' name = (false, None)
  /\ RoleGet da' name = (Role_zero, Some ErrNoSuchRole)
  /\ RoleGrantPermission growslice da' name bundle permission = (da', Some ErrNoSuchRole)
  /\ RoleRevokePermission growslice da' name bundle permission = (da', Some ErrNoSuchRole)
  /\ RoleDelete da' name = (da', Some ErrNoSuchRole)
  /\ permissionsOf (fst (RoleCreate da' name)) name = []
  /\ (forall other, other <> name -> RoleGet da' other = RoleGet da other).
Proof.
  intros Hname [role Hrole] da'. apply String.eqb_neq in Hname as Hneq.
  assert (Hda' : da' = setRoles (delete name (roles da)) da).
  { subst da'. unfold RoleDelete. by rewrite Hneq, Hrole. }
  assert (Hlook : roles da' !! name = None).
  { rewrite Hda'. cbn [setRoles roles]. apply lookup_delete_eq. }
  repeat apply conj.
  - unfold RoleDelete. by rewrite Hneq, Hrole.
  - unfold RoleExists. rewrite Hneq, Hlook. reflexivity.
  - unfold RoleGet. by rewrite Hneq, Hlook.
  - unfold RoleGrantPermission. by rewrite Hlook.
  - unfold RoleRevokePermission. by rewrite Hlook.
  - unfold RoleDelete. by rewrite Hneq, Hlook.
  - unfold RoleCreate, permissionsOf. rewrite Hneq, Hlook. cbn [fst setRoles roles].
    by rewrite lookup_insert_eq.
  - intros other Hother. unfold RoleGet. rewrite Hda'. cbn [setRoles roles].
    by rewrite lookup_delete_ne.
Qed.
End RoleCreateDelete.

Lemma RoleCreate_then_witness :
  let da' := fst (memory.RoleCreate memory.opsStore "dev") in
  snd (memory.RoleCreate memory.opsStore "dev") = None
  /\ memory.RoleExists da' "dev" = (true, None)
  /\ memory.RoleGet da' "dev"
     = ({| rest.Role_Name := "dev"; rest.Role_Permissions := goslice.empty;
           rest.Role_Groups := goslice.empty |}, None)
  /\ memory.permissionsOf da' "dev" = []
  /\ memory.RoleCreate da' "dev" = (da', Some ErrRoleExists)
  /\ memory.RoleDelete da' "dev" = (memory.opsStore, None)
  /\ (forall other, other <> "dev" -> memory.RoleGet da' other = memory.RoleGet memory.opsStore other).
Proof.
  apply (RoleCreate_then memory.opsStore "dev"); [discriminate|vm_compute; reflexivity].
Defined.

Lemma RoleDelete_then_witness :
  let da' := fst (memory.RoleDelete memory.opsStore "ops") in
  snd (memory.RoleDelete memory.opsStore "ops") = None
  /\ memory.RoleExists da' "ops" = (false, None)
  /\ memory.RoleGet da' "ops" = (rest.Role_zero, Some ErrNoSuchRole)
  /\ memory.RoleGrantPermission memory.doubling da' "ops" "b" "z" = (da', Some ErrNoSuchRole)
  /\ memory.RoleRevokePermission memory.doubling da' "ops" "b" "z" = (da', Some ErrNoSuchRole)
  /\ memory.RoleDelete da' "ops" = (da', Some ErrNoSuchRole)
  /\ memory.permissionsOf (fst (memory.RoleCreate da' "ops")) "ops" = []
  /\ (forall other, other <> "ops" -> memory.RoleGet da' other = memory.RoleGet memory.opsStore other).
Proof.
  apply (RoleDelete_then memory.doubling memory.opsStore "ops" "b" "z");
    [discriminate|vm_compute; eexists; reflexivity].
Defined.

(** ** The tokens: invalidating and generating *)

Section TokenMore.
Import rest memory.
Variable UserExists : string -> bool * option error.
Variable IsExpired : Token -> bool.

Lemma TokenRetrieveByUser_Some (tm : tokenMaps) (u : string) (t : Token) :
  TokenRetrieveByUser tm u = (t, None) <-> tokensByUser tm !! u = Some t.
Proof.
  unfold TokenRetrieveByUser. destruct (tokensByUser tm !! u); split; congruence.
Qed.

Lemma TokenRetrieveByToken_Some (tm : tokenMaps) (s : string) (t : Token) :
  TokenRetrieveByToken tm s = (t, None) <-> tokensByValue tm !! s = Some t.
Proof.
  unfold TokenRetrieveByToken. destruct (tokensByValue tm !! s); split; congruence.
Qed.

(** [TokenInvalidate] keeps the two indexes consistent and adds no
    token. *)
Lemma TokenInvalidate_any_consistent (tm : tokenMaps) (s : string) :
  consistent tm ->
  consistent (fst (TokenInvalidate tm s))
  /\ (forall s' t', tokensByValue (fst (TokenInvalidate tm s)) !! s' = Some t' ->
        tokensByValue tm !! s' = Some t').
Proof.
  intros Hcons. destruct (tokensByValue tm !! s) as [t|] eqn:Hv.
  - destruct Hcons as [HU HV]. destruct (HV _ _ Hv) as [Hs Hu]. rewrite <- Hs.
    destruct (TokenInvalidate_consistent tm _ t (conj HU HV) Hu) as (H1 & _ & H3).
    by split.
  - unfold TokenInvalidate, TokenRetrieveByToken. rewrite Hv. by split.
Qed.

(** Invalidating a token that is held removes it from both indexes, so
    that neither lookup finds it, it evaluates to false and a second
    invalidation fails; every other token and user is left alone. *)
Theorem TokenInvalidate_removes (tm : tokenMaps) (s : string) (t : Token) :
  consistent tm ->
  tokensByValue tm !! s = Some t ->
  let tm' := fst (TokenInvalidate tm s) in
  snd (TokenInvalidate tm s) = None
  /\ TokenRetrieveByToken tm' s = (Token_zero, Some ErrNoSuchToken)
  /\ TokenRetrieveByUser tm' (Token_User t) = (Token_zero, Some ErrNoSuchToken)
  /\ TokenEvaluate IsExpired tm' s = false
  /\ TokenInvalidate tm' s = (tm', Some ErrNoSuchToken)
  /\ (forall s', s' <> s -> TokenRetrieveByToken tm' s' = TokenRetrieveByToken tm s')
  /\ (forall u, u <> Token_User t -> TokenRetrieveByUser tm' u = TokenRetrieveByUser tm u)
  /\ consistent tm'.
Proof.
  intros Hcons Hv tm'. pose proof Hcons as [HU HV].
  destruct (HV _ _ Hv) as [Hs Hu].
  assert (Htm' : tm' = {| tokensByUser := delete (Token_User t) (tokensByUser tm);
                          tokensByValue := delete s (tokensByValue tm) |}).
  { subst tm'. unfold TokenInvalidate, TokenRetrieveByToken. rewrite Hv. cbn [fst].
    by rewrite Hs. }
  assert (Hnone : tokensByValue tm' !! s = None).
  { rewrite Htm'. cbn [tokensByValue]. apply lookup_delete_eq. }
  split_and!.
  - unfold TokenInvalidate, TokenRetrieveByToken. by rewrite Hv.
  - unfold TokenRetrieveByToken. by rewrite Hnone.
  - unfold TokenRetrieveByUser. rewrite Htm'. cbn [tokensByUser].
    by rewrite lookup_delete_eq.
  - unfold TokenEvaluate, TokenRetrieveByToken. by rewrite Hnone.
  - unfold TokenInvalidate, TokenRetrieveByToken. by rewrite Hnone.
  - intros s' Hne. unfold TokenRetrieveByToken. rewrite Htm'. cbn [tokensByValue].
    by rewrite lookup_delete_ne.
  - intros u Hne. unfold TokenRetrieveByUser. rewrite Htm'. cbn [tokensByUser].
    by rewrite lookup_delete_ne.
  - subst tm'. by apply TokenInvalidate_any_consistent.
Qed.

(** The token maps as [TokenGenerate] has them when it asks the random
    source: the user's token, if any, has been invalidated. *)
Lemma TokenGenerate_cleared (tm : tokenMaps) (u : string) :
  consistent tm ->
  let tm1 := match TokenRetrieveByUser tm u with
             | (token, None) => fst (TokenInvalidate tm (Token_Token token))
             | (_, Some _) => tm
             end in
  consistent tm1
  /\ tokensByUser tm1 !! u = None
  /\ (forall s t, tokensByValue tm1 !! s = Some t -> tokensByValue tm !! s = Some t)
  /\ (forall old, tokensByUser tm !! u = Some old ->
        tokensByValue tm1 !! Token_Token old = None)
  /\ (forall u', u' <> u -> tokensByUser tm1 !! u' = tokensByUser tm !! u').
Proof.
  intros Hcons tm1. subst tm1. unfold TokenRetrieveByUser.
  destruct (tokensByUser tm !! u) as [t|] eqn:Hu.
  - destruct (TokenInvalidate_consistent tm _ t Hcons Hu) as (Hc1 & Hu1 & Hsub).
    destruct Hcons as [HU HV]. destruct (HU _ _ Hu) as [Hut Hvt].
    split_and!; try done.
    + intros old [= <-]. unfold TokenInvalidate, TokenRetrieveByToken. rewrite Hvt.
      cbn [fst tokensByValue]. apply lookup_delete_eq.
    + intros u' Hne. unfold TokenInvalidate, TokenRetrieveByToken. rewrite Hvt.
      cbn [fst tokensByUser]. rewrite Hut. by rewrite lookup_delete_ne.
  - split_and!; try done.
Qed.

(** A [TokenGenerate] for an existing user, with a value no held token
    has, returns a token for that user valid from now for the duration;
    both lookups then return it, it evaluates to true unless expired, the
    user's former token is gone, and the other users keep theirs. *)
Theorem TokenGenerate_roundtrip
    (tm : tokenMaps) (username tokenString : string) (duration now : Z) :
  UserExists username = (true, None) ->
  consistent tm ->
  tokensByValue tm !! tokenString = None ->
  let T := {| Token_Duration := duration; Token_Token := tokenString;
              Token_User := username; Token_ValidFrom := now;
              Token_ValidUntil := (now + duration)%Z |} in
  let tm' := fst (TokenGenerate UserExists tm username duration (tokenString, None) now) in
  snd (TokenGenerate UserExists tm username duration (tokenString, None) now) = (T, None)
  /\ TokenRetrieveByUser tm' username = (T, None)
  /\ TokenRetrieveByToken tm' tokenString = (T, None)
  /\ TokenEvaluate IsExpired tm' tokenString = negb (IsExpired T)
  /\ (forall old, tokensByUser tm !! username = Some old ->
        TokenRetrieveByToken tm' (Token_Token old) = (Token_zero, Some ErrNoSuchToken))
  /\ (forall u, u <> username -> TokenRetrieveByUser tm' u = TokenRetrieveByUser tm u)
  /\ consistent tm'.
Proof.
  intros Hexists Hcons Hfresh T tm'.
  destruct (TokenGenerate_cleared tm username Hcons) as (Hc1 & Hu1 & Hsub & Hold & Hframe).
  assert (Htm' : tm' = {| tokensByUser := <[username := T]>
                            (tokensByUser match TokenRetrieveByUser tm username with
                                          | (token, None) =>
                                              fst (TokenInvalidate tm (Token_Token token))
                                          | (_, Some _) => tm
                                          end);
                          tokensByValue := <[tokenString := T]>
                            (tokensByValue match TokenRetrieveByUser tm username with
                                           | (token, None) =>
                                               fst (TokenInvalidate tm (Token_Token token))
                                           | (_, Some _) => tm
                                           end) |}).
  { subst tm'. unfold TokenGenerate. by rewrite Hexists. }
  set (tm1 := match TokenRetrieveByUser tm username with
              | (token, None) => fst (TokenInvalidate tm (Token_Token token))
              | (_, Some _) => tm
              end) in *.
  assert (Hv1 : tokensByValue tm1 !! tokenString = None).
  { destruct (tokensByValue tm1 !! tokenString) as [t|] eqn:E; [|done].
    apply Hsub in E. congruence. }
  assert (HvT : tokensByValue tm' !! tokenString = Some T).
  { rewrite Htm'. cbn [tokensByValue]. by rewrite lookup_insert_eq. }
  split_and!.
  - unfold TokenGenerate. by rewrite Hexists.
  - apply TokenRetrieveByUser_Some. rewrite Htm'. cbn [tokensByUser].
    by rewrite lookup_insert_eq.
  - by apply TokenRetrieveByToken_Some.
  - unfold TokenEvaluate, TokenRetrieveByToken. by rewrite HvT.
  - intros old Hu. unfold TokenRetrieveByToken. rewrite Htm'. cbn [tokensByValue].
    rewrite lookup_insert_ne.
    + by rewrite (Hold old Hu).
    + intros E. destruct Hcons as [HU _]. destruct (HU _ _ Hu) as [_ Hv]. congruence.
  - intros u Hne. unfold TokenRetrieveByUser. rewrite Htm'. cbn [tokensByUser].
    rewrite lookup_insert_ne by done. by rewrite (Hframe u Hne).
  - rewrite Htm'. by apply (insert_consistent tm1 T).
Qed.

(** When the random source fails, [TokenGenerate] returns its error and
    no token, but the user's former token has been invalidated all the
    same: the user is left with no token. *)
Theorem TokenGenerate_random_failure
    (tm : tokenMaps) (username tokenString : string) (duration now : Z) (err : error) :
  UserExists username = (true, None) ->
  consistent tm ->
  let tm' := fst (TokenGenerate UserExists tm username duration (tokenString, Some err) now) in
  snd (TokenGenerate UserExists tm username duration (tokenString, Some err) now)
  = (Token_zero, Some err)
  /\ TokenRetrieveByUser tm' username = (Token_zero, Some ErrNoSuchToken)
  /\ (forall old, tokensByUser tm !! username = Some old ->
        TokenRetrieveByToken tm' (Token_Token old) = (Token_zero, Some ErrNoSuchToken)
        /\ TokenEvaluate IsExpired tm' (Token_Token old) = false)
  /\ (forall u, u <> username -> TokenRetrieveByUser tm' u = TokenRetrieveByUser tm u)
  /\ consistent tm'.
Proof.
  intros Hexists Hcons tm'.
  destruct (TokenGenerate_cleared tm username Hcons) as (Hc1 & Hu1 & Hsub & Hold & Hframe).
  assert (Htm' : tm' = match TokenRetrieveByUser tm username with
                       | (token, None) => fst (TokenInvalidate tm (Token_Token token))
                       | (_, Some _) => tm
                       end).
  { subst tm'. unfold TokenGenerate. by rewrite Hexists. }
  rewrite <- Htm' in *.
  split_and!.
  - unfold TokenGenerate. by rewrite Hexists.
  - unfold TokenRetrieveByUser. by rewrite Hu1.
  - intros old Hu. unfold TokenEvaluate, TokenRetrieveByToken. by rewrite (Hold old Hu).
  - intros u Hne. unfold TokenRetrieveByUser. by rewrite (Hframe u Hne).
  - exact Hc1.
Qed.

(** *** Sequences of [TokenGenerate] and [TokenInvalidate] calls *)

Lemma tokenPerformed_consistent (tm : tokenMaps) (c : tokenCall) (log : list Token) :
  consistent tm -> heldIn tm log ->
  NoDup (map Token_Token (log ++ tokensIssued UserExists tm [c])) ->
  consistent (tokenPerformed UserExists tm c)
  /\ heldIn (tokenPerformed UserExists tm c) (log ++ tokensIssued UserExists tm [c]).
Proof.
  intros Hcons Hheld Hnodup. destruct c as [g|s]; cbn [tokenPerformed tokensIssued] in *.
  - pose proof (generate_consistent UserExists tm g log Hcons Hheld) as Hstep.
    destruct (generate UserExists tm g) as [tm' [T [err|]]]; cbn [fst snd] in *.
    + by rewrite app_nil_r.
    + destruct Hstep as (H1 & H2 & _); [|done].
      rewrite map_app in Hnodup. apply NoDup_app in Hnodup as (_ & Hdisj & _).
      intros Hin. apply (Hdisj _ Hin). cbn. apply list_elem_of_here.
  - rewrite app_nil_r. destruct (TokenInvalidate_any_consistent tm s Hcons) as [H1 H2].
    split; [done|]. intros s' t' H. apply (Hheld s'). by apply H2.
Qed.

Lemma tokensIssued_cons (tm : tokenMaps) (c : tokenCall) (cs : list tokenCall) :
  tokensIssued UserExists tm (c :: cs)
  = tokensIssued UserExists tm [c]
    ++ tokensIssued UserExists (tokenPerformed UserExists tm c) cs.
Proof.
  cbn [tokensIssued]. destruct c as [g|s]; [|reflexivity].
  by destruct (snd (generate UserExists tm g)) as [T [err|]].
Qed.

Lemma tokenCalls_consistent (cs : list tokenCall) : forall tm log,
  consistent tm -> heldIn tm log ->
  NoDup (map Token_Token (log ++ tokensIssued UserExists tm cs)) ->
  consistent (fold_left (tokenPerformed UserExists) cs tm)
  /\ heldIn (fold_left (tokenPerformed UserExists) cs tm)
       (log ++ tokensIssued UserExists tm cs).
Proof.
  induction cs as [|c cs IH]; intros tm log Hcons Hheld Hnodup.
  - cbn. by rewrite app_nil_r.
  - rewrite tokensIssued_cons, app_assoc in Hnodup |- *. cbn [fold_left].
    destruct (tokenPerformed_consistent tm c log Hcons Hheld) as [H1 H2].
    { rewrite map_app in Hnodup. by apply NoDup_app in Hnodup as [? _]. }
    by apply IH.
Qed.

(** Whatever [TokenGenerate] and [TokenInvalidate] calls are made from
    the empty token maps, as long as the random source repeats no value:
    the two lookups agree on every token, a token found is one a call
    returned, and no user holds two tokens. *)
Theorem token_calls_agree (cs : list tokenCall) :
  NoDup (map Token_Token (tokensIssued UserExists init cs)) ->
  let tm := fold_left (tokenPerformed UserExists) cs init in
  (forall u t, TokenRetrieveByUser tm u = (t, None) ->
     Token_User t = u /\ TokenRetrieveByToken tm (Token_Token t) = (t, None))
  /\ (forall s t, TokenRetrieveByToken tm s = (t, None) ->
        Token_Token t = s
        /\ TokenRetrieveByUser tm (Token_User t) = (t, None)
        /\ t ∈ tokensIssued UserExists init cs)
  /\ (forall u, atMostOneToken tm u).
Proof.
  intros Hnodup tm. destruct consistent_init as [Hc0 Hh0].
  destruct (tokenCalls_consistent cs init [] Hc0 Hh0 Hnodup) as [Hcons Hheld].
  fold tm in Hcons, Hheld. cbn [app] in Hheld. pose proof Hcons as [HU HV].
  split_and!.
  - intros u t Hu%TokenRetrieveByUser_Some. destruct (HU _ _ Hu) as [H1 H2].
    split; [done|]. by apply TokenRetrieveByToken_Some.
  - intros s t Hv%TokenRetrieveByToken_Some. destruct (HV _ _ Hv) as [H1 H2].
    split; [done|]. split; [by apply TokenRetrieveByUser_Some|]. by apply (Hheld s).
  - intros u. by apply consistent_atMostOneToken.
Qed.
End TokenMore.

Lemma consistent_aliceMaps : memory.consistent memory.aliceMaps.
Proof.
  destruct consistent_init as [Hc Hh].
  apply (after_consistent memory.everyUser [memory.aliceCall] memory.init [] Hc Hh).
  vm_compute. apply NoDup_singleton.
Qed.

Lemma TokenInvalidate_removes_witness :
  let expired := fun _ : rest.Token => false in
  let tm' := fst (memory.TokenInvalidate memory.aliceMaps "T1") in
  snd (memory.TokenInvalidate memory.aliceMaps "T1") = None
  /\ memory.TokenRetrieveByToken tm' "T1" = (rest.Token_zero, Some ErrNoSuchToken)
  /\ memory.TokenRetrieveByUser tm' "alice" = (rest.Token_zero, Some ErrNoSuchToken)
  /\ memory.TokenEvaluate expired tm' "T1" = false
  /\ memory.TokenInvalidate tm' "T1" = (tm', Some ErrNoSuchToken)
  /\ (forall s', s' <> "T1" ->
        memory.TokenRetrieveByToken tm' s' = memory.TokenRetrieveByToken memory.aliceMaps s')
  /\ (forall u, u <> "alice" ->
        memory.TokenRetrieveByUser tm' u = memory.TokenRetrieveByUser memory.aliceMaps u)
  /\ memory.consistent tm'.
Proof.
  intros expired.
  apply (TokenInvalidate_removes expired memory.aliceMaps "T1"
           {| rest.Token_Duration := 3600; rest.Token_Token := "T1";
              rest.Token_User := "alice"; rest.Token_ValidFrom := 0;
              rest.Token_ValidUntil := 3600 |} consistent_aliceMaps).
  vm_compute. reflexivity.
Defined.

Lemma TokenGenerate_roundtrip_witness :
  let expired := fun t : rest.Token => (rest.Token_ValidUntil t <? 4000)%Z in
  let T := {| rest.Token_Duration := 60; rest.Token_Token := "T2";
              rest.Token_User := "alice"; rest.Token_ValidFrom := 3000;
              rest.Token_ValidUntil := (3000 + 60)%Z |} in
  let tm' := fst (memory.TokenGenerate memory.everyUser memory.aliceMaps "alice" 60
                    ("T2", None) 3000) in
  snd (memory.TokenGenerate memory.everyUser memory.aliceMaps "alice" 60 ("T2", None) 3000)
  = (T, None)
  /\ memory.TokenRetrieveByUser tm' "alice" = (T, None)
  /\ memory.TokenRetrieveByToken tm' "T2" = (T, None)
  /\ memory.TokenEvaluate expired tm' "T2" = negb (expired T)
  /\ (forall old, memory.tokensByUser memory.aliceMaps !! "alice" = Some old ->
        memory.TokenRetrieveByToken tm' (rest.Token_Token old)
        = (rest.Token_zero, Some ErrNoSuchToken))
  /\ (forall u, u <> "alice" ->
        memory.TokenRetrieveByUser tm' u = memory.TokenRetrieveByUser memory.aliceMaps u)
  /\ memory.consistent tm'.
Proof.
  intros expired.
  apply (TokenGenerate_roundtrip memory.everyUser expired memory.aliceMaps "alice" "T2"
           60 3000 eq_refl consistent_aliceMaps).
  vm_compute. reflexivity.
Defined.

Lemma TokenGenerate_random_failure_witness :
  let expired := fun _ : rest.Token => false in
  let tm' := fst (memory.TokenGenerate memory.everyUser memory.aliceMaps "alice" 60
                    ("", Some (Errorf "entropy")) 3000) in
  snd (memory.TokenGenerate memory.everyUser memory.aliceMaps "alice" 60
         ("", Some (Errorf "entropy")) 3000)
  = (rest.Token_zero, Some (Errorf "entropy"))
  /\ memory.TokenRetrieveByUser tm' "alice" = (rest.Token_zero, Some ErrNoSuchToken)
  /\ (forall old, memory.tokensByUser memory.aliceMaps !! "alice" = Some old ->
        memory.TokenRetrieveByToken tm' (rest.Token_Token old)
        = (rest.Token_zero, Some ErrNoSuchToken)
        /\ memory.TokenEvaluate expired tm' (rest.Token_Token old) = false)
  /\ (forall u, u <> "alice" ->
        memory.TokenRetrieveByUser tm' u = memory.TokenRetrieveByUser memory.aliceMaps u)
  /\ memory.consistent tm'.
Proof.
  intros expired.
  apply (TokenGenerate_random_failure memory.everyUser expired memory.aliceMaps "alice" ""
           60 3000 (Errorf "entropy") eq_refl consistent_aliceMaps).
Defined.

Lemma token_calls_agree_witness :
  let cs := [memory.CallTokenGenerate memory.aliceCall;
             memory.CallTokenGenerate
               {| memory.call_username := "bob"; memory.call_duration := 60;
                  memory.call_random := ("T2", None); memory.call_now := 5 |};
             memory.CallTokenInvalidate "T1";
             memory.CallTokenGenerate
               {| memory.call_username := "alice"; memory.call_duration := 60;
                  memory.call_random := ("T3", None); memory.call_now := 9 |}] in
  let tm := fold_left (memory.tokenPerformed memory.everyUser) cs memory.init in
  (forall u t, memory.TokenRetrieveByUser tm u = (t, None) ->
     rest.Token_User t = u
     /\ memory.TokenRetrieveByToken tm (rest.Token_Token t) = (t, None))
  /\ (forall s t, memory.TokenRetrieveByToken tm s = (t, None) ->
        rest.Token_Token t = s
        /\ memory.TokenRetrieveByUser tm (rest.Token_User t) = (t, None)
        /\ t ∈ memory.tokensIssued memory.everyUser memory.init cs)
  /\ (forall u, memory.atMostOneToken tm u).
Proof.
  intros cs. apply (token_calls_agree memory.everyUser cs).
  refine (bool_decide_unpack _ _). vm_compute. exact I.
Defined.

(** ** The tokens: two calls for one user that overlap *)

Section TokenInterleaving.
Import rest memory.
Variable UserExists : string -> bool * option error.
Variable IsExpired : Token -> bool.

Lemma TokenGenerate_split (tm : tokenMaps) (username : string) (duration : Z)
    (random : string * option error) (now : Z) :
  TokenGenerate UserExists tm username duration random now
  = match TokenGenerate_begin UserExists tm username with
    | (tm1, Some err) => (tm1, (Token_zero, Some err))
    | (tm1, None) => TokenGenerate_finish tm1 username duration random now
    end.
Proof.
  unfold TokenGenerate, TokenGenerate_begin, TokenGenerate_finish.
  by destruct (UserExists username) as [[|] [err|]].
Qed.

(** [TokenGenerate] takes no lock.  When a second call for the same user
    runs between the invalidation of the first call and its request to
    the random source, the first call ends with both new tokens held by
    value, both for the user and both valid unless expired: the maps hold
    two tokens of the user. *)
Theorem TokenGenerate_interleaved
    (tm : tokenMaps) (username s1 s2 : string) (d1 d2 now1 now2 : Z) :
  UserExists username = (true, None) ->
  s1 <> s2 ->
  let T1 := {| Token_Duration := d1; Token_Token := s1; Token_User := username;
               Token_ValidFrom := now1; Token_ValidUntil := (now1 + d1)%Z |} in
  let T2 := {| Token_Duration := d2; Token_Token := s2; Token_User := username;
               Token_ValidFrom := now2; Token_ValidUntil := (now2 + d2)%Z |} in
  let tmA := fst (TokenGenerate_begin UserExists tm username) in
  let tmB := fst (TokenGenerate UserExists tmA username d2 (s2, None) now2) in
  let tmC := fst (TokenGenerate_finish tmB username d1 (s1, None) now1) in
  TokenGenerate UserExists tm username d1 (s1, None) now1
  = TokenGenerate_finish tmA username d1 (s1, None) now1
  /\ TokenRetrieveByToken tmC s1 = (T1, None)
  /\ TokenRetrieveByToken tmC s2 = (T2, None)
  /\ TokenEvaluate IsExpired tmC s1 = negb (IsExpired T1)
  /\ TokenEvaluate IsExpired tmC s2 = negb (IsExpired T2)
  /\ ~ atMostOneToken tmC username.
Proof.
  intros Hexists Hne T1 T2 tmA tmB tmC.
  assert (H1 : tokensByValue tmC !! s1 = Some T1).
  { subst tmC. cbn. by rewrite lookup_insert_eq. }
  assert (H2 : tokensByValue tmC !! s2 = Some T2).
  { subst tmC tmB. unfold TokenGenerate. rewrite Hexists. cbn.
    rewrite lookup_insert_ne by done. by rewrite lookup_insert_eq. }
  split_and!.
  - rewrite TokenGenerate_split. subst tmA. unfold TokenGenerate_begin.
    by rewrite Hexists.
  - unfold TokenRetrieveByToken. by rewrite H1.
  - unfold TokenRetrieveByToken. by rewrite H2.
  - unfold TokenEvaluate, TokenRetrieveByToken. by rewrite H1.
  - unfold TokenEvaluate, TokenRetrieveByToken. by rewrite H2.
  - intros [Ha _]. destruct (Ha s1 s2 T1 T2 H1 H2 eq_refl eq_refl) as [Heq _]. done.
Qed.
End TokenInterleaving.

Lemma TokenGenerate_interleaved_witness :
  let expired := fun _ : rest.Token => false in
  let T1 := {| rest.Token_Duration := 60; rest.Token_Token := "T2"; rest.Token_User := "alice";
               rest.Token_ValidFrom := 5; rest.Token_ValidUntil := (5 + 60)%Z |} in
  let T2 := {| rest.Token_Duration := 90; rest.Token_Token := "T3"; rest.Token_User := "alice";
               rest.Token_ValidFrom := 6; rest.Token_ValidUntil := (6 + 90)%Z |} in
  let tmA := fst (memory.TokenGenerate_begin memory.everyUser memory.aliceMaps "alice") in
  let tmB := fst (memory.TokenGenerate memory.everyUser tmA "alice" 90 ("T3", None) 6) in
  let tmC := fst (memory.TokenGenerate_finish tmB "alice" 60 ("T2", None) 5) in
  memory.TokenGenerate memory.everyUser memory.aliceMaps "alice" 60 ("T2", None) 5
  = memory.TokenGenerate_finish tmA "alice" 60 ("T2", None) 5
  /\ memory.TokenRetrieveByToken tmC "T2" = (T1, None)
  /\ memory.TokenRetrieveByToken tmC "T3" = (T2, None)
  /\ memory.TokenEvaluate expired tmC "T2" = negb (expired T1)
  /\ memory.TokenEvaluate expired tmC "T3" = negb (expired T2)
  /\ ~ memory.atMostOneToken tmC "alice".
Proof.
  intros expired.
  apply (TokenGenerate_interleaved memory.everyUser expired memory.aliceMaps
           "alice" "T2" "T3" 60 90 5 6 eq_refl).
  discriminate.
Defined.
